(** * Node lifecycle, power orchestration and address claiming of
    [maasserver/models/node.py], as a shallow embedding.

    Python objects become records, the Django tables become finite maps
    and lists inside a [World], and every method becomes a function in a
    state-and-exception monad: a method of [Node] runs on the pair of the
    in-memory object [self] and the world, a manager method on the world
    alone.  Collaborators whose code lives in other modules (the cluster
    RPC layer, the address allocator, the status tables) are fields of an
    environment record [Env]; the calls made to them are logged in the
    world, in order.  Logging through [maaslog] is left out, and
    [transaction.commit()] is the identity: every save is taken as
    written.

    The functions of [node.py] that work on strings, [validate_hostname]
    and [split_arch], are embedded as functions on [string], and
    [make_json_field] with the schemas of
    [provisioningserver/power_schema.py] as functions on a small type of
    Python values. *)

From stdpp Require Import gmap strings list fin_maps pretty.
From Stdlib Require Import ZArith Lia Ascii.

Set Default Proof Using "Type".
Open Scope string_scope.
Open Scope list_scope.

(** ** Enumerations *)

(** Modelled from the spec: [maasserver.enum.NODE_STATUS] is not part of
    the sources at hand; the sixteen lifecycle states are those listed in
    section 4.1 of the specification, under the names [node.py] uses. *)
Inductive NODE_STATUS : Set :=
| NEW | COMMISSIONING | FAILED_COMMISSIONING | READY | RESERVED
| ALLOCATED | DEPLOYING | DEPLOYED | FAILED_DEPLOYMENT | RELEASING
| DISK_ERASING | FAILED_DISK_ERASING | FAILED_RELEASING | BROKEN
| MISSING | RETIRED.

#[global] Instance NODE_STATUS_eq_dec : EqDecision NODE_STATUS.
Proof. solve_decision. Defined.

(** Modelled from the spec: [maasserver.enum.POWER_STATE], the last
    observed physical power state, [on] / [off] / [unknown]. *)
Inductive POWER_STATE : Set := POWER_ON | POWER_OFF | POWER_UNKNOWN.

#[global] Instance POWER_STATE_eq_dec : EqDecision POWER_STATE.
Proof. solve_decision. Defined.

(** [maasserver.enum.NODE_PERMISSION]. *)
Inductive NODE_PERMISSION : Set := PERM_VIEW | PERM_EDIT | PERM_ADMIN.

(** ** Data *)

(** A JSON scalar, as stored in the [power_parameters] dictionary. *)
Inductive JSON : Set :=
| JNull
| JBool (b : bool)
| JNum (z : Z)
| JStr (s : string).

#[global] Instance JSON_eq_dec : EqDecision JSON.
Proof. solve_decision. Defined.

Record User : Set := mkUser {
  username : string;
  is_superuser : bool
}.

#[global] Instance User_eq_dec : EqDecision User.
Proof. solve_decision. Defined.

(** A [piston.models.Token]: its key and the user it belongs to. *)
Record Token : Set := mkToken {
  token_key : string;
  token_user : User
}.

#[global] Instance Token_eq_dec : EqDecision Token.
Proof. solve_decision. Defined.

Record ClusterInterface : Set := mkClusterInterface {
  is_managed : bool
}.

#[global] Instance ClusterInterface_eq_dec : EqDecision ClusterInterface.
Proof. solve_decision. Defined.

(** A row of the [MACAddress] table.  [mac_node] is the foreign key to
    the owning node (its [system_id]); [created] is the creation stamp
    [get_primary_mac] orders by. *)
Record MACAddress : Set := mkMAC {
  mac_address : string;
  mac_node : string;
  created : nat;
  cluster_interface : option ClusterInterface
}.

#[global] Instance MACAddress_eq_dec : EqDecision MACAddress.
Proof. solve_decision. Defined.

(** The [power_parameters] field: a JSON object, or the empty unicode
    string an unset field comes out as. *)
Inductive PowerParameters : Type :=
| pp_blank
| pp_dict (d : gmap string JSON).

#[global] Instance PowerParameters_eq_dec : EqDecision PowerParameters.
Proof. solve_decision. Defined.

(** The fields of [Node] that the lifecycle code reads or writes. *)
Record Node : Type := mkNode {
  system_id : string;
  hostname : string;
  status : NODE_STATUS;
  owner : option User;
  agent_name : string;
  error_description : string;
  osystem : string;
  distro_series : string;
  license_key : string;
  power_type : string;
  power_parameters : PowerParameters;
  power_state : POWER_STATE;
  token : option Token;
  netboot : bool;
  nodegroup : string;
  pxe_mac : option MACAddress
}.

#[global] Instance Node_eq_dec : EqDecision Node.
Proof. solve_decision. Defined.

Definition set_status (s : NODE_STATUS) (n : Node) : Node :=
  mkNode (system_id n) (hostname n) s (owner n) (agent_name n)
    (error_description n) (osystem n) (distro_series n) (license_key n)
    (power_type n) (power_parameters n) (power_state n) (token n)
    (netboot n) (nodegroup n) (pxe_mac n).

Definition set_owner (o : option User) (n : Node) : Node :=
  mkNode (system_id n) (hostname n) (status n) o (agent_name n)
    (error_description n) (osystem n) (distro_series n) (license_key n)
    (power_type n) (power_parameters n) (power_state n) (token n)
    (netboot n) (nodegroup n) (pxe_mac n).

Definition set_error_description (d : string) (n : Node) : Node :=
  mkNode (system_id n) (hostname n) (status n) (owner n) (agent_name n)
    d (osystem n) (distro_series n) (license_key n)
    (power_type n) (power_parameters n) (power_state n) (token n)
    (netboot n) (nodegroup n) (pxe_mac n).

Definition set_power_state (p : POWER_STATE) (n : Node) : Node :=
  mkNode (system_id n) (hostname n) (status n) (owner n) (agent_name n)
    (error_description n) (osystem n) (distro_series n) (license_key n)
    (power_type n) (power_parameters n) p (token n)
    (netboot n) (nodegroup n) (pxe_mac n).

Definition set_token_agent (n : Node) : Node :=
  mkNode (system_id n) (hostname n) (status n) (owner n) ""
    (error_description n) (osystem n) (distro_series n) (license_key n)
    (power_type n) (power_parameters n) (power_state n) None
    (netboot n) (nodegroup n) (pxe_mac n).

Definition set_os_fields (n : Node) : Node :=
  mkNode (system_id n) (hostname n) (status n) (owner n) (agent_name n)
    (error_description n) "" "" ""
    (power_type n) (power_parameters n) (power_state n) (token n)
    (netboot n) (nodegroup n) (pxe_mac n).

Definition set_netboot_field (b : bool) (n : Node) : Node :=
  mkNode (system_id n) (hostname n) (status n) (owner n) (agent_name n)
    (error_description n) (osystem n) (distro_series n) (license_key n)
    (power_type n) (power_parameters n) (power_state n) (token n)
    b (nodegroup n) (pxe_mac n).

Definition set_acquired (u : User) (t : option Token) (agent : string) (n : Node)
  : Node :=
  mkNode (system_id n) (hostname n) ALLOCATED (Some u) agent
    (error_description n) (osystem n) (distro_series n) (license_key n)
    (power_type n) (power_parameters n) (power_state n) t
    (netboot n) (nodegroup n) (pxe_mac n).

(** ** Exceptions and remote results *)

(** A [twisted.python.failure.Failure], kept as its description. *)
Definition Failure : Set := string.

Inductive exn : Set :=
| NodeStateViolation (msg : string)
| MultipleFailures (failures : list Failure)
| StaticIPAddressExhaustion
| StaticIPAddressTypeClash
| UnknownPowerType (msg : string)
| TimeoutError
| NoConnectionsAvailable
| AssertionError.

#[global] Instance exn_eq_dec : EqDecision exn.
Proof. solve_decision. Defined.

(** The state of a [Deferred] handed to [wait_for_power_commands]: it
    calls back or errs back [after] seconds from the start of the wait, or
    it never fires. *)
Inductive Deferred : Set :=
| Callback (after : nat) (value : string)
| Errback (after : nat) (failure : Failure)
| NeverFires.

(** [PowerInfo], the return type of [get_effective_power_info]. *)
Record PowerInfo : Type := mkPowerInfo {
  can_be_started : bool;
  can_be_stopped : bool;
  can_be_queried : bool;
  pi_power_type : option string;
  pi_power_parameters : option (gmap string JSON)
}.

(** The tuples handed to the reactor:
    [(system_id, hostname, nodegroup.uuid, power_info)]. *)
Definition NodePowerRequest : Type := string * string * string * PowerInfo.

(** Calls made to collaborators, in the order they were issued. *)
Inductive Effect : Type :=
| BulkSetUserData (ids : list string) (user_data : option string)
| ClearResults (id : string)
| StartMonitors (cluster : string) (id : string) (node_status : NODE_STATUS) (timeout : nat)
| CancelMonitor (cluster : string) (id : string)
| UpdateHostMaps (static_mappings : gmap string (gmap string string))
| RemoveHostMaps (cluster : string) (ips : gset string)
| ChangeDNSZones (clusters : gset string)
| PowerOnNodes (requests : list NodePowerRequest)
| PowerOffNodes (requests : list NodePowerRequest).

(** ** The world *)

(** The tables the code reads and writes, and the log of collaborator
    calls.  [nodes] is keyed by [system_id] (a unique column);
    [staticipaddresses] holds [(ip, mac_address)] rows, [dhcpleases]
    holds [(nodegroup, ip, mac)] rows. *)
Record World : Type := mkWorld {
  nodes : gmap string Node;
  macaddresses : list MACAddress;
  staticipaddresses : list (string * string);
  dhcpleases : list (string * string * string);
  effects : list Effect
}.

Definition set_nodes (m : gmap string Node) (w : World) : World :=
  mkWorld m (macaddresses w) (staticipaddresses w) (dhcpleases w) (effects w).

Definition set_macaddresses (l : list MACAddress) (w : World) : World :=
  mkWorld (nodes w) l (staticipaddresses w) (dhcpleases w) (effects w).

Definition set_staticipaddresses (l : list (string * string)) (w : World) : World :=
  mkWorld (nodes w) (macaddresses w) l (dhcpleases w) (effects w).

Definition set_dhcpleases (l : list (string * string * string)) (w : World) : World :=
  mkWorld (nodes w) (macaddresses w) (staticipaddresses w) l (effects w).

Definition log_effect (e : Effect) (w : World) : World :=
  mkWorld (nodes w) (macaddresses w) (staticipaddresses w) (dhcpleases w)
    (effects w ++ [e]).

(** ** The environment: collaborators defined outside [node.py] *)

Record Env : Type := mkEnv {
  (** [maasserver.node_status.NODE_TRANSITIONS]: the adjacency table, a
      dictionary from the stored status ([None] for a node with no row
      yet) to its allowed successors. *)
  NODE_TRANSITIONS : option NODE_STATUS -> option (list NODE_STATUS);
  (** [NODE_STATUS_CHOICES_DICT]: the display name of every status. *)
  NODE_STATUS_CHOICES_DICT : NODE_STATUS -> string;
  (** The integer behind each [NODE_STATUS] member. *)
  NODE_STATUS_value : NODE_STATUS -> Z;
  (** [provisioningserver.rpc.power.QUERY_POWER_TYPES]. *)
  QUERY_POWER_TYPES : list string;
  (** [MACAddress.claim_static_ips]: the allocator, acting on the
      [StaticIPAddress] table. *)
  claim_static_ips :
    MACAddress -> list (string * string) ->
    list (string * string) * (exn + list string);
  (** [maasserver.clusterrpc.dhcp]: the failures of a host-map update,
      respectively removal. *)
  update_host_maps : gmap string (gmap string string) -> list Failure;
  remove_host_maps : string -> gset string -> list Failure;
  (** [maasserver.clusterrpc.power]: the deferreds of a batch. *)
  power_on_nodes : list NodePowerRequest -> list Deferred;
  power_off_nodes : list NodePowerRequest -> list Deferred;
  (** [maasserver.rpc.getClientFor]: [Some e] when no client can be had. *)
  getClientFor : string -> option exn;
  (** [metadataserver.user_data.*.generate_user_data]. *)
  commissioning_user_data : Node -> string;
  disk_erasing_user_data : Node -> string;
  (** [Config.objects.get_config('enable_disk_erasing_on_release')]. *)
  enable_disk_erasing_on_release : bool
}.

(** ** A state-and-exception monad *)

Inductive result (A : Type) : Type :=
| Ok (a : A)
| Raise (e : exn).
Arguments Ok {A} a.
Arguments Raise {A} e.

Definition M (S A : Type) : Type := S -> result A * S.

Definition ret {S A} (a : A) : M S A := fun s => (Ok a, s).

Definition raise {S A} (e : exn) : M S A := fun s => (Raise e, s).

Definition bind {S A B} (c : M S A) (k : A -> M S B) : M S B :=
  fun s => match c s with
           | (Ok a, s') => k a s'
           | (Raise e, s') => (Raise e, s')
           end.

(** [try: c except Exception as ex: h ex]. *)
Definition try_except {S A} (c : M S A) (h : exn -> M S A) : M S A :=
  fun s => match c s with
           | (Ok a, s') => (Ok a, s')
           | (Raise e, s') => h e s'
           end.

Definition get {S} : M S S := fun s => (Ok s, s).
Definition modify {S} (f : S -> S) : M S unit := fun s => (Ok tt, f s).

Declare Scope py_scope.
Delimit Scope py_scope with py.
Notation "'let*' x := c 'in' k" := (bind c (fun x => k))
  (at level 10, x name, c at level 100, k at level 200, only parsing) : py_scope.
Notation "'let*' ' p := c 'in' k" := (bind c (fun x => match x with p => k end))
  (at level 10, p pattern, c at level 100, k at level 200, only parsing) : py_scope.

(** The state of a method call: the in-memory object and the world. *)
Definition Self : Type := Node * World.

(** Run a manager-level computation from inside a method. *)
Definition in_world {A} (c : M World A) : M Self A :=
  fun s => match c (snd s) with (r, w') => (r, (fst s, w')) end.

(** Run a method on another in-memory object; the object comes back
    with the result. *)
Definition on_object {A} (n : Node) (c : M Self A) : M World (A * Node) :=
  fun w => match c (n, w) with
           | (Ok a, (n', w')) => (Ok (a, n'), w')
           | (Raise e, (_, w')) => (Raise e, w')
           end.

Definition self_node : M Self Node := fun s => (Ok (fst s), s).
Definition self_world : M Self World := fun s => (Ok (snd s), s).
Definition update_self (f : Node -> Node) : M Self unit :=
  fun s => (Ok tt, (f (fst s), snd s)).
Definition update_world (f : World -> World) : M Self unit :=
  fun s => (Ok tt, (fst s, f (snd s))).

Open Scope py_scope.

(** [with transaction.atomic(): c]: when the block is left by an
    exception the tables are put back as they were on entry; the log of
    remote calls and the in-memory object are not. *)
Definition rollback_db (before after : World) : World :=
  mkWorld (nodes before) (macaddresses before) (staticipaddresses before)
    (dhcpleases before) (effects after).

Definition atomic {A} (c : M Self A) : M Self A :=
  fun s => match c s with
           | (Ok a, s') => (Ok a, s')
           | (Raise e, (n', w')) => (Raise e, (n', rollback_db (snd s) w'))
           end.

(** ** The node state machine *)

(** Modelled from the spec: [maasserver.node_status.get_failed_status]
    is not part of the sources at hand.  Section 4.1: [failureCounterpart]
    maps an in-progress state to its corresponding failure state, and
    states with no failure counterpart return none. *)
Definition get_failed_status (s : NODE_STATUS) : option NODE_STATUS :=
  match s with
  | COMMISSIONING => Some FAILED_COMMISSIONING
  | DEPLOYING => Some FAILED_DEPLOYMENT
  | RELEASING => Some FAILED_RELEASING
  | DISK_ERASING => Some FAILED_DISK_ERASING
  | _ => None
  end.

(** Modelled from the spec: [maasserver.node_status.is_failed_status]
    is not part of the sources at hand.  Section 4.1: [isFailureState] is
    true for all [failed-*] states. *)
Definition is_failed_status (s : NODE_STATUS) : bool :=
  match s with
  | FAILED_COMMISSIONING | FAILED_DEPLOYMENT | FAILED_RELEASING
  | FAILED_DISK_ERASING => true
  | _ => false
  end.

(** [get_db_state(self, 'status')]: the status in the node's row, [None]
    when the node has no row. *)
Definition get_db_state (w : World) (self : Node) : option NODE_STATUS :=
  status <$> nodes w !! system_id self.

(** [NODE_STATUS_CHOICES_DICT.get(s, "Unknown")]. *)
Definition status_display (E : Env) (s : option NODE_STATUS) : string :=
  match s with
  | Some s => NODE_STATUS_CHOICES_DICT E s
  | None => "Unknown"
  end.

(** The decision taken by [Node.clean_status], as a function of the
    stored status and the status of the in-memory object. *)
Definition validate_transition (E : Env)
    (old_status : option NODE_STATUS) (new_status : NODE_STATUS) : result unit :=
  if decide (Some new_status = old_status) then
    (* No transition is always a safe transition. *)
    Ok tt
  else if decide (new_status ∈ default [] (NODE_TRANSITIONS E old_status)) then
    (* Valid transition. *)
    Ok tt
  else
    (* Transition not permitted. *)
    Raise (NodeStateViolation
             ("Invalid transition: " +:+ status_display E old_status +:+
              " -> " +:+ status_display E (Some new_status) +:+ ".")).

Definition clean_status (E : Env) : M Self unit :=
  fun s => (validate_transition E (get_db_state (snd s) (fst s)) (status (fst s)), s).

(** [Node.clean]. *)
Definition clean (E : Env) : M Self unit := clean_status E.

(** Modelled from the spec: [CleanSave.save], the [save] that [Node]
    inherits, is not part of the sources at hand.  Section 4.1,
    [applyTransition]: it validates, then sets the status.  Saving runs
    [Node.clean] first, and only a clean object is written to its row; the
    validators of the other fields are outside this model. *)
Definition save (E : Env) : M Self unit :=
  let* _ := clean E in
  fun s => (Ok tt, (fst s, set_nodes (<[system_id (fst s) := fst s]> (nodes (snd s))) (snd s))).

(** ** Hardware addresses *)

Definition macaddress_set (w : World) (self : Node) : list MACAddress :=
  filter (fun m => mac_node m = system_id self) (macaddresses w).

(** [order_by('created')[:1]]: the earliest row, the first of them in
    table order when several share the stamp. *)
Fixpoint earliest (l : list MACAddress) : option MACAddress :=
  match l with
  | [] => None
  | m :: l' =>
      match earliest l' with
      | Some m' => if Nat.ltb (created m') (created m) then Some m' else Some m
      | None => Some m
      end
  end.

Definition get_primary_mac (w : World) (self : Node) : option MACAddress :=
  earliest (macaddress_set w self).

Definition get_pxe_mac (w : World) (self : Node) : option MACAddress :=
  match pxe_mac self with
  | Some m => Some m
  | None => head (macaddress_set w self)
  end.

Definition is_pxe_mac_on_managed_interface (w : World) (self : Node) : bool :=
  match get_pxe_mac w self with
  | Some pxe =>
      match cluster_interface pxe with
      | Some ci => is_managed ci
      | None => false
      end
  | None => false
  end.

Definition on_managed_interface (m : MACAddress) : bool :=
  match cluster_interface m with
  | Some ci => is_managed ci
  | None => false
  end.

Definition mac_addresses_on_managed_interfaces (w : World) (self : Node)
  : list MACAddress :=
  filter (fun m => on_managed_interface m = true) (macaddress_set w self).

(** ** Power control information *)

(** [dict.setdefault]. *)
Definition setdefault (k : string) (v : JSON) (d : gmap string JSON)
  : gmap string JSON :=
  match d !! k with
  | Some _ => d
  | None => <[k := v]> d
  end.

(** [Node.get_effective_power_parameters]. *)
Definition get_effective_power_parameters (w : World) (self : Node)
  : gmap string JSON :=
  let power_params :=
    match power_parameters self with
    | pp_dict d => if decide (d = ∅) then ∅ else d
    | pp_blank => ∅
    end in
  let power_params := setdefault "system_id" (JStr (system_id self)) power_params in
  let power_params := setdefault "fence_cdu" (JStr "/usr/sbin/fence_cdu") power_params in
  let power_params := setdefault "ipmipower" (JStr "/usr/sbin/ipmipower") power_params in
  let power_params := setdefault "ipmitool" (JStr "/usr/bin/ipmitool") power_params in
  let power_params :=
    setdefault "ipmi_chassis_config" (JStr "/usr/sbin/ipmi-chassis-config") power_params in
  let power_params := setdefault "ipmi_config" (JStr "ipmi.conf") power_params in
  let power_params :=
    if decide (power_type self = "virsh")
    then setdefault "power_address" (JStr "qemu://localhost/system") power_params
    else setdefault "power_address" (JStr "") power_params in
  let power_params := setdefault "username" (JStr "") power_params in
  let power_params := setdefault "power_id" (JStr (system_id self)) power_params in
  let power_params := setdefault "power_driver" (JStr "") power_params in
  let power_params := setdefault "power_pass" (JStr "") power_params in
  let power_params := setdefault "power_off_mode" (JStr "") power_params in
  let power_params :=
    match power_params !! "mac_address" with
    | Some _ => power_params
    | None =>
        match get_primary_mac w self with
        | Some primary_mac =>
            <["mac_address" := JStr (mac_address primary_mac)]> power_params
        | None => power_params
        end
    end in
  if decide (status self = DEPLOYED)
  then <["boot_mode" := JStr "local"]> power_params
  else <["boot_mode" := JStr "pxe"]> power_params.

(** [Node.get_effective_power_type]. *)
Definition get_effective_power_type (self : Node) : result string :=
  if decide (power_type self = "")
  then Raise (UnknownPowerType "Node power type is unconfigured")
  else Ok (power_type self).

(** [mac != '' and mac is not None], for [mac = power_params.get(..)]. *)
Definition mac_is_configured (mac : option JSON) : bool :=
  match mac with
  | None | Some JNull => false
  | Some (JStr s) => bool_decide (s ≠ "")
  | Some _ => true
  end.

(** [Node.get_effective_power_info]. *)
Definition get_effective_power_info (E : Env) (w : World) (self : Node)
  : result PowerInfo :=
  let power_params := get_effective_power_parameters w self in
  match get_effective_power_type self with
  | Raise (UnknownPowerType _) => Ok (mkPowerInfo false false false None None)
  | Raise e => Raise e
  | Ok power_type =>
      let '(can_be_started, can_be_stopped) :=
        if decide (power_type = "ether_wake")
        then (mac_is_configured (power_params !! "mac_address"), false)
        else (true, true) in
      let can_be_queried := bool_decide (power_type ∈ QUERY_POWER_TYPES E) in
      Ok (mkPowerInfo can_be_started can_be_stopped can_be_queried
            (Some power_type) (Some power_params))
  end.

(** ** Resolving the nodes of a request *)

Definition all_nodes (w : World) : list Node := (map_to_list (nodes w)).*2.

(** [NodeManager._filter_visible_nodes]. *)
Definition _filter_visible_nodes (ns : list Node) (user : option User)
    (perm : NODE_PERMISSION) : list Node :=
  match user with
  | None => []
  | Some u =>
      if is_superuser u then ns
      else match perm with
           | PERM_VIEW => filter (fun n => owner n = None ∨ owner n = Some u) ns
           | PERM_EDIT => filter (fun n => owner n = Some u) ns
           | PERM_ADMIN => []
           end
  end.

(** [NodeManager.filter_by_ids]. *)
Definition filter_by_ids (query : list Node) (ids : option (list string))
  : list Node :=
  match ids with
  | None => query
  | Some ids => filter (fun n => system_id n ∈ ids) query
  end.

(** [NodeManager.get_nodes], with [from_nodes] left at its default. *)
Definition get_nodes (w : World) (user : option User) (perm : NODE_PERMISSION)
    (ids : option (list string)) : list Node :=
  filter_by_ids (_filter_visible_nodes (all_nodes w) user perm) ids.

(** ** Waiting for a batch of power commands *)

(** The deferred [DeferredList(deferreds, consumeErrors=True)] builds: it
    gathers one [(success, result)] pair per deferred, in order, and fires
    once every one of them has fired. *)
Inductive DeferredListT : Set :=
| DeferredList (deferreds : list Deferred).

(** The [(success, result)] pair a deferred has fired with by the time
    [t], if it has fired by then. *)
Definition fired_by (t : nat) (d : Deferred) : option (bool * string) :=
  match d with
  | Callback after value => if Nat.leb after t then Some (true, value) else None
  | Errback after failure => if Nat.leb after t then Some (false, failure) else None
  | NeverFires => None
  end.

(** The failure that stands for a dispatch that timed out. *)
Definition timed_out : Failure := "timed out".

(** Modelled from the spec: the [asynchronous(timeout=..)] decorator of
    [provisioningserver.utils.twisted] is not part of the sources at hand.
    Section 5: a batch blocks until all its dispatches settle or the batch
    timeout elapses, and on timeout the action of the corresponding node is
    treated as failed and included in the aggregated failure; section 4.2,
    step 5: any dispatch that errors or times out is collected.  So the
    caller gets, when the wait ends, one [(success, result)] pair per
    dispatch, in order: the pair the dispatch fired with by then, and a
    failure, [timed_out], for a dispatch that has not settled when the
    timeout elapses. *)
Definition asynchronous (timeout : nat) (d : DeferredListT)
  : list (bool * string) :=
  match d with
  | DeferredList deferreds =>
      (fun x => default (false, timed_out) (fired_by timeout x)) <$> deferreds
  end.

Definition wait_for_power_commands (deferreds : list Deferred) : result unit :=
  let block_until_commands_complete := asynchronous 30 (DeferredList deferreds) in
  let results := block_until_commands_complete in
  let failures := (filter (fun sr => fst sr = false) results).*2 in
  if decide (length failures ≠ 0)
  then Raise (MultipleFailures failures)
  else Ok tt.

Definition lift_result {S A} (r : result A) : M S A := fun s => (r, s).

(** ** Address claiming *)

(** [Node.claim_static_ip_addresses]. *)
Definition claim_static_ip_addresses (E : Env) : M Self (list (string * string)) :=
  fun s =>
    match get_pxe_mac (snd s) (fst s) with
    | None => (Ok [], s)
    | Some mac =>
        atomic
          (fun s =>
             match claim_static_ips E mac (staticipaddresses (snd s)) with
             | (table, inr static_ips) =>
                 (Ok ((fun ip => (ip, mac_address mac)) <$> static_ips),
                  (fst s, set_staticipaddresses table (snd s)))
             | (table, inl StaticIPAddressTypeClash) =>
                 (* There's already a non-AUTO IP. *)
                 (Ok [], (fst s, set_staticipaddresses table (snd s)))
             | (table, inl e) =>
                 (Raise e, (fst s, set_staticipaddresses table (snd s)))
             end) s
    end.

(** ** Transition monitor and deployment *)

(** [Node.start_transition_monitor]: a timeout of the five-second wait
    is logged, not raised. *)
Definition start_transition_monitor (E : Env) (timeout : nat) : M Self unit :=
  fun s =>
    match getClientFor E (nodegroup (fst s)) with
    | Some e => (Raise e, s)
    | None =>
        (Ok tt,
         (fst s,
          log_effect (StartMonitors (nodegroup (fst s)) (system_id (fst s))
                        (status (fst s)) timeout) (snd s)))
    end.

(** [Node.get_deployment_time]: forty minutes, in seconds. *)
Definition get_deployment_time : nat := 40 * 60.

(** [Node.start_deployment]. *)
Definition start_deployment (E : Env) : M Self unit :=
  let* _ := update_self (set_status DEPLOYING) in
  let* _ := save E in
  start_transition_monitor E get_deployment_time.

(** ** Batch power operations *)

(** [static_mappings[nodegroup].update(claims)] on a
    [defaultdict(dict)]. *)
Definition update_static_mappings (nodegroup : string)
    (claims : list (string * string))
    (static_mappings : gmap string (gmap string string))
  : gmap string (gmap string string) :=
  <[nodegroup :=
      foldl (fun d c => <[fst c := snd c]> d)
            (default ∅ (static_mappings !! nodegroup)) claims]> static_mappings.

(** The first loop of [start_nodes]: claim addresses for, and mark as
    deploying, every allocated node.  The objects come back as the loop
    left them. *)
Fixpoint claim_and_start_deployment (E : Env) (ns : list Node)
    (static_mappings : gmap string (gmap string string))
  : M World (gmap string (gmap string string) * list Node) :=
  match ns with
  | [] => ret (static_mappings, [])
  | node :: rest =>
      if decide (status node = ALLOCATED) then
        let* ' (claims, node) := on_object node (claim_static_ip_addresses E) in
        let* w := get in
        let static_mappings :=
          if is_pxe_mac_on_managed_interface w node
          then update_static_mappings (nodegroup node) claims static_mappings
          else static_mappings in
        let* ' (_, node) := on_object node (start_deployment E) in
        let* ' (static_mappings, rest) := claim_and_start_deployment E rest static_mappings in
        ret (static_mappings, node :: rest)
      else
        let* ' (static_mappings, rest) := claim_and_start_deployment E rest static_mappings in
        ret (static_mappings, node :: rest)
  end.

(** [gen_power_info] of [start_nodes]. *)
Fixpoint gen_power_info_start (E : Env) (w : World) (ns : list Node)
  : result (list (Node * PowerInfo)) :=
  match ns with
  | [] => Ok []
  | node :: rest =>
      match get_effective_power_info E w node with
      | Raise e => Raise e
      | Ok power_info =>
          match gen_power_info_start E w rest with
          | Raise e => Raise e
          | Ok l => Ok (if can_be_started power_info then (node, power_info) :: l else l)
          end
      end
  end.

(** [gen_power_info] of [stop_nodes]: the stop mode is smuggled into
    the power parameters. *)
Fixpoint gen_power_info_stop (E : Env) (w : World) (stop_mode : string)
    (ns : list Node) : result (list (Node * PowerInfo)) :=
  match ns with
  | [] => Ok []
  | node :: rest =>
      match get_effective_power_info E w node with
      | Raise e => Raise e
      | Ok power_info =>
          match gen_power_info_stop E w stop_mode rest with
          | Raise e => Raise e
          | Ok l =>
              Ok (if can_be_stopped power_info
                  then (node,
                        mkPowerInfo (can_be_started power_info)
                          (can_be_stopped power_info) (can_be_queried power_info)
                          (pi_power_type power_info)
                          (insert "power_off_mode" (JStr stop_mode)
                             <$> pi_power_parameters power_info)) :: l
                  else l)
          end
      end
  end.

Definition power_request (np : Node * PowerInfo) : NodePowerRequest :=
  (system_id (fst np), hostname (fst np), nodegroup (fst np), snd np).

(** [NodeManager.start_nodes]. *)
Definition start_nodes (E : Env) (ids : list string) (by_user : option User)
    (user_data : option string) : M World (list Node) :=
  let* w := get in
  let nodes := get_nodes w by_user PERM_EDIT (Some ids) in
  let* _ := modify (log_effect (BulkSetUserData (system_id <$> nodes) user_data)) in
  let* ' (static_mappings, nodes) := claim_and_start_deployment E nodes ∅ in
  let* _ := modify (log_effect (UpdateHostMaps static_mappings)) in
  let update_host_maps_failures := update_host_maps E static_mappings in
  if decide (length update_host_maps_failures ≠ 0)
  then raise (MultipleFailures update_host_maps_failures)
  else
    let* _ := modify (log_effect (ChangeDNSZones (list_to_set (nodegroup <$> nodes)))) in
    let* w := get in
    let* power_infos := lift_result (gen_power_info_start E w nodes) in
    let nodes_start_info := power_request <$> power_infos in
    let powered_systems := (fun r => r.1.1.1) <$> nodes_start_info in
    let* _ := modify (log_effect (PowerOnNodes nodes_start_info)) in
    let deferreds := power_on_nodes E nodes_start_info in
    let* _ := lift_result (wait_for_power_commands deferreds) in
    ret (filter (fun node => system_id node ∈ powered_systems) nodes).

(** [NodeManager.stop_nodes]. *)
Definition stop_nodes (E : Env) (ids : list string) (by_user : option User)
    (stop_mode : string) : M World (list Node) :=
  let* w := get in
  let nodes := get_nodes w by_user PERM_EDIT (Some ids) in
  let* power_infos := lift_result (gen_power_info_stop E w stop_mode nodes) in
  let nodes_stop_info := power_request <$> power_infos in
  let powered_systems := (fun r => r.1.1.1) <$> nodes_stop_info in
  let* _ := modify (log_effect (PowerOffNodes nodes_stop_info)) in
  let deferreds := power_off_nodes E nodes_stop_info in
  let* _ := lift_result (wait_for_power_commands deferreds) in
  ret (filter (fun node => system_id node ∈ powered_systems) nodes).

(** ** Lifecycle operations *)

(** [Node.start_commissioning]. *)
Definition start_commissioning (E : Env) (user : option User) : M Self unit :=
  let* self := self_node in
  let commissioning_user_data := commissioning_user_data E self in
  let* _ := update_world (log_effect (ClearResults (system_id self))) in
  (* We hang on to old_status just in case the power action fails. *)
  let old_status := status self in
  let* _ := update_self (set_status COMMISSIONING) in
  let* _ := save E in
  try_except
    (let* _ := in_world (start_nodes E [system_id self] user
                           (Some commissioning_user_data)) in
     ret tt)
    (fun ex =>
       let* _ := update_self (set_status old_status) in
       let* _ := save E in
       (* Let the exception bubble up. *)
       raise ex).

(** [Node.accept_enlistment]: [Some self] when the node has made the
    transition from New, [None] when it was already accepted. *)
Definition accept_enlistment (E : Env) (user : option User) : M Self (option Node) :=
  let* self := self_node in
  if decide (status self ∈ [READY; COMMISSIONING]) then ret None
  else if decide (status self ≠ NEW) then
    raise (NodeStateViolation
             ("Cannot accept node enlistment: node " +:+ system_id self +:+
              " is in state " +:+ NODE_STATUS_CHOICES_DICT E (status self) +:+ "."))
  else
    let* _ := start_commissioning E user in
    let* self := self_node in
    ret (Some self).

(** [Node.abort_commissioning]. *)
Definition abort_commissioning (E : Env) (user : option User) : M Self unit :=
  let* self := self_node in
  if decide (status self ≠ COMMISSIONING) then
    raise (NodeStateViolation
             ("Cannot abort commissioning of a non-commissioning node: node " +:+
              system_id self +:+ " is in state " +:+
              NODE_STATUS_CHOICES_DICT E (status self) +:+ "."))
  else
    let* _ := in_world (stop_nodes E [system_id self] user "hard") in
    let* _ := update_self (set_status NEW) in
    save E.

(** [Node.start_disk_erasing]. *)
Definition start_disk_erasing (E : Env) (user : option User) : M Self unit :=
  let* self := self_node in
  let disk_erase_user_data := disk_erasing_user_data E self in
  let* _ := update_self (set_status DISK_ERASING) in
  let* _ := save E in
  try_except
    (let* _ := in_world (start_nodes E [system_id self] user
                           (Some disk_erase_user_data)) in
     ret tt)
    (fun ex =>
       (* We always mark the node as failed here. *)
       let* _ := update_self (set_status FAILED_DISK_ERASING) in
       let* _ := save E in
       raise ex).

(** [Node.abort_disk_erasing]. *)
Definition abort_disk_erasing (E : Env) (user : option User) : M Self unit :=
  let* self := self_node in
  if decide (status self ≠ DISK_ERASING) then
    raise (NodeStateViolation
             ("Cannot abort disk erasing of a non disk erasing node: node " +:+
              system_id self +:+ " is in state " +:+
              NODE_STATUS_CHOICES_DICT E (status self) +:+ "."))
  else
    let* _ := in_world (stop_nodes E [system_id self] user "hard") in
    let* _ := update_self (set_status FAILED_DISK_ERASING) in
    save E.

(** [Node.delete_host_maps]. *)
Definition delete_host_maps (E : Env) (for_ips : gset string) : M Self unit :=
  if decide (0 < size for_ips) then
    let* self := self_node in
    let* _ := update_world (log_effect (RemoveHostMaps (nodegroup self) for_ips)) in
    let remove_host_maps_failures := remove_host_maps E (nodegroup self) for_ips in
    if decide (length remove_host_maps_failures ≠ 0)
    then raise (MultipleFailures remove_host_maps_failures)
    else ret tt
  else ret tt.

(** Modelled from the spec: [StaticIPAddress.objects.delete_by_node] is
    not part of the sources at hand.  Section 4.3, [releaseForNode]: it
    deallocates all addresses owned by the node and collects the
    deallocated address set.  An address is owned by the node when its
    hardware address is one of the node's. *)
Definition delete_by_node : M Self (list string) :=
  fun s =>
    let macs := mac_address <$> macaddress_set (snd s) (fst s) in
    let table := staticipaddresses (snd s) in
    ((Ok (filter (fun r => r.2 ∈ macs) table).*1),
     (fst s, set_staticipaddresses (filter (fun r => r.2 ∉ macs) table) (snd s))).

(** Modelled from the spec: [StaticIPAddress.objects.deallocate_by_node],
    the same collaborator as used by [release]. *)
Definition deallocate_by_node : M Self (list string) := delete_by_node.

(** [Node.delete]. *)
Definition delete_node (E : Env) : M Self unit :=
  let* self := self_node in
  (* Allocated nodes can't be deleted. *)
  if decide (status self = ALLOCATED) then
    raise (NodeStateViolation
             ("Cannot delete node " +:+ system_id self +:+
              ": node is in state " +:+
              NODE_STATUS_CHOICES_DICT E (status self) +:+ "."))
  else
    let* static_ips := delete_by_node in
    let* w := self_world in
    let macs := mac_address <$> mac_addresses_on_managed_interfaces w self in
    let leases :=
      filter (fun l => l.1.1 = nodegroup self ∧ l.2 ∈ macs) (dhcpleases w) in
    let leased_ips := (fun l => l.1.2) <$> leases in
    let* _ := delete_host_maps E (list_to_set static_ips ∪ list_to_set leased_ips) in
    (* Delete the related mac addresses; the leases of these MACs go with
       them. *)
    let* w := self_world in
    let own := mac_address <$> macaddress_set w self in
    let* _ := update_world
                (fun w =>
                   set_dhcpleases (filter (fun l => l.2 ∉ own) (dhcpleases w))
                     (set_macaddresses
                        (filter (fun m => mac_node m ≠ system_id self) (macaddresses w))
                        w)) in
    update_world (fun w => set_nodes (delete (system_id self) (nodes w)) w).

(** [Node.set_netboot]. *)
Definition set_netboot (E : Env) (on : bool) : M Self unit :=
  let* _ := update_self (set_netboot_field on) in
  save E.

(** [Node.release]. *)
Definition release (E : Env) : M Self unit :=
  let* self := self_node in
  let* _ := in_world (stop_nodes E [system_id self] (owner self) "hard") in
  let* _ :=
    if decide (power_state self = POWER_OFF) then
      (* Node is already off. *)
      let* _ := update_self (set_status READY) in
      update_self (set_owner None)
    else
      let* w := self_world in
      let* power_info := lift_result (get_effective_power_info E w self) in
      if can_be_queried power_info then
        (* Controlled power type: update_power_state() will take care of
           making the node READY and unowned when the power is finally off. *)
        update_self (set_status RELEASING)
      else
        (* Uncontrolled power type: mark the node ready. *)
        let* _ := update_self (set_status READY) in
        update_self (set_owner None) in
  let* _ := update_self set_token_agent in
  let* _ := set_netboot E true in
  let* _ := update_self set_os_fields in
  let* _ := save E in
  let* deallocated_ips := deallocate_by_node in
  let* _ := delete_host_maps E (list_to_set deallocated_ips) in
  update_world (log_effect (ChangeDNSZones {[ nodegroup self ]})).

(** [Node.release_or_erase]. *)
Definition release_or_erase (E : Env) : M Self unit :=
  if enable_disk_erasing_on_release E then
    let* self := self_node in
    start_disk_erasing E (owner self)
  else release E.

(** [Node.abort_operation]. *)
Definition abort_operation (E : Env) (user : option User) : M Self unit :=
  let* self := self_node in
  if decide (status self = DISK_ERASING) then abort_disk_erasing E user
  else
    raise (NodeStateViolation
             ("Cannot abort in current state: node " +:+ system_id self +:+
              " is in state " +:+ NODE_STATUS_CHOICES_DICT E (status self) +:+ ".")).

(** [Node.acquire]. *)
Definition acquire (E : Env) (user : User) (token : option Token)
    (agent_name : string) : M Self unit :=
  let* self := self_node in
  if decide (owner self ≠ None) then raise AssertionError
  else if decide (token ≠ None ∧ token_user <$> token ≠ Some user)
  then raise AssertionError
  else
    let* _ := update_self (set_acquired user token agent_name) in
    save E.

(** [Node.mark_failed]. *)
Definition mark_failed (E : Env) (description : string) : M Self unit :=
  let* self := self_node in
  match get_failed_status (status self) with
  | Some new_status =>
      let* _ := update_self (set_status new_status) in
      let* _ := update_self (set_error_description description) in
      save E
  | None =>
      if is_failed_status (status self) then
        (* Silently ignore a request to fail an already failed node. *)
        ret tt
      else
        raise (NodeStateViolation
                 ("The status of the node is " +:+
                  pretty (NODE_STATUS_value E (status self)) +:+
                  "; this status cannot be transitioned to a corresponding failed status."))
  end.

(** List of statuses for which it makes sense to release a node. *)
Definition RELEASABLE_STATUSES : list NODE_STATUS :=
  [ALLOCATED; RESERVED; BROKEN; DEPLOYING; DEPLOYED; FAILED_DEPLOYMENT;
   FAILED_DISK_ERASING; FAILED_RELEASING].

(** [Node.mark_broken]. *)
Definition mark_broken (E : Env) (description : string) : M Self unit :=
  let* self := self_node in
  let* _ :=
    if decide (status self ∈ RELEASABLE_STATUSES) then release E else ret tt in
  (* release() normally sets the status to RELEASING and leaves the owner in
     place, override that here as we're broken. *)
  let* _ := update_self (set_status BROKEN) in
  let* _ := update_self (set_owner None) in
  let* _ := update_self (set_error_description description) in
  save E.

(** [Node.mark_fixed]. *)
Definition mark_fixed (E : Env) : M Self unit :=
  let* self := self_node in
  if decide (status self ≠ BROKEN) then
    raise (NodeStateViolation "Can't mark a non-broken node as 'Ready'.")
  else
    let* _ := update_self (set_status READY) in
    let* _ := update_self (set_error_description "") in
    save E.

(** [Node.update_power_state]. *)
Definition update_power_state (E : Env) (p : POWER_STATE) : M Self unit :=
  let* self := self_node in
  let* _ := update_self (set_power_state p) in
  let mark_ready :=
    bool_decide (status self = RELEASING) && bool_decide (p = POWER_OFF) in
  let* _ :=
    if mark_ready then
      (* Ensure the node is fully released after a successful power down. *)
      let* _ := update_self (set_status READY) in
      update_self (set_owner None)
    else ret tt in
  save E.

(** ** Nodes for acquisition *)

(** [NodeManager.get_available_nodes_for_acquisition]. *)
Definition get_available_nodes_for_acquisition (w : World)
    (for_user : option User) : list Node :=
  let available_nodes := get_nodes w for_user PERM_VIEW None in
  filter (fun n => status n = READY) available_nodes.

(** ** Monitor expiry and the choice of an operating system *)

(** The arguments of a monitor, as [start_transition_monitor] packs them
    into the [context] it hands to the cluster. *)
Record MonitorContext : Set := mkMonitorContext {
  node_status : NODE_STATUS;
  timeout : nat
}.

(** [Node.handle_monitor_expired].  [timedelta_str] stands for the text
    of [timedelta(seconds=..)]. *)
Definition handle_monitor_expired (E : Env) (timedelta_str : nat -> string)
    (context : MonitorContext) : M Self unit :=
  let* self := self_node in
  match get_failed_status (status self) with
  | Some _ =>
      let timeout_timedelta := timedelta_str (timeout context) in
      mark_failed E
        ("Node operation '" +:+ NODE_STATUS_CHOICES_DICT E (status self) +:+
         "' timed out after " +:+ timeout_timedelta +:+ ".")
  | None => ret tt
  end.

(** The settings and the registry the choice of an operating system
    falls back on: [Config.objects.get_config('default_osystem')],
    [Config.objects.get_config('default_distro_series')] and
    [LicenseKey.objects.get_license_key], [None] standing for
    [LicenseKey.DoesNotExist]. *)
Record OSConfig : Type := mkOSConfig {
  default_osystem : string;
  default_distro_series : string;
  get_license_key : string -> string -> option string
}.

(** [Node.get_osystem]; a blank field stands for [None] as well. *)
Definition get_osystem (C : OSConfig) (self : Node) : string :=
  let use_default_osystem := bool_decide (osystem self = "") in
  if use_default_osystem then default_osystem C else osystem self.

(** [Node.get_distro_series]. *)
Definition get_distro_series (C : OSConfig) (self : Node) : string :=
  let use_default_osystem := bool_decide (osystem self = "") in
  let use_default_distro_series := bool_decide (distro_series self = "") in
  if use_default_osystem && use_default_distro_series
  then default_distro_series C
  else distro_series self.

(** [Node.get_effective_license_key]. *)
Definition get_effective_license_key (C : OSConfig) (self : Node) : string :=
  let use_global_license_key := bool_decide (license_key self = "") in
  if use_global_license_key then
    let osystem := get_osystem C self in
    let distro_series := get_distro_series C self in
    match get_license_key C osystem distro_series with
    | Some key => key
    | None => ""
    end
  else license_key self.

(** ** Host names and architectures *)

(** [s.split(sep)] for a one-character separator: the pieces between the
    separators, of which there is always at least one. *)
Fixpoint str_split (sep : ascii) (s : string) : list string :=
  match s with
  | "" => [""]
  | String c rest =>
      if decide (c = sep) then "" :: str_split sep rest
      else match str_split sep rest with
           | piece :: pieces => String c piece :: pieces
           | [] => [String c ""]
           end
  end.

(** [c in s]. *)
Fixpoint str_contains (c : ascii) (s : string) : bool :=
  match s with
  | "" => false
  | String x rest => bool_decide (x = c) || str_contains c rest
  end.

(** [s.startswith(c)] and [s.endswith(c)]. *)
Definition str_startswith (c : ascii) (s : string) : bool :=
  match s with
  | "" => false
  | String x _ => bool_decide (x = c)
  end.

Fixpoint str_endswith (c : ascii) (s : string) : bool :=
  match s with
  | "" => false
  | String x rest =>
      match rest with
      | "" => bool_decide (x = c)
      | _ => str_endswith c rest
      end
  end.

(** The character class [[a-zA-Z0-9_-]]. *)
Definition label_char (c : ascii) : bool :=
  let n := nat_of_ascii c in
  Nat.leb 97 n && Nat.leb n 122 || Nat.leb 65 n && Nat.leb n 90 ||
  Nat.leb 48 n && Nat.leb n 57 || Nat.eqb n 95 || Nat.eqb n 45.

Definition newline : ascii := "010"%char.

(** [re.compile('[a-zA-Z0-9_-]*$').match(label)]: a run of label
    characters from the start of the label, followed by the end of the
    string; Python's [$] also matches just before a newline that ends the
    string. *)
Fixpoint label_chars_match (label : string) : bool :=
  match label with
  | "" => true
  | String c rest =>
      if label_char c then label_chars_match rest
      else bool_decide (c = newline) && bool_decide (rest = "")
  end.

(** The [ValidationError]s of [validate_hostname], one constructor per
    message; a message that quotes a label keeps the label. *)
Inductive HostnameError : Set :=
| HostnameTooLong
| HostLabelUnderscore (label : string)
| EmptyName
| NameTooLong (label : string)
| NameHyphen (label : string)
| NameDisallowed (label : string).

(** The body of the loop of [validate_hostname]: [None] when the label
    passes. *)
Definition check_label (label : string) : option HostnameError :=
  if decide (String.length label = 0) then Some EmptyName
  else if decide (63 < String.length label) then Some (NameTooLong label)
  else if str_startswith "-" label || str_endswith "-" label then Some (NameHyphen label)
  else if negb (label_chars_match label) then Some (NameDisallowed label)
  else None.

Fixpoint check_labels (labels : list string) : option HostnameError :=
  match labels with
  | [] => None
  | label :: rest =>
      match check_label label with
      | Some e => Some e
      | None => check_labels rest
      end
  end.

(** [validate_hostname]: the error it raises, [None] when it returns.  A
    string stands for the sequence of its characters. *)
Definition validate_hostname (hostname : string) : option HostnameError :=
  if decide (255 < String.length hostname) then Some HostnameTooLong
  else
    let labels := str_split "." hostname in
    if str_contains "_" (default "" (head labels))
    then Some (HostLabelUnderscore (default "" (head labels)))
    else check_labels labels.

(** [ValueError]: the unpacking of [split_arch] got too few or too many
    values. *)
Inductive ValueError : Set :=
| NeedMoreValues
| TooManyValues.

(** [Node.split_arch], on the [architecture] of the node. *)
Definition split_arch (architecture : string) : ValueError + string * string :=
  match str_split "/" architecture with
  | [arch; subarch] => inr (arch, subarch)
  | [] | [_] => inl NeedMoreValues
  | _ => inl TooManyValues
  end.

(** ** Power parameter schemas ([provisioningserver/power_schema.py]) *)

(** The Python values a JSON document is made of; a dictionary is the
    list of its items, each key once. *)
#[warnings="-register-all"]
Inductive PyValue : Type :=
| PyNone
| PyBool (b : bool)
| PyInt (z : Z)
| PyStr (s : string)
| PyList (items : list PyValue)
| PyDict (entries : list (string * PyValue)).

(** [d.get(key)]. *)
Fixpoint dict_get (key : string) (entries : list (string * PyValue))
  : option PyValue :=
  match entries with
  | [] => None
  | (k, v) :: rest => if decide (k = key) then Some v else dict_get key rest
  end.

(** [a == b], with a boolean equal to booleans only, as [uniqueItems]
    compares. *)
Fixpoint py_eqb (a b : PyValue) {struct a} : bool :=
  match a, b with
  | PyNone, PyNone => true
  | PyBool x, PyBool y => bool_decide (x = y)
  | PyInt x, PyInt y => bool_decide (x = y)
  | PyStr x, PyStr y => bool_decide (x = y)
  | PyList xs, PyList ys =>
      (fix go (xs ys : list PyValue) {struct xs} : bool :=
         match xs, ys with
         | [], [] => true
         | x :: xs, y :: ys => py_eqb x y && go xs ys
         | _, _ => false
         end) xs ys
  | PyDict xs, PyDict ys =>
      Nat.eqb (length xs) (length ys) &&
      (fix go (xs : list (string * PyValue)) {struct xs} : bool :=
         match xs with
         | [] => true
         | (k, x) :: xs =>
             match dict_get k ys with
             | Some y => py_eqb x y
             | None => false
             end && go xs
         end) xs
  | _, _ => false
  end.

(** No two items are equal. *)
Fixpoint unique_items (items : list PyValue) : bool :=
  match items with
  | [] => true
  | x :: rest => negb (existsb (py_eqb x) rest) && unique_items rest
  end.

(** The keywords the schemas of [power_schema.py] use ([title] is an
    annotation and is left out). *)
#[warnings="-register-all"]
Inductive Schema : Type :=
| mkSchema (type : string) (items : option Schema)
    (minItems maxItems : option nat) (uniqueItems : bool)
    (properties : list (string * Schema)) (required : list string).

(** The [type] keyword. *)
Definition has_type (type : string) (v : PyValue) : bool :=
  match v with
  | PyNone => bool_decide (type = "null")
  | PyBool _ => bool_decide (type = "boolean")
  | PyInt _ => bool_decide (type = "integer") || bool_decide (type = "number")
  | PyStr _ => bool_decide (type = "string")
  | PyList _ => bool_decide (type = "array")
  | PyDict _ => bool_decide (type = "object")
  end.

(** Whether [jsonschema.validate(instance, schema)] returns, for these
    keywords: [items], [minItems], [maxItems] and [uniqueItems] constrain
    arrays only, [properties] and [required] objects only, and
    [properties] only the properties the instance has. *)
Fixpoint validate (schema : Schema) (instance : PyValue) {struct schema} : bool :=
  match schema with
  | mkSchema type items minItems maxItems uniqueItems properties required =>
      has_type type instance &&
      match instance with
      | PyList l =>
          match items with
          | Some s => forallb (validate s) l
          | None => true
          end &&
          match minItems with Some n => Nat.leb n (length l) | None => true end &&
          match maxItems with Some n => Nat.leb (length l) n | None => true end &&
          (if uniqueItems then unique_items l else true)
      | PyDict d =>
          (fix go (properties : list (string * Schema)) : bool :=
             match properties with
             | [] => true
             | (name, s) :: rest =>
                 match dict_get name d with
                 | Some v => validate s v
                 | None => true
                 end && go rest
             end) properties &&
          forallb (fun name => bool_decide (is_Some (dict_get name d))) required
      | _ => true
      end
  end.

Definition string_schema : Schema := mkSchema "string" None None None false [] [].
Definition boolean_schema : Schema := mkSchema "boolean" None None None false [] [].

(** Represent the Django choices format as JSON; an array of 2-item
    arrays. *)
Definition CHOICE_FIELD_SCHEMA : Schema :=
  mkSchema "array"
    (Some (mkSchema "array" (Some string_schema) (Some 2) (Some 2) true [] []))
    None None false [] [].

Definition POWER_TYPE_PARAMETER_FIELD_SCHEMA : Schema :=
  mkSchema "object" None None None false
    [("name", string_schema); ("field_type", string_schema);
     ("label", string_schema); ("required", boolean_schema);
     ("choices", CHOICE_FIELD_SCHEMA); ("default", string_schema)]
    ["field_type"; "label"; "required"].

(** The [ValidationError] of [jsonschema.validate]. *)
Inductive SchemaError : Set := SchemaValidationError.

(** [make_json_field], with every argument given: [None] for an
    argument left at its default of [None], [PyBool false] for
    [required]. *)
Definition make_json_field (name label field_type choices default required : PyValue)
  : SchemaError + PyValue :=
  let field_type :=
    match field_type with
    | PyStr s =>
        if decide (s ∈ ["string"; "mac_address"; "choice"]) then field_type
        else PyStr "string"
    | _ => PyStr "string"
    end in
  let choices := match choices with PyNone => PyList [] | _ => choices end in
  if validate CHOICE_FIELD_SCHEMA choices then
    let default := match default with PyNone => PyStr "" | _ => default end in
    inr (PyDict [("name", name); ("label", label); ("required", required);
                 ("field_type", field_type); ("choices", choices);
                 ("default", default)])
  else inl SchemaValidationError.

(** ** A concrete environment

    A transition table, a registry of queryable power types and display
    names of the shape the absent modules give them, and collaborators
    that always succeed.  They are used to run the operations on concrete
    nodes. *)

Definition sample_transitions (s : option NODE_STATUS) : option (list NODE_STATUS) :=
  match s with
  | None => Some [NEW; MISSING; RETIRED]
  | Some NEW => Some [COMMISSIONING; MISSING; READY; RETIRED; BROKEN]
  | Some COMMISSIONING =>
      Some [FAILED_COMMISSIONING; READY; RETIRED; MISSING; NEW; BROKEN]
  | Some FAILED_COMMISSIONING => Some [COMMISSIONING; MISSING; RETIRED; BROKEN]
  | Some READY => Some [COMMISSIONING; ALLOCATED; RESERVED; RETIRED; MISSING; BROKEN]
  | Some RESERVED => Some [READY; ALLOCATED; RETIRED; MISSING; BROKEN]
  | Some ALLOCATED =>
      Some [READY; RETIRED; MISSING; BROKEN; DEPLOYING; RELEASING; DISK_ERASING]
  | Some DEPLOYING =>
      Some [ALLOCATED; MISSING; FAILED_DEPLOYMENT; DEPLOYED; READY; RELEASING]
  | Some DEPLOYED => Some [ALLOCATED; MISSING; BROKEN; READY; RELEASING; DISK_ERASING]
  | Some FAILED_DEPLOYMENT => Some [ALLOCATED; MISSING; BROKEN; READY; RELEASING]
  | Some RELEASING => Some [READY; BROKEN; MISSING; FAILED_RELEASING]
  | Some DISK_ERASING => Some [FAILED_DISK_ERASING; READY; RELEASING; BROKEN]
  | Some FAILED_DISK_ERASING => Some [DISK_ERASING; READY; RELEASING; BROKEN]
  | Some FAILED_RELEASING => Some [RELEASING; READY; BROKEN]
  | Some BROKEN => Some [COMMISSIONING; READY; RELEASING]
  | Some MISSING => Some [NEW; READY; ALLOCATED; RETIRED]
  | Some RETIRED => Some [NEW; READY; MISSING; BROKEN]
  end.

Definition sample_display (s : NODE_STATUS) : string :=
  match s with
  | NEW => "New" | COMMISSIONING => "Commissioning"
  | FAILED_COMMISSIONING => "Failed commissioning" | READY => "Ready"
  | RESERVED => "Reserved" | ALLOCATED => "Allocated"
  | DEPLOYING => "Deploying" | DEPLOYED => "Deployed"
  | FAILED_DEPLOYMENT => "Failed deployment" | RELEASING => "Releasing"
  | DISK_ERASING => "Disk erasing" | FAILED_DISK_ERASING => "Failed disk erasing"
  | FAILED_RELEASING => "Releasing failed" | BROKEN => "Broken"
  | MISSING => "Missing" | RETIRED => "Retired"
  end.

Definition sample_value (s : NODE_STATUS) : Z :=
  match s with
  | NEW => 0 | COMMISSIONING => 1 | FAILED_COMMISSIONING => 2 | MISSING => 3
  | READY => 4 | RESERVED => 5 | ALLOCATED => 10 | DEPLOYING => 9
  | DEPLOYED => 6 | RETIRED => 7 | BROKEN => 8 | FAILED_DEPLOYMENT => 11
  | RELEASING => 12 | FAILED_RELEASING => 13 | DISK_ERASING => 14
  | FAILED_DISK_ERASING => 15
  end%Z.

Definition sample_query_power_types : list string :=
  ["amt"; "ipmi"; "mscm"; "sm15k"; "ucsm"; "virsh"].

(** An allocator with one free address per hardware address: it hands out
    ["10.0.0." ++ mac] unless the table already holds it. *)
Definition sample_claim_static_ips (mac : MACAddress)
    (table : list (string * string))
  : list (string * string) * (exn + list string) :=
  let ip := "10.0.0." +:+ mac_address mac in
  if decide (ip ∈ table.*1)
  then (table, inl StaticIPAddressExhaustion)
  else (table ++ [(ip, mac_address mac)], inr [ip]).

Definition sample_env : Env :=
  mkEnv sample_transitions sample_display sample_value sample_query_power_types
    sample_claim_static_ips
    (fun _ => []) (fun _ _ => [])
    (fun reqs => (fun r => Callback 1 r.1.1.1) <$> reqs)
    (fun reqs => (fun r => Callback 1 r.1.1.1) <$> reqs)
    (fun _ => None)
    (fun _ => "commissioning-user-data") (fun _ => "disk-erasing-user-data")
    false.

(** The same environment with a gateway whose power-on dispatches all
    err back. *)
Definition failing_gateway_env : Env :=
  mkEnv sample_transitions sample_display sample_value sample_query_power_types
    sample_claim_static_ips
    (fun _ => []) (fun _ _ => ["host map removal failed"])
    (fun reqs => (fun r => Errback 2 ("power on failed: " +:+ r.1.1.1)) <$> reqs)
    (fun reqs => (fun r => Callback 1 r.1.1.1) <$> reqs)
    (fun _ => None)
    (fun _ => "commissioning-user-data") (fun _ => "disk-erasing-user-data")
    false.

Definition admin : User := mkUser "admin" true.

Definition sample_mac (id : string) (addr : string) : MACAddress :=
  mkMAC addr id 0 (Some (mkClusterInterface true)).

Definition sample_node (id : string) (st : NODE_STATUS) : Node :=
  mkNode id (id +:+ ".maas") st None "" "" "" "" "" "ipmi" pp_blank
    POWER_UNKNOWN None true "cluster-1" None.

Definition sample_world (ns : list Node) (macs : list MACAddress) : World :=
  mkWorld (list_to_map ((fun n => (system_id n, n)) <$> ns)) macs [] [] [].

(** Concrete nodes and worlds. *)

Definition node_a : Node := sample_node "node-a" ALLOCATED.
Definition node_b : Node := sample_node "node-b" ALLOCATED.
Definition node_c : Node := sample_node "node-c" NEW.
Definition node_r : Node := sample_node "node-r" READY.

Definition node_d : Node := sample_node "node-d" DEPLOYING.
Definition world_d : World := sample_world [node_d] [].

Definition mac_a : MACAddress := sample_mac "node-a" "aa".
Definition mac_b : MACAddress := sample_mac "node-b" "bb".
Definition mac_r : MACAddress := sample_mac "node-r" "rr".

Definition world_abc : World :=
  sample_world [node_a; node_b; node_c; node_r] [mac_a; mac_b; mac_r].

(** [world_abc] with the one address of ["aa"] already taken, and with an
    address held by [node_r]. *)
Definition world_exhausted : World :=
  set_staticipaddresses [("10.0.0.aa", "zz"); ("10.0.0.rr", "rr")] world_abc.

(** An environment whose power-off dispatches never settle. *)
Definition silent_gateway_env : Env :=
  mkEnv sample_transitions sample_display sample_value sample_query_power_types
    sample_claim_static_ips
    (fun _ => []) (fun _ _ => [])
    (fun reqs => (fun r => Callback 1 r.1.1.1) <$> reqs)
    (fun reqs => (fun _ => NeverFires) <$> reqs)
    (fun _ => None)
    (fun _ => "commissioning-user-data") (fun _ => "disk-erasing-user-data")
    false.

(** A node that is powered by wake-on-LAN only, and a world that holds it
    next to an IPMI node. *)
Definition node_w : Node :=
  mkNode "node-w" "node-w.maas" DEPLOYED None "" "" "" "" "" "ether_wake" pp_blank
    POWER_UNKNOWN None true "cluster-1" None.

Definition world_w : World := sample_world [node_w; node_d] [].

(** An ordinary user, a deployed node of theirs that is powered on, with
    one static address, and a commissioning node nobody owns. *)
Definition alice : User := mkUser "alice" false.

Definition node_o : Node :=
  mkNode "node-o" "node-o.maas" DEPLOYED (Some alice) "agent" "" "ubuntu" "" ""
    "ipmi" pp_blank POWER_ON (Some (mkToken "key" alice)) false "cluster-1" None.

Definition node_m : Node := sample_node "node-m" COMMISSIONING.

Definition world_o : World :=
  set_staticipaddresses [("10.0.0.oo", "oo")]
    (sample_world [node_o; node_m; node_r] [sample_mac "node-o" "oo"]).

(** * Properties *)

(** ** Vocabulary of the statements *)

(** The pairs the adjacency table lets through: no move, or a move to an
    allowed successor. *)
Definition legal_transition (E : Env) (current : option NODE_STATUS)
    (requested : NODE_STATUS) : Prop :=
  Some requested = current ∨ requested ∈ default [] (NODE_TRANSITIONS E current).

(** The error a refused pair is reported with. *)
Definition invalid_transition (E : Env) (current : option NODE_STATUS)
    (requested : NODE_STATUS) : exn :=
  NodeStateViolation
    ("Invalid transition: " +:+ status_display E current +:+ " -> " +:+
     NODE_STATUS_CHOICES_DICT E requested +:+ ".").

(** A stored status [t] is reached from a stored status [s] by validated
    saves, or by the deletion of the row. *)
Inductive reachable (E : Env) : option NODE_STATUS -> option NODE_STATUS -> Prop :=
| reachable_refl s : reachable E s s
| reachable_save s t u :
    reachable E s t -> validate_transition E t u = Ok tt -> reachable E s (Some u)
| reachable_delete s t : reachable E s t -> reachable E s None.

(** Every row of [w'] has a status reached from the one it has in [w]. *)
Definition follows_table (E : Env) (w w' : World) : Prop :=
  forall id, reachable E (status <$> nodes w !! id) (status <$> nodes w' !! id).

(** A computation whose runs all keep to the table. *)
Definition keeps_table {S A} (E : Env) (world_of : S -> World) (c : M S A) : Prop :=
  forall s, follows_table E (world_of s) (world_of (snd (c s))).

(** The operations [Node] offers to callers. *)
Inductive operation : Type :=
| op_accept_enlistment (user : option User)
| op_start_commissioning (user : option User)
| op_abort_commissioning (user : option User)
| op_start_disk_erasing (user : option User)
| op_abort_disk_erasing (user : option User)
| op_abort_operation (user : option User)
| op_acquire (user : User) (token : option Token) (agent_name : string)
| op_release
| op_release_or_erase
| op_mark_failed (description : string)
| op_mark_broken (description : string)
| op_mark_fixed
| op_update_power_state (p : POWER_STATE)
| op_delete.

Definition run_operation (E : Env) (op : operation) : M Self unit :=
  match op with
  | op_accept_enlistment user => let* _ := accept_enlistment E user in ret tt
  | op_start_commissioning user => start_commissioning E user
  | op_abort_commissioning user => abort_commissioning E user
  | op_start_disk_erasing user => start_disk_erasing E user
  | op_abort_disk_erasing user => abort_disk_erasing E user
  | op_abort_operation user => abort_operation E user
  | op_acquire user token agent => acquire E user token agent
  | op_release => release E
  | op_release_or_erase => release_or_erase E
  | op_mark_failed d => mark_failed E d
  | op_mark_broken d => mark_broken E d
  | op_mark_fixed => mark_fixed E
  | op_update_power_state p => update_power_state E p
  | op_delete => delete_node E
  end.

(** A dispatch has settled by the deadline. *)
Definition settled_within (timeout : nat) (d : Deferred) : Prop :=
  match d with
  | Callback t _ | Errback t _ => (t <= timeout)%nat
  | NeverFires => False
  end.

#[global] Instance settled_within_dec timeout d : Decision (settled_within timeout d).
Proof. destruct d; simpl; apply _. Defined.

(** The failure a dispatch ended with, if it ended with one. *)
Definition failure_of (d : Deferred) : option Failure :=
  match d with
  | Errback _ f => Some f
  | _ => None
  end.

(** The failure a dispatch counts with when the wait ends: its own when
    it erred back by the deadline, none when it called back by then, and
    the time-out when it has not settled by then. *)
Definition failure_within (timeout : nat) (d : Deferred) : option Failure :=
  if decide (settled_within timeout d) then failure_of d else Some timed_out.

(** The stored power parameters as a dictionary. *)
Definition stored_power_parameters (self : Node) : gmap string JSON :=
  match power_parameters self with
  | pp_dict d => d
  | pp_blank => ∅
  end.

(** The hardware address the power driver gets: the stored
    [mac_address] parameter when there is one, else the primary MAC. *)
Definition configured_mac (w : World) (self : Node) : option JSON :=
  match stored_power_parameters self !! "mac_address" with
  | Some v => Some v
  | None => (fun m => JStr (mac_address m)) <$> get_primary_mac w self
  end.

(** Non-empty and non-null. *)
Definition usable_mac (mac : option JSON) : Prop :=
  exists v, mac = Some v /\ v <> JNull /\ v <> JStr "".

(** The node table is keyed by [system_id]. *)
Definition world_ok (w : World) : Prop :=
  forall k n, nodes w !! k = Some n -> system_id n = k.

(** Whether [get_nodes] lets [user] edit [n]. *)
Definition may_edit (user : option User) (n : Node) : Prop :=
  match user with
  | None => False
  | Some u => is_superuser u = true \/ owner n = Some u
  end.

#[global] Instance may_edit_dec user n : Decision (may_edit user n).
Proof. destruct user; simpl; apply _. Defined.

Definition is_power_dispatch (e : Effect) : bool :=
  match e with
  | PowerOnNodes _ | PowerOffNodes _ => true
  | _ => false
  end.

(** The power dispatches issued so far. *)
Definition power_dispatches (w : World) : list Effect :=
  filter (fun e => is_power_dispatch e = true) (effects w).

(** The addresses whose host maps [delete] withdraws: the node's static
    addresses and the leases of its MACs on managed interfaces. *)
Definition host_map_ips (w : World) (self : Node) : gset string :=
  list_to_set
    (filter (fun r => r.2 ∈ mac_address <$> macaddress_set w self)
       (staticipaddresses w)).*1 ∪
  list_to_set
    ((fun l => l.1.2) <$>
     filter (fun l => l.1.1 = nodegroup self /\
                      l.2 ∈ mac_address <$> mac_addresses_on_managed_interfaces w self)
       (dhcpleases w)).

(** [sep.join(pieces)]. *)
Fixpoint str_join (sep : ascii) (pieces : list string) : string :=
  match pieces with
  | [] => ""
  | [piece] => piece
  | piece :: rest => piece +:+ String sep (str_join sep rest)
  end.

(** Every character of [s] satisfies [P]. *)
Fixpoint all_chars (P : ascii -> bool) (s : string) : bool :=
  match s with
  | "" => true
  | String c rest => P c && all_chars P rest
  end.

(** A label [validate_hostname] lets through: one to 63 characters, no
    hyphen at either end, made of label characters, possibly followed by
    one newline. *)
Definition good_label (label : string) : Prop :=
  1 <= String.length label <= 63 /\
  str_startswith "-" label = false /\ str_endswith "-" label = false /\
  (all_chars label_char label = true \/
   exists l, label = l +:+ String newline "" /\ all_chars label_char l = true).

(** The keys [get_effective_power_parameters] gives a default. *)
Definition defaulted_power_parameters : list string :=
  ["system_id"; "fence_cdu"; "ipmipower"; "ipmitool"; "ipmi_chassis_config";
   "ipmi_config"; "power_address"; "username"; "power_id"; "power_driver";
   "power_pass"; "power_off_mode"].

#[global] Instance usable_mac_dec mac : Decision (usable_mac mac).
Proof.
  unfold usable_mac. destruct mac as [v|].
  - destruct (decide (v = JNull)) as [->|Hn].
    { right. by intros (? & [= <-] & ? & ?). }
    destruct (decide (v = JStr "")) as [->|Hs].
    { right. by intros (? & [= <-] & ? & ?). }
    left. by exists v.
  - right. by intros (? & ? & _).
Defined.

(** The node as [release] leaves it: ready and unowned when the power is
    known to be off or cannot be queried, releasing otherwise; without
    token, agent name and operating system choice, and booting from the
    network. *)
Definition released (queryable : bool) (self : Node) : Node :=
  let node :=
    if decide (power_state self = POWER_OFF) then set_owner None (set_status READY self)
    else if queryable then set_status RELEASING self
    else set_owner None (set_status READY self) in
  set_os_fields (set_netboot_field true (set_token_agent node)).

(** [nodes_stop_info] of [stop_nodes]: the requests it hands to
    [power_off_nodes]. *)
Definition nodes_stop_info (E : Env) (w : World) (ids : list string)
    (by_user : option User) (stop_mode : string) : list NodePowerRequest :=
  match gen_power_info_stop E w stop_mode (get_nodes w by_user PERM_EDIT (Some ids)) with
  | Ok power_infos => power_request <$> power_infos
  | Raise _ => []
  end.

(** The static addresses of the node's hardware addresses. *)
Definition own_static_ips (w : World) (self : Node) : gset string :=
  list_to_set
    (filter (fun r => r.2 ∈ mac_address <$> macaddress_set w self)
       (staticipaddresses w)).*1.

(** The Django choices as a Python value: a list of two-item lists. *)
Definition choices_value (choices : list (string * string)) : PyValue :=
  PyList ((fun c => PyList [PyStr c.1; PyStr c.2]) <$> choices).

(** ** The node state machine *)

Section StateMachine.
Context (E : Env).

Lemma validate_transition_legal current requested :
  legal_transition E current requested →
  validate_transition E current requested = Ok tt.
Proof.
  unfold legal_transition, validate_transition.
  intros [Heq | Hin]; repeat case_decide; done.
Qed.

Lemma validate_transition_illegal current requested :
  ¬ legal_transition E current requested →
  validate_transition E current requested = Raise (invalid_transition E current requested).
Proof.
  unfold legal_transition, validate_transition, invalid_transition.
  intros Hno. repeat case_decide; try done; exfalso; apply Hno; auto.
Qed.

Lemma save_spec self w :
  save E (self, w) =
    match validate_transition E (get_db_state w self) (status self) with
    | Ok _ => (Ok tt, (self, set_nodes (<[system_id self := self]> (nodes w)) w))
    | Raise e => (Raise e, (self, w))
    end.
Proof.
  unfold save, clean, clean_status, bind. simpl.
  destruct (validate_transition _ _ _) as [[]|]; reflexivity.
Qed.

(** *** No operation writes a status the table does not allow *)

Lemma reachable_trans s t u : reachable E s t → reachable E t u → reachable E s u.
Proof.
  intros Hst Htu. induction Htu as [t|t v u _ IH Hv|t v _ IH].
  - exact Hst.
  - eapply reachable_save; [exact (IH Hst) | exact Hv].
  - eapply reachable_delete. exact (IH Hst).
Qed.

Lemma follows_table_refl w : follows_table E w w.
Proof. intros id. constructor. Qed.

Lemma follows_table_trans w1 w2 w3 :
  follows_table E w1 w2 → follows_table E w2 w3 → follows_table E w1 w3.
Proof. intros H12 H23 id. eapply reachable_trans; eauto. Qed.

Lemma follows_table_same_nodes w w' : nodes w' = nodes w → follows_table E w w'.
Proof. intros Heq id. rewrite Heq. constructor. Qed.

Section Combinators.
Context {S : Type} (world_of : S → World).

Lemma keeps_ret {A} (a : A) : keeps_table E world_of (ret a).
Proof. intros s. apply follows_table_refl. Qed.

Lemma keeps_raise {A} e : keeps_table E world_of (@raise S A e).
Proof. intros s. apply follows_table_refl. Qed.

Lemma keeps_lift_result {A} (r : result A) : keeps_table E world_of (lift_result r).
Proof. intros s. apply follows_table_refl. Qed.

Lemma keeps_get : keeps_table E world_of get.
Proof. intros s. apply follows_table_refl. Qed.

Lemma keeps_bind {A B} (c : M S A) (k : A → M S B) :
  keeps_table E world_of c → (∀ a, keeps_table E world_of (k a)) →
  keeps_table E world_of (bind c k).
Proof.
  intros Hc Hk s. unfold bind. specialize (Hc s).
  destruct (c s) as [[a|e] s1]; simpl in *; [|done].
  eapply follows_table_trans; [exact Hc | apply Hk].
Qed.

Lemma keeps_try_except {A} (c : M S A) (h : exn → M S A) :
  keeps_table E world_of c → (∀ e, keeps_table E world_of (h e)) →
  keeps_table E world_of (try_except c h).
Proof.
  intros Hc Hh s. unfold try_except. specialize (Hc s).
  destruct (c s) as [[a|e] s1]; simpl in *; [done|].
  eapply follows_table_trans; [exact Hc | apply Hh].
Qed.
End Combinators.

Lemma keeps_modify (f : World → World) :
  (∀ w, nodes (f w) = nodes w) → keeps_table E id (modify f).
Proof. intros Hf w. apply follows_table_same_nodes, Hf. Qed.

Lemma keeps_self_node : keeps_table E snd self_node.
Proof. intros s. apply follows_table_refl. Qed.

Lemma keeps_self_world : keeps_table E snd self_world.
Proof. intros s. apply follows_table_refl. Qed.

Lemma keeps_update_self f : keeps_table E snd (update_self f).
Proof. intros s. apply follows_table_refl. Qed.

Lemma keeps_update_world (f : World → World) :
  (∀ w, nodes (f w) = nodes w) → keeps_table E snd (update_world f).
Proof. intros Hf s. apply follows_table_same_nodes, Hf. Qed.

Lemma keeps_in_world {A} (c : M World A) :
  keeps_table E id c → keeps_table E snd (in_world c).
Proof.
  intros Hc [n w]. unfold in_world. specialize (Hc w). simpl in *.
  destruct (c w); done.
Qed.

Lemma keeps_on_object {A} n (c : M Self A) :
  keeps_table E snd c → keeps_table E id (on_object n c).
Proof.
  intros Hc w. unfold on_object. specialize (Hc (n, w)). simpl in *.
  destruct (c (n, w)) as [[a|e] [n' w']]; done.
Qed.

Lemma keeps_atomic {A} (c : M Self A) :
  keeps_table E snd c → keeps_table E snd (atomic c).
Proof.
  intros H s. unfold atomic. specialize (H s).
  destruct (c s) as [[a|e] [n' w']] eqn:Hc; simpl in *; [done|].
  by apply follows_table_same_nodes.
Qed.

Lemma keeps_save : keeps_table E snd (save E).
Proof.
  intros [self w]. unfold save, clean, clean_status, bind. simpl.
  destruct (validate_transition _ _ _) as [[]|] eqn:Hv; simpl;
    [|apply follows_table_refl].
  intros id. simpl. destruct (decide (id = system_id self)) as [->|Hne].
  - rewrite lookup_insert_eq. simpl.
    eapply reachable_save; [apply reachable_refl | exact Hv].
  - rewrite lookup_insert_ne by done. apply reachable_refl.
Qed.

Ltac keeps_step :=
  first
    [ assumption
    | match goal with H : context [keeps_table] |- _ => solve [simple apply H] end
    | apply keeps_ret | apply keeps_raise | apply keeps_lift_result
    | apply keeps_get | apply keeps_self_node | apply keeps_self_world
    | apply keeps_update_self | apply keeps_save
    | (apply keeps_update_world; intros; reflexivity)
    | (apply keeps_modify; intros; reflexivity)
    | (apply keeps_bind; [|intros])
    | (apply keeps_try_except; [|intros])
    | apply keeps_in_world | apply keeps_on_object | apply keeps_atomic
    | case_decide | case_match ].
Ltac keeps := repeat keeps_step.

Lemma keeps_claim_static_ip_addresses :
  keeps_table E snd (claim_static_ip_addresses E).
Proof.
  intros [self w]. unfold claim_static_ip_addresses. simpl.
  destruct (get_pxe_mac w self) as [mac|]; [|apply follows_table_refl].
  unfold atomic. simpl.
  destruct (claim_static_ips E mac (staticipaddresses w)) as [table [e|ips]];
    [destruct e|]; by apply follows_table_same_nodes.
Qed.

Lemma keeps_start_transition_monitor t :
  keeps_table E snd (start_transition_monitor E t).
Proof.
  intros [self w]. unfold start_transition_monitor. simpl.
  destruct (getClientFor E (nodegroup self)); by apply follows_table_same_nodes.
Qed.

Lemma keeps_start_deployment : keeps_table E snd (start_deployment E).
Proof.
  unfold start_deployment. pose proof keeps_start_transition_monitor. keeps.
Qed.

Lemma keeps_claim_and_start_deployment ns sm :
  keeps_table E id (claim_and_start_deployment E ns sm).
Proof.
  revert sm. induction ns as [|node rest IH]; intros sm; simpl.
  - keeps.
  - pose proof keeps_claim_static_ip_addresses.
    pose proof keeps_start_deployment.
    keeps.
Qed.

Lemma keeps_start_nodes ids user ud : keeps_table E id (start_nodes E ids user ud).
Proof.
  unfold start_nodes. keeps. apply keeps_claim_and_start_deployment.
Qed.

Lemma keeps_stop_nodes ids user mode : keeps_table E id (stop_nodes E ids user mode).
Proof. unfold stop_nodes. keeps. Qed.

Lemma keeps_start_commissioning user : keeps_table E snd (start_commissioning E user).
Proof. unfold start_commissioning. pose proof keeps_start_nodes. keeps. Qed.

Lemma keeps_accept_enlistment user : keeps_table E snd (accept_enlistment E user).
Proof.
  unfold accept_enlistment. pose proof (keeps_start_commissioning user). keeps.
Qed.

Lemma keeps_abort_commissioning user : keeps_table E snd (abort_commissioning E user).
Proof. unfold abort_commissioning. pose proof keeps_stop_nodes. keeps. Qed.

Lemma keeps_start_disk_erasing user : keeps_table E snd (start_disk_erasing E user).
Proof. unfold start_disk_erasing. pose proof keeps_start_nodes. keeps. Qed.

Lemma keeps_abort_disk_erasing user : keeps_table E snd (abort_disk_erasing E user).
Proof. unfold abort_disk_erasing. pose proof keeps_stop_nodes. keeps. Qed.

Lemma keeps_abort_operation user : keeps_table E snd (abort_operation E user).
Proof.
  unfold abort_operation. pose proof (keeps_abort_disk_erasing user). keeps.
Qed.

Lemma keeps_delete_host_maps ips : keeps_table E snd (delete_host_maps E ips).
Proof. unfold delete_host_maps. keeps. Qed.

Lemma keeps_delete_by_node : keeps_table E snd delete_by_node.
Proof. intros [self w]. by apply follows_table_same_nodes. Qed.

Lemma keeps_delete_node : keeps_table E snd (delete_node E).
Proof.
  unfold delete_node.
  pose proof keeps_delete_by_node. pose proof keeps_delete_host_maps.
  keeps.
  intros [self w] id. simpl.
  destruct (decide (id = system_id a)) as [->|Hne].
  - rewrite lookup_delete_eq. eapply reachable_delete, reachable_refl.
  - rewrite lookup_delete_ne by done. apply reachable_refl.
Qed.

Lemma keeps_set_netboot b : keeps_table E snd (set_netboot E b).
Proof. unfold set_netboot. keeps. Qed.

Lemma keeps_release : keeps_table E snd (release E).
Proof.
  unfold release, deallocate_by_node.
  pose proof keeps_stop_nodes. pose proof keeps_set_netboot.
  pose proof keeps_delete_by_node. pose proof keeps_delete_host_maps.
  keeps.
Qed.

Lemma keeps_release_or_erase : keeps_table E snd (release_or_erase E).
Proof.
  unfold release_or_erase.
  pose proof keeps_release. pose proof keeps_start_disk_erasing. keeps.
Qed.

Lemma keeps_acquire u t a : keeps_table E snd (acquire E u t a).
Proof. unfold acquire. keeps. Qed.

Lemma keeps_mark_failed d : keeps_table E snd (mark_failed E d).
Proof. unfold mark_failed. keeps. Qed.

Lemma keeps_mark_broken d : keeps_table E snd (mark_broken E d).
Proof. unfold mark_broken. pose proof keeps_release. keeps. Qed.

Lemma keeps_mark_fixed : keeps_table E snd (mark_fixed E).
Proof. unfold mark_fixed. keeps. Qed.

Lemma keeps_update_power_state p : keeps_table E snd (update_power_state E p).
Proof. unfold update_power_state. keeps. Qed.

Lemma keeps_run_operation op : keeps_table E snd (run_operation E op).
Proof.
  destruct op; simpl;
    [ apply keeps_bind; [apply keeps_accept_enlistment | intros; apply keeps_ret]
    | apply keeps_start_commissioning | apply keeps_abort_commissioning
    | apply keeps_start_disk_erasing | apply keeps_abort_disk_erasing
    | apply keeps_abort_operation | apply keeps_acquire | apply keeps_release
    | apply keeps_release_or_erase | apply keeps_mark_failed
    | apply keeps_mark_broken | apply keeps_mark_fixed
    | apply keeps_update_power_state | apply keeps_delete_node ].
Qed.

(** Claim C1.  For every stored status [current] ([None] for a node
    without a row) and every [requested] status, [clean_status] accepts
    the pair if and only if [requested] is [current] or one of the
    successors the adjacency table lists for [current]; every other pair
    is refused with the "Invalid transition" error that names both
    statuses.  [save] writes a row only after this check has passed, and
    every operation of [Node], as well as the batch operations of the
    manager, leaves each row with a status reached from its previous one
    by validated writes (or removes the row). *)
Theorem status_changes_follow_transition_table :
  (forall current requested,
     validate_transition E current requested = Ok tt <->
     legal_transition E current requested) /\
  (forall current requested,
     legal_transition E current requested \/
     validate_transition E current requested =
       Raise (invalid_transition E current requested)) /\
  (forall self w,
     clean_status E (self, w) =
       (validate_transition E (get_db_state w self) (status self), (self, w))) /\
  (forall self w,
     save E (self, w) =
       match validate_transition E (get_db_state w self) (status self) with
       | Ok _ => (Ok tt, (self, set_nodes (<[system_id self := self]> (nodes w)) w))
       | Raise e => (Raise e, (self, w))
       end) /\
  (forall op self w,
     follows_table E w (snd (snd (run_operation E op (self, w))))) /\
  (forall ids user user_data w,
     follows_table E w (snd (start_nodes E ids user user_data w))) /\
  (forall ids user stop_mode w,
     follows_table E w (snd (stop_nodes E ids user stop_mode w))).
Proof.
  split_and!.
  - intros current requested. split.
    + intros Hok. destruct (decide (legal_transition E current requested)) as [|Hno];
        [done|]. rewrite validate_transition_illegal in Hok by done. done.
    + apply validate_transition_legal.
  - intros current requested.
    destruct (decide (legal_transition E current requested)) as [|Hno]; [by left|].
    right. by apply validate_transition_illegal.
  - done.
  - apply save_spec.
  - intros op self w. apply (keeps_run_operation op (self, w)).
  - intros ids user user_data w. apply (keeps_start_nodes ids user user_data w).
  - intros ids user stop_mode w. apply (keeps_stop_nodes ids user stop_mode w).
Qed.
End StateMachine.

(** ** Address claiming *)

Section Claim.
Context (E : Env).

Lemma rollback_db_same w : rollback_db w w = w.
Proof. by destruct w. Qed.

Lemma rollback_db_table w table :
  rollback_db w (set_staticipaddresses table w) = w.
Proof. by destruct w. Qed.

Lemma get_pxe_mac_None w self :
  get_pxe_mac w self = None ↔ pxe_mac self = None ∧ macaddress_set w self = [].
Proof.
  unfold get_pxe_mac. destruct (pxe_mac self) as [m|].
  - split; [done | by intros [? _]].
  - destruct (macaddress_set w self); simpl; split; try done; by intros [_ ?].
Qed.

Lemma claim_static_ip_addresses_no_mac self w :
  get_pxe_mac w self = None →
  claim_static_ip_addresses E (self, w) = (Ok [], (self, w)).
Proof. intros H. unfold claim_static_ip_addresses. simpl. by rewrite H. Qed.

Lemma claim_static_ip_addresses_claimed self w mac table ips :
  get_pxe_mac w self = Some mac →
  claim_static_ips E mac (staticipaddresses w) = (table, inr ips) →
  claim_static_ip_addresses E (self, w) =
    (Ok ((fun ip => (ip, mac_address mac)) <$> ips),
     (self, set_staticipaddresses table w)).
Proof.
  intros Hm Hc. unfold claim_static_ip_addresses, atomic. simpl.
  by rewrite Hm, Hc.
Qed.

Lemma claim_static_ip_addresses_clash self w mac table :
  get_pxe_mac w self = Some mac →
  claim_static_ips E mac (staticipaddresses w) = (table, inl StaticIPAddressTypeClash) →
  claim_static_ip_addresses E (self, w) =
    (Ok [], (self, set_staticipaddresses table w)).
Proof.
  intros Hm Hc. unfold claim_static_ip_addresses, atomic. simpl.
  by rewrite Hm, Hc.
Qed.

Lemma claim_static_ip_addresses_raises self w mac table e :
  get_pxe_mac w self = Some mac →
  claim_static_ips E mac (staticipaddresses w) = (table, inl e) →
  e ≠ StaticIPAddressTypeClash →
  claim_static_ip_addresses E (self, w) = (Raise e, (self, w)).
Proof.
  intros Hm Hc Hne. unfold claim_static_ip_addresses, atomic. simpl.
  rewrite Hm, Hc. destruct e; try done; simpl; by rewrite rollback_db_table.
Qed.

(** Claim C8.  [claim_static_ip_addresses] returns an empty claim, with
    no error and nothing changed, when the node has neither a recorded
    PXE MAC nor any MAC to fall back on; it returns an empty claim rather
    than an error when the allocator reports an address-type clash; in
    every other case it returns either one [(address, MAC)] pair for every
    address the allocator handed out, all paired with the PXE MAC, or it
    raises the allocator's error with the tables exactly as they were:
    never a part of the addresses. *)
Theorem claim_static_ip_addresses_all_or_nothing self w :
  (get_pxe_mac w self = None ↔
   pxe_mac self = None ∧ macaddress_set w self = []) ∧
  (get_pxe_mac w self = None →
   claim_static_ip_addresses E (self, w) = (Ok [], (self, w))) ∧
  (∀ mac table,
     get_pxe_mac w self = Some mac →
     claim_static_ips E mac (staticipaddresses w) = (table, inl StaticIPAddressTypeClash) →
     fst (claim_static_ip_addresses E (self, w)) = Ok []) ∧
  (∀ mac table outcome,
     get_pxe_mac w self = Some mac →
     claim_static_ips E mac (staticipaddresses w) = (table, outcome) →
     outcome ≠ inl StaticIPAddressTypeClash →
     match outcome with
     | inr ips =>
         (* all: every allocated address, paired with the PXE MAC *)
         claim_static_ip_addresses E (self, w) =
           (Ok ((fun ip => (ip, mac_address mac)) <$> ips),
            (self, set_staticipaddresses table w))
     | inl e =>
         (* nothing: the error, and the tables as they were *)
         claim_static_ip_addresses E (self, w) = (Raise e, (self, w))
     end).
Proof.
  split_and!.
  - apply get_pxe_mac_None.
  - apply claim_static_ip_addresses_no_mac.
  - intros mac table Hm Hc.
    by rewrite (claim_static_ip_addresses_clash _ _ _ _ Hm Hc).
  - intros mac table [e|ips] Hm Hc Hne.
    + apply (claim_static_ip_addresses_raises _ _ _ _ _ Hm Hc). congruence.
    + apply (claim_static_ip_addresses_claimed _ _ _ _ _ Hm Hc).
Qed.
End Claim.

Lemma claim_static_ip_addresses_all_or_nothing_witness :
  claim_static_ip_addresses sample_env (node_b, world_exhausted) =
    (Ok [("10.0.0.bb", "bb")],
     (node_b,
      set_staticipaddresses
        [("10.0.0.aa", "zz"); ("10.0.0.rr", "rr"); ("10.0.0.bb", "bb")]
        world_exhausted)) /\
  claim_static_ip_addresses sample_env (node_a, world_exhausted) =
    (Raise StaticIPAddressExhaustion, (node_a, world_exhausted)).
Proof.
  split.
  - apply (proj2 (proj2 (proj2
             (claim_static_ip_addresses_all_or_nothing sample_env node_b world_exhausted)))
             mac_b [("10.0.0.aa", "zz"); ("10.0.0.rr", "rr"); ("10.0.0.bb", "bb")]
             (inr ["10.0.0.bb"])); [reflexivity | reflexivity | discriminate].
  - apply (proj2 (proj2 (proj2
             (claim_static_ip_addresses_all_or_nothing sample_env node_a world_exhausted)))
             mac_a [("10.0.0.aa", "zz"); ("10.0.0.rr", "rr")]
             (inl StaticIPAddressExhaustion));
      [reflexivity | reflexivity | discriminate].
Defined.

(** ** Power control information *)

Section PowerInfo.
Context (E : Env).

Lemma lookup_setdefault_ne k k' v (d : gmap string JSON) :
  k ≠ k' → setdefault k v d !! k' = d !! k'.
Proof.
  intros Hne. unfold setdefault. destruct (d !! k); [done|].
  by rewrite lookup_insert_ne.
Qed.

Lemma effective_mac_address w self :
  get_effective_power_parameters w self !! "mac_address" = configured_mac w self.
Proof.
  unfold get_effective_power_parameters, configured_mac, stored_power_parameters.
  cbv zeta.
  match goal with
  | |- context [match ?q !! "mac_address" with Some _ => ?q | None => _ end] =>
      set (params := q);
      assert (Hq : params !! "mac_address" =
                   match power_parameters self with
                   | pp_dict d => d
                   | pp_blank => ∅
                   end !! "mac_address")
  end.
  { subst params. rewrite !lookup_setdefault_ne by done.
    destruct (decide (power_type self = "virsh"));
      rewrite !lookup_setdefault_ne by done;
      destruct (power_parameters self) as [|d]; try done;
      case_decide; by subst. }
  rewrite <- Hq. clearbody params.
  destruct (decide (status self = DEPLOYED));
    rewrite lookup_insert_ne by done;
    destruct (params !! "mac_address") eqn:Hm; try done;
    destruct (get_primary_mac w self); simpl;
    by rewrite ?lookup_insert_eq.
Qed.

Lemma mac_is_configured_usable mac :
  mac_is_configured mac = true ↔ usable_mac mac.
Proof.
  unfold usable_mac. destruct mac as [[| b | z | s]|]; simpl.
  - split; [done|]. intros (v & [= <-] & ? & ?). done.
  - split; [|done]. intros _. eexists. done.
  - split; [|done]. intros _. eexists. done.
  - rewrite bool_decide_eq_true. split.
    + intros Hs. eexists. split_and!; [done..|]. congruence.
    + intros (v & [= <-] & _ & Hne) ->. done.
  - split; [done|]. intros (v & ? & _). done.
Qed.

Lemma get_effective_power_info_unconfigured w self :
  power_type self = "" →
  get_effective_power_info E w self = Ok (mkPowerInfo false false false None None).
Proof.
  intros Hpt. unfold get_effective_power_info, get_effective_power_type.
  by rewrite decide_True.
Qed.

Lemma get_effective_power_info_configured w self :
  power_type self ≠ "" →
  get_effective_power_info E w self =
    Ok (mkPowerInfo
          (if decide (power_type self = "ether_wake")
           then mac_is_configured (configured_mac w self) else true)
          (if decide (power_type self = "ether_wake") then false else true)
          (bool_decide (power_type self ∈ QUERY_POWER_TYPES E))
          (Some (power_type self))
          (Some (get_effective_power_parameters w self))).
Proof.
  intros Hpt. unfold get_effective_power_info, get_effective_power_type.
  rewrite decide_False by done. rewrite effective_mac_address.
  by case_decide.
Qed.

Lemma get_effective_power_info_total w self :
  ∃ info, get_effective_power_info E w self = Ok info.
Proof.
  destruct (decide (power_type self = "")) as [Hpt|Hpt].
  - rewrite get_effective_power_info_unconfigured by done. eauto.
  - rewrite get_effective_power_info_configured by done. eauto.
Qed.
(** Claim C9.  [get_effective_power_info] never raises.  For a node
    whose power type is unconfigured (the empty string, which the code
    reports as unrecognised) it answers [can_be_started],
    [can_be_stopped] and [can_be_queried] all false.  For a configured
    power type [can_be_queried] is true exactly when the type is in
    [QUERY_POWER_TYPES] (for every node, when the registry does not list
    the empty string).  For the wake-on-LAN type ["ether_wake"],
    [can_be_started] is true exactly when a hardware address is configured,
    non-empty and non-null, and [can_be_stopped] is false; every other
    configured type can be started and stopped. *)
Theorem power_info_derivation w self :
  exists info,
    get_effective_power_info E w self = Ok info /\
    (power_type self = "" ->
     can_be_started info = false /\ can_be_stopped info = false /\
     can_be_queried info = false) /\
    (can_be_queried info = true <->
     power_type self <> "" /\ power_type self ∈ QUERY_POWER_TYPES E) /\
    ("" ∉ QUERY_POWER_TYPES E ->
     (can_be_queried info = true <-> power_type self ∈ QUERY_POWER_TYPES E)) /\
    (power_type self = "ether_wake" ->
     (can_be_started info = true <-> usable_mac (configured_mac w self)) /\
     can_be_stopped info = false) /\
    (power_type self <> "" -> power_type self <> "ether_wake" ->
     can_be_started info = true /\ can_be_stopped info = true).
Proof.
  destruct (decide (power_type self = "")) as [Hpt|Hpt].
  - rewrite get_effective_power_info_unconfigured by done.
    eexists. split; [reflexivity|]. simpl. split_and!; try done.
    + split; [done | by intros [? _]].
    + intros Hno. split; [done|]. intros Hin. by rewrite Hpt in Hin.
    + intros Hw. by rewrite Hw in Hpt.
  - rewrite get_effective_power_info_configured by done.
    eexists. split; [reflexivity|]. simpl. split_and!.
    + done.
    + rewrite bool_decide_eq_true. tauto.
    + intros _. by rewrite bool_decide_eq_true.
    + intros Hw. rewrite !decide_True by done.
      split; [apply mac_is_configured_usable | done].
    + intros _ Hw. by rewrite !decide_False by done.
Qed.
End PowerInfo.

Example power_info_wake_on_lan :
  get_effective_power_info sample_env world_abc
    (mkNode "node-a" "a" READY None "" "" "" "" "" "ether_wake" pp_blank
       POWER_UNKNOWN None true "cluster-1" None)
  = Ok (mkPowerInfo true false false (Some "ether_wake")
          (Some (get_effective_power_parameters world_abc node_a))) /\
  get_effective_power_info sample_env world_abc
    (mkNode "node-x" "x" READY None "" "" "" "" "" "ether_wake" pp_blank
       POWER_UNKNOWN None true "cluster-1" None)
  = Ok (mkPowerInfo false false false (Some "ether_wake")
          (Some (get_effective_power_parameters world_abc
                   (sample_node "node-x" READY)))).
Proof. split; vm_compute; reflexivity. Qed.

(** ** Waiting for a batch of dispatches *)

Section Waiting.

Lemma asynchronous_failures timeout ds :
  (filter (fun sr => fst sr = false) (asynchronous timeout (DeferredList ds))).*2
  = omap (failure_within timeout) ds.
Proof.
  unfold asynchronous. induction ds as [|d ds IH]; [done|].
  rewrite fmap_cons.
  change (omap (failure_within timeout) (d :: ds))
    with (match failure_within timeout d with
          | Some f => f :: omap (failure_within timeout) ds
          | None => omap (failure_within timeout) ds
          end).
  rewrite <- IH. unfold failure_within.
  destruct d as [t v|t f|]; unfold fired_by.
  - destruct (Nat.leb t timeout) eqn:Hle.
    + apply Nat.leb_le in Hle. rewrite decide_True by done.
      by rewrite filter_cons_False by (simpl; done).
    + apply Nat.leb_gt in Hle. rewrite decide_False by (simpl; lia).
      by rewrite filter_cons_True by done.
  - destruct (Nat.leb t timeout) eqn:Hle.
    + apply Nat.leb_le in Hle. rewrite decide_True by done.
      by rewrite filter_cons_True by done.
    + apply Nat.leb_gt in Hle. rewrite decide_False by (simpl; lia).
      by rewrite filter_cons_True by done.
  - rewrite decide_False by (intros []).
    by rewrite filter_cons_True by done.
Qed.

Lemma wait_for_power_commands_spec ds :
  wait_for_power_commands ds =
    match omap (failure_within 30) ds with
    | [] => Ok tt
    | failures => Raise (MultipleFailures failures)
    end.
Proof.
  unfold wait_for_power_commands. cbv zeta. rewrite asynchronous_failures.
  destruct (omap (failure_within 30) ds); simpl; try case_decide; simpl in *; done.
Qed.

Lemma omap_failure_within_nil timeout ds :
  omap (failure_within timeout) ds = [] ↔
  Forall (fun d => settled_within timeout d ∧ failure_of d = None) ds.
Proof.
  induction ds as [|d ds IH].
  - split; [constructor | done].
  - rewrite Forall_cons, <- IH.
    change (omap (failure_within timeout) (d :: ds))
      with (match failure_within timeout d with
            | Some f => f :: omap (failure_within timeout) ds
            | None => omap (failure_within timeout) ds
            end).
    unfold failure_within.
    destruct (decide (settled_within timeout d)) as [Hs|Hs].
    + destruct (failure_of d); split; try done; [by intros [[_ ?] _] | by intros [_ ?]].
    + split; [done | by intros [[? _] _]].
Qed.
Lemma omap_failure_within_cons timeout ds :
  omap (failure_within timeout) ds ≠ [] ↔
  Exists (fun d => is_Some (failure_of d) ∨ ¬ settled_within timeout d) ds.
Proof.
  induction ds as [|d ds IH].
  - split; [done | by intros ?%Exists_nil].
  - rewrite Exists_cons, <- IH.
    change (omap (failure_within timeout) (d :: ds))
      with (match failure_within timeout d with
            | Some f => f :: omap (failure_within timeout) ds
            | None => omap (failure_within timeout) ds
            end).
    unfold failure_within.
    destruct (decide (settled_within timeout d)) as [Hs|Hs].
    + destruct (failure_of d) as [f|] eqn:Hf.
      * split; [intros _; left; left; by eexists | done].
      * split; [by right|]. intros [[[f Hf']|Hn]|Hr]; done.
    + split; [intros _; left; by right | done].
Qed.
End Waiting.

(** ** Resolving the nodes of a batch *)

Section Resolve.

Lemma filter_all_nodes_singleton (P : Node → Prop) `{∀ n, Decision (P n)} w id n :
  world_ok w → nodes w !! id = Some n →
  (∀ n', P n' → system_id n' = id) →
  filter P (all_nodes w) = if decide (P n) then [n] else [].
Proof.
  intros Hok Hn Hid. unfold all_nodes.
  assert (Hrest : filter P (map_to_list (delete id (nodes w))).*2 = []).
  { apply elem_of_nil_inv. intros n' [HP Hin]%list_elem_of_filter.
    apply list_elem_of_fmap in Hin as ([k n''] & -> & Hin). simpl in *.
    apply elem_of_map_to_list in Hin.
    destruct (decide (k = id)) as [->|Hne].
    - by rewrite lookup_delete_eq in Hin.
    - rewrite lookup_delete_ne in Hin by done.
      apply Hok in Hin. apply Hid in HP. congruence. }
  pose proof (map_to_list_delete (nodes w) id n Hn) as Hperm.
  assert (Hp : filter P (map_to_list (nodes w)).*2 ≡ₚ
               filter P (n :: (map_to_list (delete id (nodes w))).*2)).
  { rewrite <- Hperm. done. }
  case_decide.
  - rewrite filter_cons_True, Hrest in Hp by done.
    by apply Permutation_singleton_r in Hp.
  - rewrite filter_cons_False, Hrest in Hp by done.
    by apply Permutation_nil_r in Hp.
Qed.

Lemma get_nodes_singleton w user id n :
  world_ok w → nodes w !! id = Some n →
  get_nodes w user PERM_EDIT (Some [id]) = if decide (may_edit user n) then [n] else [].
Proof.
  intros Hok Hn. pose proof (Hok _ _ Hn) as Hid.
  unfold get_nodes, _filter_visible_nodes, filter_by_ids.
  destruct user as [u|]; simpl; [|done].
  destruct (is_superuser u) eqn:Hsu.
  - rewrite (filter_all_nodes_singleton _ w id n Hok Hn).
    + rewrite decide_True by (rewrite Hid; by apply list_elem_of_singleton).
      rewrite decide_True by auto. done.
    + intros n' Hin. by apply list_elem_of_singleton in Hin.
  - rewrite list_filter_filter.
    rewrite (filter_all_nodes_singleton _ w id n Hok Hn).
    + destruct (decide (owner n = Some u)) as [Ho|Ho].
      * rewrite decide_True
          by (rewrite Hid; split; [by apply list_elem_of_singleton | done]).
        rewrite decide_True by auto. done.
      * rewrite decide_False by tauto.
        rewrite decide_False by (intros [?|?]; done). done.
    + intros n' [Hin _]. by apply list_elem_of_singleton in Hin.
Qed.

Lemma get_nodes_missing w user id :
  world_ok w → nodes w !! id = None →
  get_nodes w user PERM_EDIT (Some [id]) = [].
Proof.
  intros Hok Hn. apply elem_of_nil_inv. intros n' Hin.
  unfold get_nodes, filter_by_ids in Hin.
  apply list_elem_of_filter in Hin as [Hid Hin].
  assert (n' ∈ all_nodes w) as Hall.
  { unfold _filter_visible_nodes in Hin.
    destruct user as [u|]; [|by apply elem_of_nil in Hin].
    destruct (is_superuser u); [done|].
    by apply list_elem_of_filter in Hin as [_ ?]. }
  unfold all_nodes in Hall.
  apply list_elem_of_fmap in Hall as ([k n''] & -> & Hall). simpl in *.
  apply elem_of_map_to_list in Hall. pose proof (Hok _ _ Hall) as Hk.
  apply list_elem_of_singleton in Hid. congruence.
Qed.

Lemma elem_of_all_nodes w n :
  world_ok w → n ∈ all_nodes w → nodes w !! system_id n = Some n.
Proof.
  intros Hok Hin. unfold all_nodes in Hin.
  apply list_elem_of_fmap in Hin as ([k n'] & -> & Hin). simpl.
  apply elem_of_map_to_list in Hin. by rewrite (Hok _ _ Hin).
Qed.

Lemma all_nodes_NoDup w : world_ok w → NoDup (system_id <$> all_nodes w).
Proof.
  intros Hok. unfold all_nodes.
  assert (Heq : system_id <$> (map_to_list (nodes w)).*2 = (map_to_list (nodes w)).*1).
  { rewrite <- list_fmap_compose. apply list_fmap_ext.
    intros i [k n] Hin%list_elem_of_lookup_2. simpl.
    apply elem_of_map_to_list in Hin. by apply Hok. }
  rewrite Heq. apply NoDup_fst_map_to_list.
Qed.

Lemma get_nodes_sublist w user perm ids :
  get_nodes w user perm ids `sublist_of` all_nodes w.
Proof.
  unfold get_nodes, filter_by_ids, _filter_visible_nodes.
  assert (Hvis : match user with
                 | Some u =>
                     if is_superuser u then all_nodes w
                     else match perm with
                          | PERM_VIEW =>
                              filter (fun n => owner n = None ∨ owner n = Some u) (all_nodes w)
                          | PERM_EDIT => filter (fun n => owner n = Some u) (all_nodes w)
                          | PERM_ADMIN => []
                          end
                 | None => []
                 end `sublist_of` all_nodes w).
  { destruct user as [u|]; [|apply sublist_nil_l].
    destruct (is_superuser u); [done|].
    destruct perm; try apply sublist_filter. apply sublist_nil_l. }
  destruct ids as [ids|]; [|done].
  etrans; [apply sublist_filter | done].
Qed.

Lemma get_nodes_NoDup w user perm ids :
  world_ok w → NoDup (system_id <$> get_nodes w user perm ids).
Proof.
  intros Hok. eapply sublist_NoDup; [by apply all_nodes_NoDup|].
  apply fmap_sublist, get_nodes_sublist.
Qed.

Lemma elem_of_get_nodes w user perm ids n :
  world_ok w → n ∈ get_nodes w user perm ids → nodes w !! system_id n = Some n.
Proof.
  intros Hok Hin. apply elem_of_all_nodes; [done|].
  eapply elem_of_sublist; [exact Hin | apply get_nodes_sublist].
Qed.
End Resolve.

(** ** The batch operations *)

Section Batch.
Context (E : Env).

Lemma claim_and_start_deployment_none_allocated ns sm w :
  Forall (fun n => status n ≠ ALLOCATED) ns →
  claim_and_start_deployment E ns sm w = (Ok (sm, ns), w).
Proof.
  induction 1 as [|n ns Hn _ IH]; simpl; [done|].
  rewrite decide_False by done. unfold bind. by rewrite IH.
Qed.

(** What [start_nodes] does once the nodes are resolved and none of
    them is allocated. *)
Lemma start_nodes_none_allocated ids user ud w :
  let ns := get_nodes w user PERM_EDIT (Some ids) in
  Forall (fun n => status n ≠ ALLOCATED) ns →
  start_nodes E ids user ud w =
    let w1 := log_effect (UpdateHostMaps ∅)
                (log_effect (BulkSetUserData (system_id <$> ns) ud) w) in
    if decide (length (update_host_maps E ∅) ≠ 0)
    then (Raise (MultipleFailures (update_host_maps E ∅)), w1)
    else
      let w2 := log_effect (ChangeDNSZones (list_to_set (nodegroup <$> ns))) w1 in
      match gen_power_info_start E w2 ns with
      | Raise e => (Raise e, w2)
      | Ok power_infos =>
          let reqs := power_request <$> power_infos in
          let w3 := log_effect (PowerOnNodes reqs) w2 in
          match wait_for_power_commands (power_on_nodes E reqs) with
          | Raise e => (Raise e, w3)
          | Ok _ =>
              (Ok (filter (fun n => system_id n ∈ (fun r => r.1.1.1) <$> reqs) ns), w3)
          end
      end.
Proof.
  intros ns Hns. unfold start_nodes, bind. simpl.
  fold ns. rewrite claim_and_start_deployment_none_allocated by done.
  simpl. case_decide; [done|].
  simpl. unfold lift_result.
  destruct (gen_power_info_start _ _ _) as [infos|e]; [|done].
  destruct (wait_for_power_commands _) as [[]|e]; done.
Qed.

Lemma start_nodes_none_allocated_tables ids user ud w r w' :
  Forall (fun n => status n ≠ ALLOCATED) (get_nodes w user PERM_EDIT (Some ids)) →
  start_nodes E ids user ud w = (r, w') →
  nodes w' = nodes w ∧ macaddresses w' = macaddresses w ∧
  staticipaddresses w' = staticipaddresses w ∧ dhcpleases w' = dhcpleases w.
Proof.
  intros Hns. rewrite start_nodes_none_allocated by done. cbv zeta.
  case_decide; [intros [= <- <-]; done|].
  destruct (gen_power_info_start _ _ _) as [infos|e]; [|intros [= <- <-]; done].
  destruct (wait_for_power_commands _) as [[]|e]; intros [= <- <-]; done.
Qed.

Lemma claim_static_ip_addresses_self self w r self' w' :
  claim_static_ip_addresses E (self, w) = (r, (self', w')) →
  self' = self ∧ nodes w' = nodes w ∧ macaddresses w' = macaddresses w ∧
  dhcpleases w' = dhcpleases w ∧ effects w' = effects w.
Proof.
  unfold claim_static_ip_addresses, atomic. simpl.
  destruct (get_pxe_mac w self) as [mac|]; [|intros [= <- <- <-]; done].
  destruct (claim_static_ips E mac (staticipaddresses w)) as [table [e|ips]];
    [destruct e|]; simpl; intros [= <- <- <-]; done.
Qed.

Lemma claim_static_ip_addresses_raise_unchanged self w e s' :
  claim_static_ip_addresses E (self, w) = (Raise e, s') → s' = (self, w).
Proof.
  unfold claim_static_ip_addresses, atomic. simpl.
  destruct (get_pxe_mac w self) as [mac|]; [|done].
  destruct (claim_static_ips E mac (staticipaddresses w)) as [table [e'|ips]];
    [destruct e'|]; simpl; intros [= <- <-]; try done;
    by rewrite rollback_db_table.
Qed.

Lemma save_effects self w r s' :
  save E (self, w) = (r, s') → fst s' = self ∧ effects (snd s') = effects w.
Proof.
  unfold save, clean, clean_status, bind. simpl.
  destruct (validate_transition _ _ _) as [[]|]; intros [= <- <-]; done.
Qed.

Lemma start_deployment_power_dispatches self w r self' w' :
  start_deployment E (self, w) = (r, (self', w')) →
  system_id self' = system_id self ∧
  power_dispatches w' = power_dispatches w ∧
  (∀ k, k ≠ system_id self → nodes w' !! k = nodes w !! k).
Proof.
  unfold start_deployment, bind, update_self. simpl.
  destruct (save E (set_status DEPLOYING self, w)) as [[[]|e] [n1 w1]] eqn:Hs.
  - pose proof Hs as Hs'. apply save_effects in Hs' as [Hn He]. simpl in *.
    assert (Hk : ∀ k, k ≠ system_id self → nodes w1 !! k = nodes w !! k).
    { unfold save, clean, clean_status, bind in Hs. simpl in Hs.
      destruct (validate_transition _ _ _) as [[]|]; [|done].
      injection Hs as <- <-. simpl. intros k Hne. by rewrite lookup_insert_ne. }
    unfold start_transition_monitor. simpl.
    destruct (getClientFor E (nodegroup n1)); intros [= <- <- <-]; subst n1;
      (split_and!; [done| |done]); unfold power_dispatches; simpl.
    + by rewrite He.
    + rewrite filter_app, He. simpl. rewrite filter_cons_False by done.
      by rewrite filter_nil, app_nil_r.
  - intros [= <- <- <-].
    pose proof Hs as Hs'. apply save_effects in Hs' as [Hn He]. simpl in *.
    subst n1. split_and!; [done| |].
    + unfold power_dispatches. by rewrite He.
    + unfold save, clean, clean_status, bind in Hs. simpl in Hs.
      destruct (validate_transition _ _ _) as [[]|]; [done|].
      by injection Hs as <- <-.
Qed.

(** The claiming loop issues no power dispatch, and writes only the
    rows of the nodes it is run on. *)
Lemma claim_and_start_deployment_frame ns sm w r w' :
  claim_and_start_deployment E ns sm w = (r, w') →
  power_dispatches w' = power_dispatches w ∧
  (∀ k, k ∉ system_id <$> ns → nodes w' !! k = nodes w !! k).
Proof.
  revert sm w r w'. induction ns as [|node rest IH]; intros sm w r w'; simpl.
  - intros [= <- <-]. done.
  - case_decide as Hst.
    + unfold bind, on_object, get.
      destruct (claim_static_ip_addresses E (node, w)) as [[claims|e] [n1 w1]] eqn:Hc;
        apply claim_static_ip_addresses_self in Hc as (-> & Hn1 & _ & _ & He1).
      2:{ intros [= <- <-]. unfold power_dispatches. rewrite He1, Hn1. done. }
      destruct (start_deployment E (node, w1)) as [[[]|e] [n2 w2]] eqn:Hd;
        apply start_deployment_power_dispatches in Hd as (Hid & Hp2 & Hk2).
      2:{ intros [= <- <-]. split.
          - rewrite Hp2. unfold power_dispatches. by rewrite He1.
          - intros k Hk. rewrite ?fmap_cons in Hk.
            apply not_elem_of_cons in Hk as [Hne _].
            rewrite Hk2, Hn1 by done. done. }
      match goal with
      | |- context [claim_and_start_deployment E rest ?sm' w2] =>
          destruct (claim_and_start_deployment E rest sm' w2) as [[[sm3 rest']|e] w3] eqn:Hl
      end; apply IH in Hl as [Hp3 Hk3]; intros [= <- <-]; (split;
        [ rewrite Hp3, Hp2; unfold power_dispatches; by rewrite He1
        | intros k Hk; rewrite ?fmap_cons in Hk;
          apply not_elem_of_cons in Hk as [Hne Hk'];
          rewrite Hk3, Hk2, Hn1 by done; done ]).
    + unfold bind.
      destruct (claim_and_start_deployment E rest sm w) as [[[sm3 rest']|e] w3] eqn:Hl;
        apply IH in Hl as [Hp3 Hk3]; intros [= <- <-]; (split; [done|]);
        intros k Hk; rewrite ?fmap_cons in Hk;
        apply not_elem_of_cons in Hk as [_ Hk']; by apply Hk3.
Qed.

(** The loop stops at the first allocated node whose claim raises. *)
Lemma claim_and_start_deployment_stops pre n post sm sm1 pre' w w1 e :
  claim_and_start_deployment E pre sm w = (Ok (sm1, pre'), w1) →
  status n = ALLOCATED →
  fst (claim_static_ip_addresses E (n, w1)) = Raise e →
  claim_and_start_deployment E (pre ++ n :: post) sm w = (Raise e, w1).
Proof.
  revert sm sm1 pre' w. induction pre as [|m pre IH]; intros sm sm1 pre' w; simpl.
  - intros [= <- <- <-] Hst Hc. rewrite decide_True by done.
    unfold bind, on_object.
    destruct (claim_static_ip_addresses E (n, w)) as [[claims|e'] s'] eqn:Hc';
      simpl in Hc; [done|]. injection Hc as ->.
    apply claim_static_ip_addresses_raise_unchanged in Hc'. by subst s'.
  - intros Hpre Hst Hc. case_decide as Hm.
    + unfold bind, on_object, get in *.
      destruct (claim_static_ip_addresses E (m, w)) as [[claims|e'] [n1 w2]]; [|done].
      destruct (start_deployment E (n1, w2)) as [[[]|e'] [n2 w3]]; [|done].
      match goal with
      | H : context [claim_and_start_deployment E pre ?sm' w3] |- _ =>
          destruct (claim_and_start_deployment E pre sm' w3)
            as [[[sm4 pre4]|e'] w4] eqn:Hl; [|done]
      end.
      injection Hpre as <- <- <-.
      by rewrite (IH _ _ _ _ Hl Hst Hc).
    + unfold bind in *.
      destruct (claim_and_start_deployment E pre sm w)
        as [[[sm4 pre4]|e'] w4] eqn:Hl; [|done].
      injection Hpre as <- <- <-.
      by rewrite (IH _ _ _ _ Hl Hst Hc).
Qed.

Lemma gen_power_info_start_total w ns :
  ∃ l, gen_power_info_start E w ns = Ok l.
Proof.
  induction ns as [|n ns [l IH]]; simpl; [eauto|].
  destruct (get_effective_power_info_total E w n) as [info ->].
  rewrite IH. eauto.
Qed.

Lemma gen_power_info_stop_total w mode ns :
  ∃ l, gen_power_info_stop E w mode ns = Ok l.
Proof.
  induction ns as [|n ns [l IH]]; simpl; [eauto|].
  destruct (get_effective_power_info_total E w n) as [info ->].
  rewrite IH. eauto.
Qed.

Lemma stop_nodes_waits ids user mode w :
  ∃ reqs,
    stop_nodes E ids user mode w =
      (match wait_for_power_commands (power_off_nodes E reqs) with
       | Ok _ =>
           Ok (filter (fun n => system_id n ∈ (fun r => r.1.1.1) <$> reqs)
                 (get_nodes w user PERM_EDIT (Some ids)))
       | Raise e => Raise e
       end,
       log_effect (PowerOffNodes reqs) w).
Proof.
  unfold stop_nodes, bind, get, modify, lift_result. cbv beta iota zeta.
  destruct (gen_power_info_stop_total w mode (get_nodes w user PERM_EDIT (Some ids)))
    as [l Hl].
  rewrite Hl. exists (power_request <$> l).
  by destruct (wait_for_power_commands _) as [[]|e].
Qed.

Lemma start_nodes_waits ids user ud w :
  (∃ e, fst (start_nodes E ids user ud w) = Raise e ∧
        power_dispatches (snd (start_nodes E ids user ud w)) = power_dispatches w) ∨
  (∃ reqs,
     power_dispatches (snd (start_nodes E ids user ud w)) =
       power_dispatches w ++ [PowerOnNodes reqs] ∧
     ∀ e, fst (start_nodes E ids user ud w) = Raise e ↔
          wait_for_power_commands (power_on_nodes E reqs) = Raise e).
Proof.
  unfold start_nodes, bind, get, modify, lift_result. cbv beta iota zeta.
  set (ns := get_nodes w user PERM_EDIT (Some ids)).
  set (w0 := log_effect (BulkSetUserData (system_id <$> ns) ud) w).
  assert (Hp0 : power_dispatches w0 = power_dispatches w).
  { unfold power_dispatches. simpl. rewrite filter_app. simpl.
    rewrite filter_cons_False by done. by rewrite filter_nil, app_nil_r. }
  destruct (claim_and_start_deployment E ns ∅ w0) as [[[sm ns']|e] w1] eqn:Hl;
    apply claim_and_start_deployment_frame in Hl as [Hp1 _].
  2:{ left. exists e. simpl. split; [done|]. by rewrite Hp1. }
  simpl.
  assert (Hlog : ∀ eff w', is_power_dispatch eff = false →
                           power_dispatches (log_effect eff w') = power_dispatches w').
  { intros eff w' Heff. unfold power_dispatches. simpl. rewrite filter_app. simpl.
    rewrite filter_cons_False by (by rewrite Heff).
    by rewrite filter_nil, app_nil_r. }
  case_decide as Hhm.
  { left. eexists. simpl. split; [done|]. by rewrite Hlog, Hp1, Hp0. }
  simpl.
  match goal with
  | |- context [gen_power_info_start E ?w' ns'] =>
      destruct (gen_power_info_start_total w' ns') as [l Hl]; rewrite Hl
  end.
  simpl. right. exists (power_request <$> l). split.
  - destruct (wait_for_power_commands _) as [[]|e]; simpl;
      unfold power_dispatches; simpl; rewrite !filter_app; simpl;
      rewrite !filter_cons_False by done; rewrite filter_cons_True by done;
      rewrite !filter_nil, !app_nil_r;
      fold (power_dispatches w1); by rewrite Hp1, Hp0.
  - intros e. destruct (wait_for_power_commands _) as [[]|e']; simpl;
      split; congruence.
Qed.

(** Claim C2.  A batch power operation blocks once, for at most thirty
    seconds, on the list of all its dispatches.  It raises the aggregate
    [MultipleFailures] if and only if at least one dispatch failed or
    timed out, that is, erred back or had not settled when the thirty
    seconds elapsed; the aggregate carries the failure of every such
    dispatch, in dispatch order, whenever within the bound it failed:
    nothing is raised on the first failure.  It returns normally exactly
    when every dispatch settled in time without failure, and it raises
    nothing but the aggregate.  [stop_nodes] ends with this wait on the
    power-off dispatches it issued; [start_nodes] either fails before any
    dispatch (address claim or host maps) or raises exactly what this wait
    raises on the power-on dispatches it issued. *)
Theorem batch_power_wait :
  (forall ds,
     (exists failures,
        wait_for_power_commands ds = Raise (MultipleFailures failures)) <->
     Exists (fun d => is_Some (failure_of d) \/ ~ settled_within 30 d) ds) /\
  (forall ds failures,
     wait_for_power_commands ds = Raise (MultipleFailures failures) <->
     failures = omap (failure_within 30) ds /\ failures <> []) /\
  (forall ds,
     wait_for_power_commands ds = Ok tt <->
     Forall (fun d => settled_within 30 d /\ failure_of d = None) ds) /\
  (forall ds e,
     wait_for_power_commands ds = Raise e ->
     e = MultipleFailures (omap (failure_within 30) ds)) /\
  (forall ids user stop_mode w,
     exists reqs,
       stop_nodes E ids user stop_mode w =
         (match wait_for_power_commands (power_off_nodes E reqs) with
          | Ok _ =>
              Ok (filter (fun n => system_id n ∈ (fun r => r.1.1.1) <$> reqs)
                    (get_nodes w user PERM_EDIT (Some ids)))
          | Raise e => Raise e
          end,
          log_effect (PowerOffNodes reqs) w)) /\
  (forall ids user user_data w,
     (exists e,
        fst (start_nodes E ids user user_data w) = Raise e /\
        power_dispatches (snd (start_nodes E ids user user_data w)) =
          power_dispatches w) \/
     (exists reqs,
        power_dispatches (snd (start_nodes E ids user user_data w)) =
          power_dispatches w ++ [PowerOnNodes reqs] /\
        forall e,
          fst (start_nodes E ids user user_data w) = Raise e <->
          wait_for_power_commands (power_on_nodes E reqs) = Raise e)).
Proof.
  split_and!.
  - intros ds. rewrite wait_for_power_commands_spec.
    rewrite <- omap_failure_within_cons.
    destruct (omap (failure_within 30) ds) as [|f fs]; split; try done.
    + by intros [? ?].
    + intros _. by eexists.
  - intros ds failures. rewrite wait_for_power_commands_spec.
    destruct (omap (failure_within 30) ds) as [|f fs]; split.
    + done.
    + intros [-> Hne]. done.
    + intros [= <-]. done.
    + intros [-> _]. done.
  - intros ds. rewrite wait_for_power_commands_spec.
    rewrite <- omap_failure_within_nil.
    destruct (omap (failure_within 30) ds) as [|f fs]; split; done.
  - intros ds e. rewrite wait_for_power_commands_spec.
    destruct (omap (failure_within 30) ds) as [|f fs]; [done|].
    by intros [= <-].
  - apply stop_nodes_waits.
  - apply start_nodes_waits.
Qed.

(** Claim C3, as amended.  When, in the batch [start_nodes] resolved, the
    address claim of an allocated node raises the allocator's exhaustion
    error, the operation propagates that error and stops there: its final
    world is the one reached after processing the nodes before the failing
    one, no power dispatch is issued for any node of the batch, and the
    failing node and the nodes after it keep the rows they had (no claim,
    no state recording, no power dispatch for them). *)
Theorem start_nodes_exhaustion_aborts_batch ids user user_data w pre n post
    static_mappings pre' w1 :
  get_nodes w user PERM_EDIT (Some ids) = pre ++ n :: post →
  claim_and_start_deployment E pre ∅
    (log_effect (BulkSetUserData (system_id <$> pre ++ n :: post) user_data) w)
    = (Ok (static_mappings, pre'), w1) →
  status n = ALLOCATED →
  fst (claim_static_ip_addresses E (n, w1)) = Raise StaticIPAddressExhaustion →
  start_nodes E ids user user_data w = (Raise StaticIPAddressExhaustion, w1) ∧
  power_dispatches w1 = power_dispatches w ∧
  (world_ok w → Forall (fun m => nodes w1 !! system_id m = Some m) (n :: post)).
Proof.
  intros Hns Hpre Hst Hc. split_and!.
  - unfold start_nodes, bind, get, modify. cbv beta iota zeta. rewrite Hns.
    by rewrite (claim_and_start_deployment_stops pre n post _ _ _ _ _ _ Hpre Hst Hc).
  - apply claim_and_start_deployment_frame in Hpre as [Hp _].
    rewrite Hp. unfold power_dispatches. simpl.
    rewrite filter_app. simpl. rewrite filter_cons_False by done.
    by rewrite filter_nil, app_nil_r.
  - intros Hok. apply Forall_forall. intros m Hm.
    apply claim_and_start_deployment_frame in Hpre as [_ Hk].
    rewrite Hk; simpl.
    + apply (elem_of_get_nodes w user PERM_EDIT (Some ids)); [done|].
      rewrite Hns. apply elem_of_app. by right.
    + pose proof (get_nodes_NoDup w user PERM_EDIT (Some ids) Hok) as Hnd.
      rewrite Hns, fmap_app in Hnd. apply NoDup_app in Hnd as (_ & Hdis & _).
      intros Hin. apply (Hdis _ Hin). by apply list_elem_of_fmap_2.
Qed.
End Batch.

(** An early failure does not end the wait, and a dispatch that never
    settles is one more failure of the aggregate. *)
Example wait_for_power_commands_collects :
  wait_for_power_commands
    [Errback 1 "power on failed"; Callback 2 "on"; Errback 29 "no route";
     Errback 31 "too late"; NeverFires]
    = Raise (MultipleFailures
               ["power on failed"; "no route"; "timed out"; "timed out"]) /\
  wait_for_power_commands [Callback 30 "on"; Callback 2 "on"] = Ok tt /\
  fst (stop_nodes silent_gateway_env ["node-a"] (Some admin) "hard" world_abc)
    = Raise (MultipleFailures ["timed out"]).
Proof. vm_compute. done. Qed.

Lemma sample_world_ok ns macs : world_ok (sample_world ns macs).
Proof.
  unfold world_ok, sample_world. simpl.
  induction ns as [|m ns IH]; intros k n; simpl.
  - by rewrite lookup_empty.
  - destruct (decide (k = system_id m)) as [->|Hne].
    + rewrite lookup_insert_eq. by intros [= <-].
    + rewrite lookup_insert_ne by done. apply IH.
Qed.

Lemma start_nodes_exhaustion_aborts_batch_witness :
  let w0 :=
    log_effect (BulkSetUserData ["node-c"; "node-a"; "node-b"] None)
      world_exhausted in
  get_nodes world_exhausted (Some admin) PERM_EDIT
    (Some ["node-b"; "node-a"; "node-c"]) = [node_c] ++ node_a :: [node_b] /\
  claim_and_start_deployment sample_env [node_c] ∅ w0 = (Ok (∅, [node_c]), w0) /\
  status node_a = ALLOCATED /\
  fst (claim_static_ip_addresses sample_env (node_a, w0))
    = Raise StaticIPAddressExhaustion /\
  start_nodes sample_env ["node-b"; "node-a"; "node-c"] (Some admin) None
    world_exhausted = (Raise StaticIPAddressExhaustion, w0) /\
  power_dispatches w0 = power_dispatches world_exhausted /\
  Forall (fun m => nodes w0 !! system_id m = Some m) [node_a; node_b].
Proof.
  pose proof (start_nodes_exhaustion_aborts_batch sample_env
                ["node-b"; "node-a"; "node-c"] (Some admin) None world_exhausted
                [node_c] node_a [node_b] ∅ [node_c]
                (log_effect (BulkSetUserData ["node-c"; "node-a"; "node-b"] None)
                   world_exhausted)
                ltac:(vm_compute; reflexivity) ltac:(vm_compute; reflexivity)
                ltac:(reflexivity) ltac:(vm_compute; reflexivity)) as (H1 & H2 & H3).
  cbv zeta. split_and!; try (vm_compute; reflexivity); try assumption.
  apply H3. exact (sample_world_ok _ _).
Defined.

Lemma exhaustion_aborts_the_whole_batch :
  fst (start_nodes sample_env ["node-a"; "node-b"] (Some admin) None world_exhausted)
    = Raise StaticIPAddressExhaustion /\
  status <$> nodes (snd (start_nodes sample_env ["node-a"; "node-b"] (Some admin)
                           None world_exhausted)) !! "node-b" = Some ALLOCATED /\
  staticipaddresses (snd (start_nodes sample_env ["node-a"; "node-b"] (Some admin)
                            None world_exhausted))
    = [("10.0.0.aa", "zz"); ("10.0.0.rr", "rr")] /\
  effects (snd (start_nodes sample_env ["node-a"; "node-b"] (Some admin) None
                  world_exhausted))
    = [BulkSetUserData ["node-a"; "node-b"] None] /\
  fst (claim_static_ip_addresses sample_env (node_b, world_exhausted))
    = Ok [("10.0.0.bb", "bb")].
Proof. vm_compute. done. Qed.

(** ** Marking a node failed *)

Section MarkFailed.
Context (E : Env).

Lemma get_failed_status_is_failed s f :
  get_failed_status s = Some f → is_failed_status f = true ∧ get_failed_status f = None.
Proof. destruct s; simpl; intros [= <-]; done. Qed.

Lemma mark_failed_in_progress d self w f :
  get_failed_status (status self) = Some f →
  mark_failed E d (self, w) =
    save E (set_error_description d (set_status f self), w).
Proof. intros Hf. unfold mark_failed, bind. simpl. by rewrite Hf. Qed.

Lemma mark_failed_already_failed d self w :
  is_failed_status (status self) = true →
  mark_failed E d (self, w) = (Ok tt, (self, w)).
Proof.
  intros Hf. unfold mark_failed, bind. simpl.
  destruct (status self); try done.
Qed.

Lemma mark_failed_not_failable d self w :
  get_failed_status (status self) = None →
  is_failed_status (status self) = false →
  mark_failed E d (self, w) =
    (Raise (NodeStateViolation
              ("The status of the node is " +:+
               pretty (NODE_STATUS_value E (status self)) +:+
               "; this status cannot be transitioned to a corresponding failed status.")),
     (self, w)).
Proof. intros Hg Hf. unfold mark_failed, bind. simpl. by rewrite Hg, Hf. Qed.

(** Claim C7.  Calling [mark_failed] twice in a row leaves the node,
    after the second call, with the status it had after the first: the
    failure counterpart of its initial status when there is one.  Whenever
    the first call returned without error the node is in a failed status,
    and a second call made on a node in a failed status raises nothing and
    changes neither the object nor the world. *)
Theorem mark_failed_idempotent d1 d2 self w :
  let '(r1, (self1, w1)) := mark_failed E d1 (self, w) in
  let '(r2, (self2, w2)) := mark_failed E d2 (self1, w1) in
  status self2 = status self1 /\
  (forall f, get_failed_status (status self) = Some f -> status self1 = f) /\
  (r1 = Ok tt -> is_failed_status (status self1) = true) /\
  (is_failed_status (status self1) = true ->
   r2 = Ok tt /\ self2 = self1 /\ w2 = w1).
Proof.
  destruct (get_failed_status (status self)) as [f|] eqn:Hg.
  - destruct (get_failed_status_is_failed _ _ Hg) as [Hf Hn].
    rewrite (mark_failed_in_progress _ _ _ _ Hg), save_spec.
    destruct (validate_transition _ _ _) as [[]|e]; simpl;
      rewrite mark_failed_already_failed by done;
      (split_and!; [done | by intros ? [= <-] | done | done]).
  - destruct (is_failed_status (status self)) eqn:Hf.
    + rewrite mark_failed_already_failed by done.
      rewrite mark_failed_already_failed by done. done.
    + rewrite mark_failed_not_failable by done.
      rewrite mark_failed_not_failable by done.
      split_and!; [done | done | done | congruence].
Qed.
End MarkFailed.

Lemma mark_failed_idempotent_witness :
  fst (mark_failed sample_env "first" (node_d, world_d)) = Ok tt /\
  status (fst (snd (mark_failed sample_env "first" (node_d, world_d))))
    = FAILED_DEPLOYMENT /\
  mark_failed sample_env "second"
    (snd (mark_failed sample_env "first" (node_d, world_d)))
    = (Ok tt, snd (mark_failed sample_env "first" (node_d, world_d))).
Proof.
  pose proof (mark_failed_idempotent sample_env "first" "second" node_d world_d) as H.
  destruct (mark_failed sample_env "first" (node_d, world_d)) as [r1 [self1 w1]] eqn:H1.
  destruct (mark_failed sample_env "second" (self1, w1)) as [r2 [self2 w2]] eqn:H2.
  destruct H as (_ & Hf & _ & Hidem).
  assert (Hr1 : r1 = Ok tt) by (vm_compute in H1; congruence).
  assert (Hs1 : status self1 = FAILED_DEPLOYMENT) by (by apply Hf).
  simpl. rewrite H2. split_and!; [done | done |].
  destruct Hidem as (-> & -> & ->); [by rewrite Hs1 | done].
Defined.

(** ** Recording the observed power state *)

Section UpdatePowerState.
Context (E : Env).

(** Claim C10.  [update_power_state p] sets the observed power state of
    the node to [p]; it sets the status to ready and clears the owner when
    the status was releasing and [p] is off, and in every other case leaves
    status and owner as they were; no other field of the node changes.
    The node is then saved: the write is validated against the stored
    status, replaces the row of this node only, and leaves the world
    untouched when the validation refuses it. *)
Theorem update_power_state_frame p self w :
  ∃ r self' w',
    update_power_state E p (self, w) = (r, (self', w')) ∧
    power_state self' = p ∧
    (status self = RELEASING ∧ p = POWER_OFF →
     status self' = READY ∧ owner self' = None) ∧
    (¬ (status self = RELEASING ∧ p = POWER_OFF) →
     status self' = status self ∧ owner self' = owner self) ∧
    (system_id self' = system_id self ∧ hostname self' = hostname self ∧
     agent_name self' = agent_name self ∧
     error_description self' = error_description self ∧
     osystem self' = osystem self ∧ distro_series self' = distro_series self ∧
     license_key self' = license_key self ∧ power_type self' = power_type self ∧
     power_parameters self' = power_parameters self ∧ token self' = token self ∧
     netboot self' = netboot self ∧ nodegroup self' = nodegroup self ∧
     pxe_mac self' = pxe_mac self) ∧
    r = validate_transition E (get_db_state w self) (status self') ∧
    w' = match r with
         | Ok _ => set_nodes (<[system_id self := self']> (nodes w)) w
         | Raise _ => w
         end.
Proof.
  unfold update_power_state, bind. simpl.
  destruct (bool_decide (status self = RELEASING)) eqn:Hs;
    destruct (bool_decide (p = POWER_OFF)) eqn:Hp; simpl;
    rewrite save_spec; simpl;
    try apply bool_decide_eq_true in Hs; try apply bool_decide_eq_true in Hp;
    try apply bool_decide_eq_false in Hs; try apply bool_decide_eq_false in Hp;
    match goal with
    | |- context [validate_transition E ?o ?s] =>
        destruct (validate_transition E o s) as [[]|e] eqn:Hv
    end;
    do 3 eexists; (split; [reflexivity|]); simpl; rewrite ?Hv;
    split_and!; try done; try tauto; intros [? ?]; done.
Qed.
End UpdatePowerState.

Example update_power_state_releasing_off :
  update_power_state sample_env POWER_OFF
    (set_owner (Some admin) (sample_node "node-x" RELEASING),
     sample_world [set_owner (Some admin) (sample_node "node-x" RELEASING)] [])
  = (Ok tt,
     (set_power_state POWER_OFF (sample_node "node-x" READY),
      sample_world [set_power_state POWER_OFF (sample_node "node-x" READY)] [])).
Proof. vm_compute. reflexivity. Qed.

(** ** Lifecycle operations that start a node *)

Section Lifecycle.
Context (E : Env).

Lemma new_not_accepted : NEW ∉ [READY; COMMISSIONING].
Proof.
  intros Hin. apply elem_of_cons in Hin as [?|Hin]; [done|].
  apply list_elem_of_singleton in Hin. done.
Qed.

Lemma set_status_same n : set_status (status n) n = n.
Proof. by destruct n. Qed.

Lemma set_status_set_status s t n : set_status s (set_status t n) = set_status s n.
Proof. done. Qed.

Lemma world_ok_save self w :
  world_ok w → world_ok (set_nodes (<[system_id self := self]> (nodes w)) w).
Proof.
  intros Hok k n. simpl. destruct (decide (k = system_id self)) as [->|Hne].
  - rewrite lookup_insert_eq. by intros [= <-].
  - rewrite lookup_insert_ne by done. apply Hok.
Qed.

Lemma world_ok_log_effect e w : world_ok w → world_ok (log_effect e w).
Proof. done. Qed.

Lemma get_effective_power_parameters_ext w1 w2 n :
  macaddresses w1 = macaddresses w2 →
  get_effective_power_parameters w1 n = get_effective_power_parameters w2 n.
Proof.
  intros Hm. unfold get_effective_power_parameters, get_primary_mac, macaddress_set.
  by rewrite Hm.
Qed.

Lemma get_effective_power_info_ext w1 w2 n :
  macaddresses w1 = macaddresses w2 →
  get_effective_power_info E w1 n = get_effective_power_info E w2 n.
Proof.
  intros Hm. unfold get_effective_power_info.
  by rewrite (get_effective_power_parameters_ext w1 w2).
Qed.

(** A batch of one node that is not allocated leaves the tables alone. *)
Lemma start_nodes_single_tables n user ud w r w' :
  world_ok w → nodes w !! system_id n = Some n → status n ≠ ALLOCATED →
  start_nodes E [system_id n] user ud w = (r, w') →
  nodes w' = nodes w.
Proof.
  intros Hok Hn Hst Hs.
  eapply start_nodes_none_allocated_tables in Hs as [? _]; [done|].
  rewrite (get_nodes_singleton w user _ n Hok Hn).
  case_decide; repeat constructor. done.
Qed.

Lemma start_failure_keeps_row n user ud w e w2 :
  world_ok w →
  let w1 := set_nodes (<[system_id n := n]> (nodes w)) w in
  status n ≠ ALLOCATED →
  start_nodes E [system_id n] user ud w1 = (Raise e, w2) →
  get_db_state w2 n = Some (status n).
Proof.
  intros Hok w1 Hst Hs. unfold get_db_state.
  rewrite (start_nodes_single_tables n user ud w1 (Raise e) w2); try done.
  - subst w1. simpl. by rewrite lookup_insert_eq.
  - by apply world_ok_save.
  - subst w1. simpl. by rewrite lookup_insert_eq.
Qed.

Lemma start_commissioning_rollback user self w e w2 :
  world_ok w →
  let n1 := set_status COMMISSIONING self in
  let w1 := set_nodes (<[system_id self := n1]> (nodes w))
              (log_effect (ClearResults (system_id self)) w) in
  validate_transition E (get_db_state w self) COMMISSIONING = Ok tt →
  start_nodes E [system_id self] user (Some (commissioning_user_data E self)) w1
    = (Raise e, w2) →
  validate_transition E (Some COMMISSIONING) (status self) = Ok tt →
  start_commissioning E user (self, w) =
    (Raise e, (self, set_nodes (<[system_id self := self]> (nodes w2)) w2)).
Proof.
  intros Hok n1 w1 Hv1 Hs Hv2.
  pose proof (start_failure_keeps_row n1 user
                (Some (commissioning_user_data E self))
                (log_effect (ClearResults (system_id self)) w) e w2) as Hdb.
  simpl in Hdb. specialize (Hdb (world_ok_log_effect _ _ Hok) ltac:(done) Hs).
  unfold start_commissioning, bind, try_except, self_node, update_world,
    update_self, in_world. simpl.
  rewrite save_spec. simpl.
  replace (get_db_state (log_effect (ClearResults (system_id self)) w)
             (set_status COMMISSIONING self))
    with (get_db_state w self) by done.
  rewrite Hv1. simpl. fold n1. fold w1. rewrite Hs. simpl.
  rewrite save_spec. simpl.
  replace (get_db_state w2 (set_status (status self) n1))
    with (get_db_state w2 n1) by done.
  rewrite Hdb. simpl. rewrite Hv2. unfold raise. simpl.
  change (set_status (status self) n1) with (set_status (status self) self).
  by rewrite set_status_same.
Qed.

Lemma start_disk_erasing_failure user self w e w2 :
  world_ok w →
  let n1 := set_status DISK_ERASING self in
  let w1 := set_nodes (<[system_id self := n1]> (nodes w)) w in
  validate_transition E (get_db_state w self) DISK_ERASING = Ok tt →
  start_nodes E [system_id self] user (Some (disk_erasing_user_data E self)) w1
    = (Raise e, w2) →
  validate_transition E (Some DISK_ERASING) FAILED_DISK_ERASING = Ok tt →
  start_disk_erasing E user (self, w) =
    (Raise e,
     (set_status FAILED_DISK_ERASING self,
      set_nodes (<[system_id self := set_status FAILED_DISK_ERASING self]> (nodes w2)) w2)).
Proof.
  intros Hok n1 w1 Hv1 Hs Hv2.
  pose proof (start_failure_keeps_row n1 user
                (Some (disk_erasing_user_data E self)) w e w2) as Hdb.
  simpl in Hdb. specialize (Hdb Hok ltac:(done) Hs).
  unfold start_disk_erasing, bind, try_except, self_node, update_self, in_world.
  simpl. rewrite save_spec. simpl.
  replace (get_db_state w (set_status DISK_ERASING self))
    with (get_db_state w self) by done.
  rewrite Hv1. simpl. fold n1. fold w1. rewrite Hs. simpl.
  rewrite save_spec. simpl.
  replace (get_db_state w2 (set_status FAILED_DISK_ERASING n1))
    with (get_db_state w2 n1) by done.
  rewrite Hdb. simpl. rewrite Hv2. done.
Qed.

Lemma accept_enlistment_new user self w :
  status self = NEW ->
  accept_enlistment E user (self, w) =
    match start_commissioning E user (self, w) with
    | (Ok _, s') => (Ok (Some (fst s')), s')
    | (Raise e, s') => (Raise e, s')
    end.
Proof.
  intros Hst. unfold accept_enlistment, bind, self_node. simpl.
  rewrite decide_False by (rewrite Hst; apply new_not_accepted).
  rewrite decide_False by (rewrite Hst; intros ?; done).
  by destruct (start_commissioning E user (self, w)) as [[[]|e] [n' w']].
Qed.

(** [start_nodes] on one startable node that is not allocated: the
    calls it logs, and its result as decided by the wait. *)
Lemma start_nodes_single_dispatch n user ud w info :
  world_ok w → nodes w !! system_id n = Some n → status n ≠ ALLOCATED →
  may_edit user n → update_host_maps E ∅ = [] →
  get_effective_power_info E w n = Ok info → can_be_started info = true →
  start_nodes E [system_id n] user ud w =
    (match wait_for_power_commands (power_on_nodes E [power_request (n, info)]) with
     | Ok _ => Ok [n]
     | Raise e => Raise e
     end,
     log_effect (PowerOnNodes [power_request (n, info)])
       (log_effect (ChangeDNSZones (list_to_set [nodegroup n]))
          (log_effect (UpdateHostMaps ∅)
             (log_effect (BulkSetUserData [system_id n] ud) w)))).
Proof.
  intros Hok Hn Hst Hedit Hhm Hinfo Hcan.
  pose proof (get_nodes_singleton w user _ n Hok Hn) as Hns.
  rewrite decide_True in Hns by done.
  rewrite start_nodes_none_allocated by (rewrite Hns; repeat constructor; done).
  rewrite Hns. cbv zeta. rewrite Hhm. simpl.
  match goal with
  | |- context [get_effective_power_info E ?w' n] =>
      rewrite (get_effective_power_info_ext w' w n) by done
  end.
  rewrite Hinfo, Hcan. simpl.
  destruct (wait_for_power_commands _) as [[]|e]; [|done].
  rewrite filter_cons_True by (by apply list_elem_of_singleton). done.
Qed.

(** Claim C4, as amended.  For a stored node in status new that the
    caller may edit and whose power can be started: [accept_enlistment]
    moves it to commissioning, saves it and attempts a power-on dispatch
    for it; when the gateway reports failure for that dispatch the caller
    receives the aggregate [MultipleFailures] carrying those failures, and
    the node ends in status new again, in memory and in its row: the
    status it had before the operation, not a failed status. *)
Theorem accept_enlistment_gateway_failure user self w info failures :
  world_ok w → nodes w !! system_id self = Some self → status self = NEW →
  may_edit user self →
  validate_transition E (Some NEW) COMMISSIONING = Ok tt →
  validate_transition E (Some COMMISSIONING) NEW = Ok tt →
  update_host_maps E ∅ = [] →
  let commissioning := set_status COMMISSIONING self in
  let dispatch := [power_request (commissioning, info)] in
  get_effective_power_info E w commissioning = Ok info →
  can_be_started info = true →
  wait_for_power_commands (power_on_nodes E dispatch) = Raise (MultipleFailures failures) →
  ∃ w',
    accept_enlistment E user (self, w) = (Raise (MultipleFailures failures), (self, w')) ∧
    nodes w' = nodes w ∧
    get_db_state w' self = Some NEW ∧
    effects w' =
      effects w ++
      [ClearResults (system_id self);
       BulkSetUserData [system_id self] (Some (commissioning_user_data E self));
       UpdateHostMaps ∅;
       ChangeDNSZones (list_to_set [nodegroup self]);
       PowerOnNodes dispatch].
Proof.
  intros Hok Hn Hst Hedit Hv1 Hv2 Hhm n1 dispatch Hinfo Hcan Hwait.
  set (w0 := log_effect (ClearResults (system_id self)) w).
  set (w1 := set_nodes (<[system_id self := n1]> (nodes w)) w0).
  set (w2 := log_effect (PowerOnNodes dispatch)
               (log_effect (ChangeDNSZones (list_to_set [nodegroup self]))
                  (log_effect (UpdateHostMaps ∅)
                     (log_effect
                        (BulkSetUserData [system_id self]
                           (Some (commissioning_user_data E self))) w1)))).
  assert (Hs : start_nodes E [system_id self] user
                 (Some (commissioning_user_data E self)) w1
               = (Raise (MultipleFailures failures), w2)).
  { pose proof (start_nodes_single_dispatch n1 user
                  (Some (commissioning_user_data E self)) w1 info) as Hd.
    simpl in Hd. rewrite Hd; clear Hd.
    - fold dispatch. by rewrite Hwait.
    - apply (world_ok_save n1 w0). by apply world_ok_log_effect.
    - by rewrite lookup_insert_eq.
    - done.
    - destruct user; [|done]. exact Hedit.
    - done.
    - by rewrite <- (get_effective_power_info_ext w w1).
    - done. }
  eexists. split.
  - unfold accept_enlistment, bind, self_node. simpl.
    rewrite decide_False by (rewrite Hst; apply new_not_accepted).
    rewrite decide_False by (rewrite Hst; intros ?; done).
    pose proof (start_commissioning_rollback user self w
                  (MultipleFailures failures) w2 Hok) as Hr.
    simpl in Hr. rewrite Hr; clear Hr.
    + done.
    + unfold get_db_state. rewrite Hn. simpl. by rewrite Hst.
    + exact Hs.
    + by rewrite Hst.
  - simpl. split_and!.
    + rewrite insert_insert_eq. by apply insert_id.
    + unfold get_db_state. simpl. rewrite lookup_insert_eq. simpl. by rewrite Hst.
    + by rewrite <- !app_assoc.
Qed.
End Lifecycle.

Lemma accept_enlistment_gateway_failure_witness :
  world_ok world_abc /\
  nodes world_abc !! "node-c" = Some node_c /\
  may_edit (Some admin) node_c /\
  get_effective_power_info failing_gateway_env world_abc
    (set_status COMMISSIONING node_c)
    = Ok (mkPowerInfo true true true (Some "ipmi")
            (Some (get_effective_power_parameters world_abc
                     (set_status COMMISSIONING node_c)))) /\
  fst (accept_enlistment failing_gateway_env (Some admin) (node_c, world_abc))
    = Raise (MultipleFailures ["power on failed: node-c"]) /\
  fst (snd (accept_enlistment failing_gateway_env (Some admin) (node_c, world_abc)))
    = node_c /\
  nodes (snd (snd (accept_enlistment failing_gateway_env (Some admin)
                     (node_c, world_abc)))) = nodes world_abc.
Proof.
  split; [exact (sample_world_ok _ _)|].
  split; [vm_compute; reflexivity|].
  split; [left; reflexivity|].
  split; [vm_compute; reflexivity|].
  destruct (accept_enlistment_gateway_failure failing_gateway_env (Some admin)
              node_c world_abc
              (mkPowerInfo true true true (Some "ipmi")
                 (Some (get_effective_power_parameters world_abc
                          (set_status COMMISSIONING node_c))))
              ["power on failed: node-c"]
              (sample_world_ok _ _)) as (w' & Heq & Hnodes & _);
    [vm_compute; reflexivity | reflexivity | left; reflexivity
    | vm_compute; reflexivity | vm_compute; reflexivity | reflexivity
    | vm_compute; reflexivity | reflexivity | vm_compute; reflexivity |].
  rewrite Heq. simpl. split_and!; [done | done | exact Hnodes].
Defined.

Lemma accept_enlistment_failure_ends_new :
  fst (accept_enlistment failing_gateway_env (Some admin) (node_c, world_abc))
    = Raise (MultipleFailures ["power on failed: node-c"]) /\
  status (fst (snd (accept_enlistment failing_gateway_env (Some admin)
                      (node_c, world_abc)))) = NEW /\
  get_db_state
    (snd (snd (accept_enlistment failing_gateway_env (Some admin) (node_c, world_abc))))
    node_c = Some NEW /\
  get_failed_status COMMISSIONING = Some FAILED_COMMISSIONING.
Proof. vm_compute. done. Qed.

(** ** Deleting a node *)

Section Delete.
Context (E : Env).

Lemma delete_node_allocated self w :
  status self = ALLOCATED →
  delete_node E (self, w) =
    (Raise (NodeStateViolation
              ("Cannot delete node " +:+ system_id self +:+
               ": node is in state " +:+
               NODE_STATUS_CHOICES_DICT E (status self) +:+ ".")),
     (self, w)).
Proof. intros Hst. unfold delete_node, bind. simpl. by rewrite decide_True. Qed.

(** [delete] on a node that is not allocated, step by step. *)
Lemma delete_node_not_allocated self w :
  status self ≠ ALLOCATED →
  delete_node E (self, w) =
    let ips := host_map_ips w self in
    let w1 := set_staticipaddresses
                (filter (fun r => r.2 ∉ mac_address <$> macaddress_set w self)
                   (staticipaddresses w)) w in
    if decide (0 < size ips) then
      let w2 := log_effect (RemoveHostMaps (nodegroup self) ips) w1 in
      if decide (length (remove_host_maps E (nodegroup self) ips) ≠ 0)
      then (Raise (MultipleFailures (remove_host_maps E (nodegroup self) ips)),
            (self, w2))
      else
        (Ok tt,
         (self,
          set_nodes (delete (system_id self) (nodes w))
            (set_dhcpleases
               (filter (fun l => l.2 ∉ mac_address <$> macaddress_set w self)
                  (dhcpleases w))
               (set_macaddresses
                  (filter (fun m => mac_node m ≠ system_id self) (macaddresses w))
                  w2))))
    else
      (Ok tt,
       (self,
        set_nodes (delete (system_id self) (nodes w))
          (set_dhcpleases
             (filter (fun l => l.2 ∉ mac_address <$> macaddress_set w self)
                (dhcpleases w))
             (set_macaddresses
                (filter (fun m => mac_node m ≠ system_id self) (macaddresses w))
                w1)))).
Proof.
  intros Hst. unfold delete_node, bind. simpl.
  rewrite decide_False by done. simpl.
  unfold delete_host_maps, bind, host_map_ips. simpl.
  repeat case_decide; try done.
Qed.

Lemma delete_node_host_maps_fail self w :
  status self ≠ ALLOCATED →
  0 < size (host_map_ips w self) →
  remove_host_maps E (nodegroup self) (host_map_ips w self) ≠ [] →
  delete_node E (self, w) =
    (Raise (MultipleFailures
              (remove_host_maps E (nodegroup self) (host_map_ips w self))),
     (self,
      log_effect (RemoveHostMaps (nodegroup self) (host_map_ips w self))
        (set_staticipaddresses
           (filter (fun r => r.2 ∉ mac_address <$> macaddress_set w self)
              (staticipaddresses w)) w))).
Proof.
  intros Hst Hsize Hfail. rewrite delete_node_not_allocated by done. cbv zeta.
  rewrite decide_True by done. rewrite decide_True; [done|].
  destruct (remove_host_maps E _ _); simpl; [done | lia].
Qed.

Lemma delete_node_completes self w :
  status self ≠ ALLOCATED →
  (size (host_map_ips w self) = 0 ∨
   remove_host_maps E (nodegroup self) (host_map_ips w self) = []) →
  ∃ w', delete_node E (self, w) = (Ok tt, (self, w')) ∧
        nodes w' = delete (system_id self) (nodes w).
Proof.
  intros Hst Hcase. rewrite delete_node_not_allocated by done. cbv zeta.
  destruct (decide (0 < size (host_map_ips w self))) as [Hs|Hs].
  - destruct Hcase as [Hz|Hnil]; [lia|]. rewrite Hnil. simpl.
    eexists. split; [reflexivity|done].
  - eexists. split; [reflexivity|done].
Qed.
(** Claim C6.  Deleting a node whose status is allocated fails with the
    "Cannot delete node" violation before anything else happens: the
    object, every table and the log of collaborator calls are as they
    were.  For a node in any other status whose host maps have to be
    withdrawn, a failure of that withdrawal makes the delete fail with the
    aggregate of the withdrawal's failures, and the node's row, its MAC
    addresses and its leases are still there.  When there is nothing to
    withdraw, or the withdrawal succeeds, the row is removed. *)
Theorem delete_refused_or_aborted self w :
  (status self = ALLOCATED ->
   delete_node E (self, w) =
     (Raise (NodeStateViolation
               ("Cannot delete node " +:+ system_id self +:+
                ": node is in state " +:+
                NODE_STATUS_CHOICES_DICT E (status self) +:+ ".")),
      (self, w))) /\
  (status self <> ALLOCATED ->
   0 < size (host_map_ips w self) ->
   remove_host_maps E (nodegroup self) (host_map_ips w self) <> [] ->
   exists w',
     delete_node E (self, w) =
       (Raise (MultipleFailures
                 (remove_host_maps E (nodegroup self) (host_map_ips w self))),
        (self, w')) /\
     nodes w' = nodes w /\ macaddresses w' = macaddresses w /\
     dhcpleases w' = dhcpleases w /\
     effects w' =
       effects w ++ [RemoveHostMaps (nodegroup self) (host_map_ips w self)]) /\
  (status self <> ALLOCATED ->
   size (host_map_ips w self) = 0 \/
   remove_host_maps E (nodegroup self) (host_map_ips w self) = [] ->
   exists w',
     delete_node E (self, w) = (Ok tt, (self, w')) /\
     nodes w' = delete (system_id self) (nodes w)).
Proof.
  split_and!.
  - apply delete_node_allocated.
  - intros Hst Hsize Hfail. eexists. split.
    + by apply delete_node_host_maps_fail.
    + done.
  - apply delete_node_completes.
Qed.
End Delete.

Lemma delete_refused_or_aborted_witness :
  delete_node sample_env (node_a, world_exhausted) =
    (Raise (NodeStateViolation
              "Cannot delete node node-a: node is in state Allocated."),
     (node_a, world_exhausted)) /\
  fst (delete_node failing_gateway_env (node_r, world_exhausted))
    = Raise (MultipleFailures ["host map removal failed"]) /\
  nodes (snd (snd (delete_node failing_gateway_env (node_r, world_exhausted))))
    = nodes world_exhausted.
Proof.
  split.
  - apply (proj1 (delete_refused_or_aborted sample_env node_a world_exhausted)).
    reflexivity.
  - destruct (proj1 (proj2 (delete_refused_or_aborted failing_gateway_env node_r
                              world_exhausted)))
      as (w' & Heq & Hnodes & _);
      [discriminate | vm_compute; lia | discriminate |].
    rewrite Heq. simpl. split; [done | exact Hnodes].
Defined.

(** ** Deployment and power-off through the batch operations *)

Lemma list_filter_iff_elem_of {A} (P Q : A → Prop)
    `{!∀ x, Decision (P x)} `{!∀ x, Decision (Q x)} (l : list A) :
  (∀ x, x ∈ l → P x ↔ Q x) → filter P l = filter Q l.
Proof.
  induction l as [|x l IH]; intros Hx; [done|].
  assert (Hl : ∀ y, y ∈ l → P y ↔ Q y) by (intros y Hy; apply Hx; by right).
  destruct (decide (P x)) as [HP|HP].
  - rewrite !filter_cons_True; [by rewrite IH | apply Hx; [by left | done] | done].
  - rewrite !filter_cons_False; [by apply IH | | done].
    intros HQ. apply HP, Hx; [by left | done].
Qed.

Section Deployment.
Context (E : Env).

(** [start_nodes] on one allocated, startable node whose claim succeeds:
    the node is saved as deploying, its monitor is started, and the result
    is decided by the wait on its power-on dispatch. *)
Lemma start_nodes_single_allocated n user ud w claims w1 info :
  world_ok w → nodes w !! system_id n = Some n → status n = ALLOCATED →
  may_edit user n →
  claim_static_ip_addresses E (n, log_effect (BulkSetUserData [system_id n] ud) w)
    = (Ok claims, (n, w1)) →
  validate_transition E (Some ALLOCATED) DEPLOYING = Ok tt →
  getClientFor E (nodegroup n) = None →
  update_host_maps E
    (if is_pxe_mac_on_managed_interface w n
     then update_static_mappings (nodegroup n) claims ∅ else ∅) = [] →
  get_effective_power_info E w (set_status DEPLOYING n) = Ok info →
  can_be_started info = true →
  ∃ w',
    start_nodes E [system_id n] user ud w =
      (match wait_for_power_commands
               (power_on_nodes E [power_request (set_status DEPLOYING n, info)]) with
       | Ok _ => Ok [set_status DEPLOYING n]
       | Raise e => Raise e
       end, w') ∧
    nodes w' = <[system_id n := set_status DEPLOYING n]> (nodes w) ∧
    staticipaddresses w' = staticipaddresses w1 ∧
    effects w' =
      effects w ++
      [BulkSetUserData [system_id n] ud;
       StartMonitors (nodegroup n) (system_id n) DEPLOYING get_deployment_time;
       UpdateHostMaps
         (if is_pxe_mac_on_managed_interface w n
          then update_static_mappings (nodegroup n) claims ∅ else ∅);
       ChangeDNSZones (list_to_set [nodegroup n]);
       PowerOnNodes [power_request (set_status DEPLOYING n, info)]].
Proof.
  intros Hok Hn Hst Hedit Hclaim Hv Hclient Hhm Hinfo Hcan.
  pose proof (get_nodes_singleton w user _ n Hok Hn) as Hns.
  rewrite decide_True in Hns by done.
  pose proof Hclaim as Hframe.
  apply claim_static_ip_addresses_self in Hframe as (_ & Hn1 & Hm1 & Hl1 & He1).
  simpl in Hn1, Hm1, Hl1, He1.
  unfold start_nodes, bind, get, modify, lift_result. cbv beta iota zeta.
  rewrite Hns. simpl. rewrite decide_True by done.
  unfold bind, on_object, get. rewrite Hclaim. simpl.
  unfold start_deployment, bind, update_self. simpl.
  rewrite save_spec. simpl.
  replace (get_db_state w1 (set_status DEPLOYING n)) with (Some ALLOCATED)
    by (unfold get_db_state; simpl; rewrite Hn1, Hn; simpl; by rewrite Hst).
  rewrite Hv. simpl. unfold start_transition_monitor. simpl. rewrite Hclient. simpl.
  assert (Hpxe : is_pxe_mac_on_managed_interface w1 n
                 = is_pxe_mac_on_managed_interface w n).
  { unfold is_pxe_mac_on_managed_interface, get_pxe_mac, macaddress_set.
    by rewrite Hm1. }
  rewrite Hpxe, Hhm. simpl.
  match goal with
  | |- context [get_effective_power_info E ?w' (set_status DEPLOYING n)] =>
      rewrite (get_effective_power_info_ext E w' w (set_status DEPLOYING n))
        by (simpl; exact Hm1)
  end.
  rewrite Hinfo, Hcan. simpl.
  destruct (wait_for_power_commands
              (power_on_nodes E [power_request (set_status DEPLOYING n, info)]))
    as [[]|e]; simpl.
  - rewrite filter_cons_True by (by apply list_elem_of_singleton).
    eexists. split; [reflexivity|]. simpl.
    rewrite Hn1, He1. by rewrite <- !app_assoc.
  - eexists. split; [reflexivity|]. simpl.
    rewrite Hn1, He1. by rewrite <- !app_assoc.
Qed.

(** Property X1.  Deployment start is not undone.  When [start_nodes] has
    claimed the addresses of an allocated node and saved it as deploying,
    and the power-on dispatch then fails, the aggregate is raised, the
    node's row stays deploying and the claimed addresses stay recorded. *)
Theorem deployment_start_is_not_rolled_back n user ud w claims w1 info failures :
  world_ok w → nodes w !! system_id n = Some n → status n = ALLOCATED →
  may_edit user n →
  claim_static_ip_addresses E (n, log_effect (BulkSetUserData [system_id n] ud) w)
    = (Ok claims, (n, w1)) →
  validate_transition E (Some ALLOCATED) DEPLOYING = Ok tt →
  getClientFor E (nodegroup n) = None →
  update_host_maps E
    (if is_pxe_mac_on_managed_interface w n
     then update_static_mappings (nodegroup n) claims ∅ else ∅) = [] →
  get_effective_power_info E w (set_status DEPLOYING n) = Ok info →
  can_be_started info = true →
  wait_for_power_commands
    (power_on_nodes E [power_request (set_status DEPLOYING n, info)])
    = Raise (MultipleFailures failures) →
  ∃ w',
    start_nodes E [system_id n] user ud w = (Raise (MultipleFailures failures), w') ∧
    nodes w' !! system_id n = Some (set_status DEPLOYING n) ∧
    staticipaddresses w' = staticipaddresses w1.
Proof.
  intros Hok Hn Hst Hedit Hclaim Hv Hclient Hhm Hinfo Hcan Hwait.
  destruct (start_nodes_single_allocated n user ud w claims w1 info)
    as (w' & Heq & Hnodes & Hips & _); try done.
  rewrite Hwait in Heq. exists w'. split_and!; [done | | done].
  rewrite Hnodes. by rewrite lookup_insert_eq.
Qed.

(** Property X2.  The deployment scenario of the specification.  For an
    allocated node whose claim, host-map update and power-on dispatch all
    succeed, [start_nodes] returns the node, now deploying, and has, in
    this order, started its monitor, updated the host maps with the
    claimed pairs, and dispatched its power-on. *)
Theorem power_on_allocated_node n user ud w claims w1 info :
  world_ok w → nodes w !! system_id n = Some n → status n = ALLOCATED →
  may_edit user n →
  claim_static_ip_addresses E (n, log_effect (BulkSetUserData [system_id n] ud) w)
    = (Ok claims, (n, w1)) →
  validate_transition E (Some ALLOCATED) DEPLOYING = Ok tt →
  getClientFor E (nodegroup n) = None →
  update_host_maps E
    (if is_pxe_mac_on_managed_interface w n
     then update_static_mappings (nodegroup n) claims ∅ else ∅) = [] →
  get_effective_power_info E w (set_status DEPLOYING n) = Ok info →
  can_be_started info = true →
  wait_for_power_commands
    (power_on_nodes E [power_request (set_status DEPLOYING n, info)]) = Ok tt →
  ∃ w',
    start_nodes E [system_id n] user ud w = (Ok [set_status DEPLOYING n], w') ∧
    nodes w' !! system_id n = Some (set_status DEPLOYING n) ∧
    effects w' =
      effects w ++
      [BulkSetUserData [system_id n] ud;
       StartMonitors (nodegroup n) (system_id n) DEPLOYING get_deployment_time;
       UpdateHostMaps
         (if is_pxe_mac_on_managed_interface w n
          then update_static_mappings (nodegroup n) claims ∅ else ∅);
       ChangeDNSZones (list_to_set [nodegroup n]);
       PowerOnNodes [power_request (set_status DEPLOYING n, info)]].
Proof.
  intros Hok Hn Hst Hedit Hclaim Hv Hclient Hhm Hinfo Hcan Hwait.
  destruct (start_nodes_single_allocated n user ud w claims w1 info)
    as (w' & Heq & Hnodes & _ & Heff); try done.
  rewrite Hwait in Heq. exists w'. split_and!; [done | | done].
  rewrite Hnodes. by rewrite lookup_insert_eq.
Qed.

(** Nodes that cannot be stopped are left out of a power-off batch. *)
Lemma gen_power_info_stop_stoppable w mode ns l :
  gen_power_info_stop E w mode ns = Ok l →
  fst <$> l =
    filter (fun n => power_type n ≠ "" ∧ power_type n ≠ "ether_wake") ns.
Proof.
  revert l. induction ns as [|n ns IH]; intros l; simpl.
  - by intros [= <-].
  - destruct (decide (power_type n = "")) as [Hpt|Hpt].
    + rewrite get_effective_power_info_unconfigured by done.
      destruct (gen_power_info_stop E w mode ns) as [l'|]; [|done].
      intros [= <-]. simpl. rewrite filter_cons_False by tauto. by apply IH.
    + rewrite get_effective_power_info_configured by done.
      destruct (gen_power_info_stop E w mode ns) as [l'|]; [|done].
      intros [= <-]. simpl. case_decide as Hw; simpl.
      * rewrite filter_cons_False by tauto. by apply IH.
      * rewrite filter_cons_True by done. f_equal. by apply IH.
Qed.

(** Property X3.  The wake-on-LAN scenario of the specification.
    [stop_nodes] sends a power-off request for exactly the resolved nodes
    whose power type is configured and is not ["ether_wake"]; the others
    are left out of the dispatch and of the returned list, and raise
    nothing: the only error [stop_nodes] can raise is that of the wait on
    the requests it sent. *)
Theorem stop_nodes_skips_wake_only ids user stop_mode w :
  world_ok w →
  ∃ reqs,
    snd (stop_nodes E ids user stop_mode w) = log_effect (PowerOffNodes reqs) w ∧
    (fun r => r.1.1.1) <$> reqs =
      system_id <$>
        filter (fun n => power_type n ≠ "" ∧ power_type n ≠ "ether_wake")
          (get_nodes w user PERM_EDIT (Some ids)) ∧
    (∀ e, fst (stop_nodes E ids user stop_mode w) = Raise e ↔
          wait_for_power_commands (power_off_nodes E reqs) = Raise e) ∧
    (∀ acted,
       fst (stop_nodes E ids user stop_mode w) = Ok acted →
       acted =
         filter (fun n => power_type n ≠ "" ∧ power_type n ≠ "ether_wake")
           (get_nodes w user PERM_EDIT (Some ids))).
Proof.
  intros Hok.
  unfold stop_nodes, bind, get, modify, lift_result. cbv beta iota zeta.
  set (ns := get_nodes w user PERM_EDIT (Some ids)).
  destruct (gen_power_info_stop_total E w stop_mode ns) as [l Hl]. rewrite Hl.
  pose proof (gen_power_info_stop_stoppable w stop_mode ns l Hl) as Hfst.
  assert (Hids : (fun r : NodePowerRequest => r.1.1.1) <$> (power_request <$> l)
                 = system_id <$>
                     filter (fun n => power_type n ≠ "" ∧ power_type n ≠ "ether_wake") ns).
  { rewrite <- Hfst, <- !list_fmap_compose. done. }
  exists (power_request <$> l). split_and!.
  - by destruct (wait_for_power_commands _) as [[]|e].
  - exact Hids.
  - intros e. destruct (wait_for_power_commands _) as [[]|e']; simpl;
      split; congruence.
  - intros acted. destruct (wait_for_power_commands _) as [[]|e']; cbn [fst]; [|done].
    intros [= <-]. apply list_filter_iff_elem_of. intros n Hn.
    change (system_id n ∈ (fun r : NodePowerRequest => r.1.1.1) <$> (power_request <$> l)
            ↔ power_type n ≠ "" ∧ power_type n ≠ "ether_wake").
    rewrite Hids. split.
    + intros (n' & Heq & Hin)%list_elem_of_fmap.
      apply list_elem_of_filter in Hin as [Hpt Hin].
      assert (n = n') as ->; [|done].
      apply (elem_of_get_nodes _ _ _ _ _ Hok) in Hn, Hin.
      rewrite Heq in Hn. congruence.
    + intros Hpt. apply list_elem_of_fmap. exists n. split; [done|].
      by apply list_elem_of_filter.
Qed.
End Deployment.

(** ** Power failure after an interim status *)

Section Rollback.
Context (E : Env).

(** Claim C5, as amended.  When [start_commissioning] has moved the node
    to commissioning and saved it, and the power dispatch then fails, the
    node's status is put back to the value it had before the operation and
    saved again before the error is re-raised (the table allowing the way
    back); [accept_enlistment] on a new node is this same operation.
    [start_disk_erasing] instead moves the node to failed disk erasing,
    saves it and re-raises; [release_or_erase] with erasing enabled is that
    operation run for the owner.  Deployment start is the other exception:
    when [start_nodes] has claimed the addresses of an allocated node and
    [start_deployment] has saved it as deploying, and the power dispatch
    then fails, the error is raised and the node's row stays deploying. *)
Theorem power_failure_restores_status user self w e w2 user_data claims w1 info :
  world_ok w ->
  (validate_transition E (get_db_state w self) COMMISSIONING = Ok tt ->
   start_nodes E [system_id self] user (Some (commissioning_user_data E self))
     (set_nodes (<[system_id self := set_status COMMISSIONING self]> (nodes w))
        (log_effect (ClearResults (system_id self)) w))
     = (Raise e, w2) ->
   validate_transition E (Some COMMISSIONING) (status self) = Ok tt ->
   exists w',
     start_commissioning E user (self, w) = (Raise e, (self, w')) /\
     nodes w' !! system_id self = Some self /\
     (status self = NEW ->
      accept_enlistment E user (self, w) = (Raise e, (self, w')))) /\
  (validate_transition E (get_db_state w self) DISK_ERASING = Ok tt ->
   start_nodes E [system_id self] user (Some (disk_erasing_user_data E self))
     (set_nodes (<[system_id self := set_status DISK_ERASING self]> (nodes w)) w)
     = (Raise e, w2) ->
   validate_transition E (Some DISK_ERASING) FAILED_DISK_ERASING = Ok tt ->
   exists w',
     start_disk_erasing E user (self, w) =
       (Raise e, (set_status FAILED_DISK_ERASING self, w')) /\
     nodes w' !! system_id self = Some (set_status FAILED_DISK_ERASING self)) /\
  (enable_disk_erasing_on_release E = true ->
   release_or_erase E (self, w) = start_disk_erasing E (owner self) (self, w)) /\
  (nodes w !! system_id self = Some self ->
   status self = ALLOCATED ->
   may_edit user self ->
   claim_static_ip_addresses E
     (self, log_effect (BulkSetUserData [system_id self] user_data) w)
     = (Ok claims, (self, w1)) ->
   validate_transition E (Some ALLOCATED) DEPLOYING = Ok tt ->
   getClientFor E (nodegroup self) = None ->
   update_host_maps E
     (if is_pxe_mac_on_managed_interface w self
      then update_static_mappings (nodegroup self) claims ∅ else ∅) = [] ->
   get_effective_power_info E w (set_status DEPLOYING self) = Ok info ->
   can_be_started info = true ->
   wait_for_power_commands
     (power_on_nodes E [power_request (set_status DEPLOYING self, info)])
     = Raise e ->
   exists w',
     start_nodes E [system_id self] user user_data w = (Raise e, w') /\
     nodes w' !! system_id self = Some (set_status DEPLOYING self)).
Proof.
  intros Hok. split_and!.
  - intros Hv1 Hs Hv2. eexists. split_and!.
    + by apply (start_commissioning_rollback E user self w e w2).
    + simpl. by rewrite lookup_insert_eq.
    + intros Hst. rewrite accept_enlistment_new by done.
      by rewrite (start_commissioning_rollback E user self w e w2).
  - intros Hv1 Hs Hv2. eexists. split.
    + by apply (start_disk_erasing_failure E user self w e w2).
    + simpl. by rewrite lookup_insert_eq.
  - intros Hen. unfold release_or_erase. by rewrite Hen.
  - intros Hn Hst Hedit Hclaim Hv Hclient Hhm Hinfo Hcan Hwait.
    destruct (start_nodes_single_allocated E self user user_data w claims w1 info)
      as (w' & Heq & Hnodes & _); try done.
    rewrite Hwait in Heq. exists w'. split; [done|].
    rewrite Hnodes. by rewrite lookup_insert_eq.
Qed.
End Rollback.

Lemma power_failure_restores_status_witness :
  world_ok world_abc /\
  (fst (start_commissioning failing_gateway_env (Some admin) (node_r, world_abc))
     = Raise (MultipleFailures ["power on failed: node-r"]) /\
   fst (snd (start_commissioning failing_gateway_env (Some admin) (node_r, world_abc)))
     = node_r /\
   nodes (snd (snd (start_commissioning failing_gateway_env (Some admin)
                      (node_r, world_abc)))) !! "node-r" = Some node_r) /\
  (fst (start_disk_erasing failing_gateway_env (Some admin) (node_a, world_abc))
     = Raise (MultipleFailures ["power on failed: node-a"]) /\
   nodes (snd (snd (start_disk_erasing failing_gateway_env (Some admin)
                      (node_a, world_abc)))) !! "node-a"
     = Some (set_status FAILED_DISK_ERASING node_a)) /\
  (fst (start_nodes failing_gateway_env ["node-a"] (Some admin) None world_abc)
     = Raise (MultipleFailures ["power on failed: node-a"]) /\
   nodes (snd (start_nodes failing_gateway_env ["node-a"] (Some admin) None
                 world_abc)) !! "node-a"
     = Some (set_status DEPLOYING node_a)).
Proof.
  pose (claims := [("10.0.0.aa", "aa")] : list (string * string)).
  pose (w1 := snd (snd (claim_static_ip_addresses failing_gateway_env
                          (node_a, log_effect (BulkSetUserData ["node-a"] None)
                                     world_abc)))).
  pose (info := mkPowerInfo true true true (Some "ipmi")
                  (Some (get_effective_power_parameters world_abc
                           (set_status DEPLOYING node_a)))).
  split; [exact (sample_world_ok _ _)|]. split; [|split].
  - destruct (power_failure_restores_status failing_gateway_env (Some admin) node_r
                world_abc (MultipleFailures ["power on failed: node-r"])
                (snd (start_nodes failing_gateway_env ["node-r"] (Some admin)
                        (Some "commissioning-user-data")
                        (set_nodes (<["node-r" := set_status COMMISSIONING node_r]>
                                      (nodes world_abc))
                           (log_effect (ClearResults "node-r") world_abc))))
                None claims w1 info
                (sample_world_ok _ _)) as [Hc _].
    destruct Hc as (w' & Heq & Hrow & _);
      [vm_compute; reflexivity | vm_compute; reflexivity | vm_compute; reflexivity |].
    rewrite Heq. simpl. split_and!; [done | done | exact Hrow].
  - destruct (power_failure_restores_status failing_gateway_env (Some admin) node_a
                world_abc (MultipleFailures ["power on failed: node-a"])
                (snd (start_nodes failing_gateway_env ["node-a"] (Some admin)
                        (Some "disk-erasing-user-data")
                        (set_nodes (<["node-a" := set_status DISK_ERASING node_a]>
                                      (nodes world_abc)) world_abc)))
                None claims w1 info
                (sample_world_ok _ _)) as (_ & Hd & _).
    destruct Hd as (w' & Heq & Hrow);
      [vm_compute; reflexivity | vm_compute; reflexivity | vm_compute; reflexivity |].
    rewrite Heq. simpl. split; [done | exact Hrow].
  - destruct (power_failure_restores_status failing_gateway_env (Some admin) node_a
                world_abc (MultipleFailures ["power on failed: node-a"])
                world_abc None claims w1 info
                (sample_world_ok _ _)) as (_ & _ & _ & Hd).
    destruct Hd as (w' & Heq & Hrow);
      [vm_compute; reflexivity | reflexivity | left; reflexivity
      | vm_compute; reflexivity | vm_compute; reflexivity | reflexivity
      | vm_compute; reflexivity | vm_compute; reflexivity | reflexivity
      | vm_compute; reflexivity |].
    change (system_id node_a) with "node-a" in Heq, Hrow.
    rewrite Heq. cbn [fst snd]. split; [reflexivity | exact Hrow].
Defined.

(** Deployment start with a gateway that fails the power-on: the
    allocated node is left deploying. *)
Lemma deployment_start_keeps_deploying :
  nodes world_abc !! "node-a" = Some node_a /\
  status node_a = ALLOCATED /\
  fst (start_nodes failing_gateway_env ["node-a"] (Some admin) None world_abc)
    = Raise (MultipleFailures ["power on failed: node-a"]) /\
  status <$> nodes (snd (start_nodes failing_gateway_env ["node-a"] (Some admin)
                           None world_abc)) !! "node-a" = Some DEPLOYING.
Proof. vm_compute. done. Qed.

Lemma deployment_start_is_not_rolled_back_witness :
  fst (start_nodes failing_gateway_env ["node-a"] (Some admin) None world_abc)
    = Raise (MultipleFailures ["power on failed: node-a"]) ∧
  nodes (snd (start_nodes failing_gateway_env ["node-a"] (Some admin) None world_abc))
    !! "node-a" = Some (set_status DEPLOYING node_a) ∧
  staticipaddresses
    (snd (start_nodes failing_gateway_env ["node-a"] (Some admin) None world_abc))
    = [("10.0.0.aa", "aa")].
Proof.
  destruct (deployment_start_is_not_rolled_back failing_gateway_env node_a
              (Some admin) None world_abc [("10.0.0.aa", "aa")]
              (snd (snd (claim_static_ip_addresses failing_gateway_env
                           (node_a, log_effect (BulkSetUserData ["node-a"] None)
                                      world_abc))))
              (mkPowerInfo true true true (Some "ipmi")
                 (Some (get_effective_power_parameters world_abc
                          (set_status DEPLOYING node_a))))
              ["power on failed: node-a"]
              (sample_world_ok _ _)) as (w' & Heq & Hnodes & Hips);
    [vm_compute; reflexivity | reflexivity | left; reflexivity
    | vm_compute; reflexivity | vm_compute; reflexivity | reflexivity
    | vm_compute; reflexivity | vm_compute; reflexivity | reflexivity
    | vm_compute; reflexivity |].
  change (system_id node_a) with "node-a" in Heq, Hnodes.
  rewrite Heq. cbn [fst snd]. split_and!; [reflexivity | exact Hnodes |].
  rewrite Hips. vm_compute. reflexivity.
Defined.

Lemma power_on_allocated_node_witness :
  fst (start_nodes sample_env ["node-a"] (Some admin) None world_abc)
    = Ok [set_status DEPLOYING node_a] ∧
  nodes (snd (start_nodes sample_env ["node-a"] (Some admin) None world_abc))
    !! "node-a" = Some (set_status DEPLOYING node_a) ∧
  effects (snd (start_nodes sample_env ["node-a"] (Some admin) None world_abc)) =
    [BulkSetUserData ["node-a"] None;
     StartMonitors "cluster-1" "node-a" DEPLOYING get_deployment_time;
     UpdateHostMaps {[ "cluster-1" := {[ "10.0.0.aa" := "aa" ]} ]};
     ChangeDNSZones {[ "cluster-1" ]};
     PowerOnNodes
       [power_request
          (set_status DEPLOYING node_a,
           mkPowerInfo true true true (Some "ipmi")
             (Some (get_effective_power_parameters world_abc
                      (set_status DEPLOYING node_a))))]].
Proof.
  destruct (power_on_allocated_node sample_env node_a
              (Some admin) None world_abc [("10.0.0.aa", "aa")]
              (snd (snd (claim_static_ip_addresses sample_env
                           (node_a, log_effect (BulkSetUserData ["node-a"] None)
                                      world_abc))))
              (mkPowerInfo true true true (Some "ipmi")
                 (Some (get_effective_power_parameters world_abc
                          (set_status DEPLOYING node_a))))
              (sample_world_ok _ _)) as (w' & Heq & Hnodes & Heff);
    [vm_compute; reflexivity | reflexivity | left; reflexivity
    | vm_compute; reflexivity | vm_compute; reflexivity | reflexivity
    | vm_compute; reflexivity | vm_compute; reflexivity | reflexivity
    | vm_compute; reflexivity |].
  change (system_id node_a) with "node-a" in Heq, Hnodes.
  rewrite Heq. cbn [fst snd]. split_and!; [reflexivity | exact Hnodes |].
  rewrite Heff. vm_compute. reflexivity.
Defined.

Lemma stop_nodes_skips_wake_only_witness :
  world_ok world_w ∧
  get_nodes world_w (Some admin) PERM_EDIT (Some ["node-w"; "node-d"])
    = [node_w; node_d] ∧
  fst (stop_nodes sample_env ["node-w"; "node-d"] (Some admin) "hard" world_w)
    = Ok [node_d] ∧
  ∃ reqs,
    effects (snd (stop_nodes sample_env ["node-w"; "node-d"] (Some admin) "hard"
                    world_w)) = [PowerOffNodes reqs] ∧
    (fun r : NodePowerRequest => r.1.1.1) <$> reqs = ["node-d"].
Proof.
  destruct (stop_nodes_skips_wake_only sample_env ["node-w"; "node-d"] (Some admin)
              "hard" world_w (sample_world_ok _ _)) as (reqs & Hw & Hids & _).
  split_and!; [exact (sample_world_ok _ _) | vm_compute; reflexivity
              | vm_compute; reflexivity |].
  exists reqs. split; [by rewrite Hw|].
  etrans; [exact Hids | vm_compute; reflexivity].
Defined.

(** ** Host names and architectures *)

Lemma string_app_nil s : "" +:+ s = s.
Proof. done. Qed.

Lemma string_app_cons c a b : String c a +:+ b = String c (a +:+ b).
Proof. done. Qed.

Lemma string_app_nil_r s : s +:+ "" = s.
Proof. induction s as [|c s IH]; [done|]. by rewrite string_app_cons, IH. Qed.

Lemma string_app_assoc a b c : (a +:+ b) +:+ c = a +:+ b +:+ c.
Proof. induction a as [|x a IH]; [done|]. by rewrite !string_app_cons, IH. Qed.

Lemma string_length_app a b :
  String.length (a +:+ b) = String.length a + String.length b.
Proof. induction a as [|x a IH]; [done|]. rewrite string_app_cons. simpl. by rewrite IH. Qed.

Lemma split_nonempty sep s : str_split sep s <> [].
Proof.
  destruct s as [|c rest]; simpl; [done|].
  case_decide; [done|]. by destruct (str_split sep rest).
Qed.

Lemma join_cons sep p q ps :
  str_join sep (p :: q :: ps) = p +:+ String sep (str_join sep (q :: ps)).
Proof. done. Qed.

Lemma join_split sep s : str_join sep (str_split sep s) = s.
Proof.
  induction s as [|c rest IH]; simpl; [done|].
  case_decide as Hc.
  - subst c. pose proof (split_nonempty sep rest) as Hne.
    destruct (str_split sep rest) as [|p ps] eqn:Hs; [done|].
    by rewrite join_cons, IH.
  - destruct (str_split sep rest) as [|p ps] eqn:Hs.
    + by destruct (split_nonempty sep rest).
    + destruct ps as [|q ps]; [by rewrite <- IH|].
      rewrite join_cons. rewrite join_cons in IH. by rewrite <- IH.
Qed.

Lemma contains_app c a b :
  str_contains c (a +:+ b) = str_contains c a || str_contains c b.
Proof.
  induction a as [|x a IH]; [done|].
  rewrite string_app_cons. simpl. by rewrite IH, orb_assoc.
Qed.

Lemma split_no_sep sep s : Forall (fun p => str_contains sep p = false) (str_split sep s).
Proof.
  induction s as [|c rest IH]; simpl; [by repeat constructor|].
  case_decide as Hc.
  - by constructor.
  - destruct (str_split sep rest) as [|p ps].
    + repeat constructor. simpl. by rewrite bool_decide_eq_false_2.
    + inversion IH; subst. constructor; [|done].
      simpl. by rewrite bool_decide_eq_false_2.
Qed.

Lemma split_without sep s : str_contains sep s = false -> str_split sep s = [s].
Proof.
  induction s as [|c rest IH]; simpl; [done|].
  intros [Hc Hrest]%orb_false_elim. apply bool_decide_eq_false in Hc.
  rewrite decide_False by done. by rewrite IH.
Qed.

Lemma split_piece sep p s :
  str_contains sep p = false ->
  str_split sep (p +:+ String sep s) = p :: str_split sep s.
Proof.
  induction p as [|c p IH].
  - intros _. rewrite string_app_nil. simpl. by rewrite decide_True.
  - simpl. intros [Hc Hp]%orb_false_elim. apply bool_decide_eq_false in Hc.
    rewrite ?string_app_cons. simpl.
    rewrite decide_False by done. by rewrite IH.
Qed.

Lemma split_join sep ps :
  ps <> [] -> Forall (fun p => str_contains sep p = false) ps ->
  str_split sep (str_join sep ps) = ps.
Proof.
  induction ps as [|p ps IH]; [done|]. intros _ Hall.
  inversion Hall as [|? ? Hp Hps]; subst.
  destruct ps as [|q ps].
  - simpl. by apply split_without.
  - rewrite join_cons, split_piece by done. f_equal. by apply IH.
Qed.

Lemma join_app sep ps qs :
  ps <> [] -> qs <> [] ->
  str_join sep (ps ++ qs) = str_join sep ps +:+ String sep (str_join sep qs).
Proof.
  induction ps as [|p ps IH]; [done|]. intros _ Hqs.
  destruct ps as [|p' ps].
  - destruct qs; [done|]. done.
  - change ((p :: p' :: ps) ++ qs) with (p :: (p' :: ps) ++ qs).
    change ((p' :: ps) ++ qs) with (p' :: (ps ++ qs)).
    rewrite join_cons. change (p' :: (ps ++ qs)) with ((p' :: ps) ++ qs).
    rewrite IH by done. rewrite join_cons.
    by rewrite string_app_assoc.
Qed.

(** Property X4.  [split_arch] succeeds exactly on an architecture with one
    slash, and gives back its two sides. *)
Theorem split_arch_round_trip architecture :
  (forall arch subarch,
     split_arch architecture = inr (arch, subarch) <->
     architecture = arch +:+ String "/" subarch /\
     str_contains "/" arch = false /\ str_contains "/" subarch = false) /\
  (split_arch architecture = inl NeedMoreValues <->
   str_contains "/" architecture = false).
Proof.
  unfold split_arch. split.
  - intros arch subarch. split.
    + pose proof (join_split "/" architecture) as Hj.
      pose proof (split_no_sep "/" architecture) as Hn.
      destruct (str_split "/" architecture) as [|p [|q [|r ps]]]; try done.
      intros [= -> ->]. inversion Hn as [|? ? Hp Hq]; subst.
      inversion Hq; subst. by rewrite join_cons.
    + intros (-> & Ha & Hs).
      by rewrite split_piece, (split_without _ subarch).
  - split.
    + pose proof (join_split "/" architecture) as Hj.
      pose proof (split_no_sep "/" architecture) as Hn.
      destruct (str_split "/" architecture) as [|p [|q [|r ps]]] eqn:Hs; try done.
      * by destruct (split_nonempty "/" architecture).
      * intros _. simpl in Hj. subst p. by inversion Hn.
    + intros Hno. by rewrite split_without.
Qed.

(** ** Host name validation *)

Lemma all_chars_app P a b :
  all_chars P (a +:+ b) = all_chars P a && all_chars P b.
Proof.
  induction a as [|x a IH]; [done|].
  rewrite string_app_cons. simpl. by rewrite IH, andb_assoc.
Qed.

Lemma label_chars_match_spec label :
  label_chars_match label = true <->
  all_chars label_char label = true \/
  exists l, label = l +:+ String newline "" /\ all_chars label_char l = true.
Proof.
  induction label as [|c rest IH]; simpl.
  - split; [by left | done].
  - destruct (label_char c) eqn:Hc; simpl.
    + rewrite IH. split.
      * intros [Hall | (l & -> & Hl)]; [by left|].
        right. exists (String c l). rewrite string_app_cons. simpl.
        by rewrite Hc.
      * intros [Hall | (l & Heq & Hl)]; [by left|].
        destruct l as [|x l].
        { rewrite string_app_nil in Heq. injection Heq as -> ->. done. }
        rewrite string_app_cons in Heq. injection Heq as -> ->.
        simpl in Hl. apply andb_true_iff in Hl as [_ Hl]. right. by exists l.
    + split.
      * intros [Hn Hr]%andb_true_iff.
        apply bool_decide_eq_true in Hn, Hr. subst. right. by exists "".
      * intros [Hall | (l & Heq & Hl)]; [done|].
        destruct l as [|x l].
        { rewrite string_app_nil in Heq. injection Heq as -> ->. done. }
        rewrite string_app_cons in Heq. injection Heq as -> ->.
        simpl in Hl. by rewrite Hc in Hl.
Qed.

Lemma check_label_good label : check_label label = None <-> good_label label.
Proof.
  unfold check_label, good_label. rewrite <- label_chars_match_spec.
  repeat case_decide; try (split; [done | lia]).
  destruct (str_startswith "-" label), (str_endswith "-" label),
    (label_chars_match label); simpl; split; try done;
    try (by intros (_ & ? & ? & ?)).
  intros _. split_and!; (lia || done).
Qed.

Lemma check_labels_good labels :
  check_labels labels = None <-> Forall good_label labels.
Proof.
  induction labels as [|l ls IH]; simpl; [by split|].
  rewrite Forall_cons, <- IH, <- check_label_good.
  destruct (check_label l); split; try done; try tauto.
Qed.

Lemma all_label_chars_no_dot l :
  all_chars label_char l = true -> str_contains "." l = false.
Proof.
  induction l as [|c l IH]; simpl; [done|].
  intros [Hc Hl]%andb_true_iff. rewrite IH by done.
  rewrite orb_false_r. apply bool_decide_eq_false. by intros ->.
Qed.

Lemma good_label_no_dot label : good_label label -> str_contains "." label = false.
Proof.
  intros (_ & _ & _ & [Hall | (l & -> & Hl)]).
  - by apply all_label_chars_no_dot.
  - rewrite contains_app, all_label_chars_no_dot by done. done.
Qed.

(** Property X5.  The host names [validate_hostname] accepts are the names of
    at most 255 characters that are one or more good labels joined by
    dots, the first of them without an underscore. *)
Theorem validate_hostname_accepts hostname :
  validate_hostname hostname = None <->
  String.length hostname <= 255 /\
  exists label labels,
    hostname = str_join "." (label :: labels) /\
    str_contains "_" label = false /\
    Forall good_label (label :: labels).
Proof.
  unfold validate_hostname. split.
  - case_decide; [done|].
    pose proof (join_split "." hostname) as Hj.
    destruct (str_split "." hostname) as [|label labels] eqn:Hs.
    { by destruct (split_nonempty "." hostname). }
    change (default "" (head (label :: labels))) with label.
    destruct (str_contains "_" label) eqn:Hu; [done|].
    intros Hok%check_labels_good. split; [lia|]. by exists label, labels.
  - intros (Hlen & label & labels & -> & Hu & Hgood).
    rewrite decide_False by lia.
    rewrite split_join; [|done|].
    + change (default "" (head (label :: labels))) with label.
      rewrite Hu. by apply check_labels_good.
    + eapply Forall_impl; [exact Hgood|]. apply good_label_no_dot.
Qed.

Lemma split_app sep a b :
  str_split sep (a +:+ String sep b) = str_split sep a ++ str_split sep b.
Proof.
  induction a as [|c a IH].
  - rewrite string_app_nil. simpl. by rewrite decide_True.
  - rewrite string_app_cons. simpl. case_decide.
    + by rewrite IH.
    + rewrite IH. pose proof (split_nonempty sep a).
      by destruct (str_split sep a).
Qed.

Lemma check_labels_app ls1 ls2 :
  check_labels (ls1 ++ ls2) = None <->
  check_labels ls1 = None /\ check_labels ls2 = None.
Proof. by rewrite !check_labels_good, Forall_app. Qed.

Lemma startswith_app c a b :
  a <> "" -> str_startswith c (a +:+ b) = str_startswith c a.
Proof. by destruct a. Qed.

Lemma endswith_app_char c a x :
  str_endswith c (a +:+ String x "") = bool_decide (x = c).
Proof.
  induction a as [|y a IH]; [done|].
  rewrite string_app_cons. simpl. rewrite IH.
  destruct a; by rewrite ?string_app_nil, ?string_app_cons.
Qed.

(** Property X6.  A trailing newline gets through.  A label of label
    characters, with no underscore and no hyphen in front, is accepted
    as a host name once a newline is added to it, even when it ends with
    the hyphen that has it refused as it stands. *)
Theorem validate_hostname_trailing_newline label :
  1 <= String.length label <= 62 ->
  all_chars label_char label = true ->
  str_contains "_" label = false ->
  str_startswith "-" label = false ->
  validate_hostname (label +:+ String newline "") = None /\
  (str_endswith "-" label = true ->
   validate_hostname label = Some (NameHyphen label)).
Proof.
  intros Hlen Hall Hu Hs. split.
  - assert (Hl : String.length (label +:+ String newline "")
                 = String.length label + 1) by apply string_length_app.
    assert (Hgood : good_label (label +:+ String newline "")).
    { unfold good_label. split_and!; [lia | lia | | | ].
      + rewrite startswith_app; [done|]. intros ->. simpl in Hlen. lia.
      + by rewrite endswith_app_char.
      + right. by exists label. }
    unfold validate_hostname. rewrite decide_False by lia.
    rewrite split_without by by apply good_label_no_dot.
    change (default "" (head [label +:+ String newline ""]))
      with (label +:+ String newline "").
    rewrite contains_app, Hu. simpl str_contains.
    apply check_labels_good. by apply Forall_singleton.
  - intros He. unfold validate_hostname.
    rewrite decide_False by lia.
    rewrite split_without by by apply all_label_chars_no_dot.
    change (default "" (head [label])) with label. rewrite Hu.
    simpl. unfold check_label.
    rewrite decide_False by lia. rewrite decide_False by lia.
    by rewrite Hs, He.
Qed.

Lemma validate_hostname_trailing_newline_witness :
  validate_hostname ("node-" +:+ String newline "") = None /\
  validate_hostname "node-" = Some (NameHyphen "node-").
Proof.
  destruct (validate_hostname_trailing_newline "node-") as [H1 H2];
    [simpl; lia | reflexivity | reflexivity | reflexivity |].
  split; [exact H1 | apply H2; reflexivity].
Defined.

(** Property X7.  Host names compose at the dots.  Two accepted names joined
    by a dot are accepted when the result is not too long, and the part
    before a dot of an accepted name is accepted. *)
Theorem validate_hostname_join h1 h2 :
  (validate_hostname h1 = None -> validate_hostname h2 = None ->
   String.length (h1 +:+ String "." h2) <= 255 ->
   validate_hostname (h1 +:+ String "." h2) = None) /\
  (validate_hostname (h1 +:+ String "." h2) = None ->
   validate_hostname h1 = None).
Proof.
  assert (Hlen : String.length (h1 +:+ String "." h2)
                 = String.length h1 + S (String.length h2))
    by apply string_length_app.
  assert (Hhead : head (str_split "." h1 ++ str_split "." h2) = head (str_split "." h1)).
  { pose proof (split_nonempty "." h1). by destruct (str_split "." h1). }
  unfold validate_hostname. rewrite split_app, Hhead. split.
  - intros H1 H2 Hle. rewrite decide_False by lia.
    repeat case_decide; try done.
    destruct (str_contains "_" (default "" (head (str_split "." h1)))); [done|].
    destruct (str_contains "_" (default "" (head (str_split "." h2)))); [done|].
    by apply check_labels_app.
  - case_decide; [done|]. rewrite decide_False by lia.
    destruct (str_contains "_" (default "" (head (str_split "." h1)))); [done|].
    by intros [? _]%check_labels_app.
Qed.

Lemma validate_hostname_join_witness :
  validate_hostname "node_1" = Some (HostLabelUnderscore "node_1") /\
  validate_hostname "rack.my_lab" = None /\
  validate_hostname "node-1.rack.my_lab" = None /\
  validate_hostname "node-1" = None.
Proof.
  split; [reflexivity|]. split; [reflexivity|].
  split.
  - apply (proj1 (validate_hostname_join "node-1" "rack.my_lab"));
      [reflexivity | reflexivity | simpl; lia].
  - apply (proj2 (validate_hostname_join "node-1" "rack.my_lab")). reflexivity.
Defined.

(** ** Power parameters, visibility and acquisition *)

Lemma lookup_setdefault_Some k v d k' v' :
  d !! k' = Some v' -> setdefault k v d !! k' = Some v'.
Proof.
  intros Hd. unfold setdefault. destruct (d !! k) eqn:Hk; [done|].
  rewrite lookup_insert_ne; [done|]. intros ->. congruence.
Qed.

Lemma lookup_setdefault_is_Some k v d : is_Some (setdefault k v d !! k).
Proof.
  unfold setdefault. destruct (d !! k) eqn:Hk; [by rewrite Hk|].
  by rewrite lookup_insert_eq.
Qed.

Lemma is_Some_setdefault k v d k' :
  is_Some (d !! k') -> is_Some (setdefault k v d !! k').
Proof. intros [x Hx]. exists x. by apply lookup_setdefault_Some. Qed.

Lemma lookup_setdefault_None k v d k' :
  setdefault k v d !! k' = None -> d !! k' = None.
Proof.
  intros Hs. destruct (d !! k') eqn:Hd; [|done].
  by rewrite (lookup_setdefault_Some _ _ _ _ _ Hd) in Hs.
Qed.

(** Property X8.  Stored power parameters win.  Every stored parameter but
    [boot_mode] reaches the power driver as stored; [boot_mode] is always
    derived from the status, whatever is stored; the twelve parameters
    with a default are never missing; and nothing is made up beyond the
    stored keys, the defaults, [mac_address] and [boot_mode]. *)
Theorem stored_power_parameters_win w self :
  (forall k v,
     k <> "boot_mode" ->
     stored_power_parameters self !! k = Some v ->
     get_effective_power_parameters w self !! k = Some v) /\
  get_effective_power_parameters w self !! "boot_mode" =
    Some (JStr (if decide (status self = DEPLOYED) then "local" else "pxe")) /\
  (forall k, k ∈ defaulted_power_parameters ->
             is_Some (get_effective_power_parameters w self !! k)) /\
  (forall k, is_Some (get_effective_power_parameters w self !! k) ->
             is_Some (stored_power_parameters self !! k) \/
             k ∈ defaulted_power_parameters \/
             k = "mac_address" \/ k = "boot_mode").
Proof.
  unfold get_effective_power_parameters, stored_power_parameters.
  set (base := match power_parameters self with
               | pp_dict d => if decide (d = ∅) then ∅ else d
               | pp_blank => ∅
               end).
  assert (Hbase : base = match power_parameters self with
                         | pp_dict d => d
                         | pp_blank => ∅
                         end).
  { unfold base. destruct (power_parameters self); [done|]. by case_decide. }
  rewrite <- Hbase. clear Hbase. generalize base. clear base. intros base.
  cbv zeta. split_and!.
  - intros k v Hk Hs.
    assert (Hpre : forall d : gmap string JSON,
               d !! k = Some v ->
               (if decide (status self = DEPLOYED)
                then <["boot_mode" := JStr "local"]> d
                else <["boot_mode" := JStr "pxe"]> d) !! k = Some v).
    { intros d Hd. case_decide; by rewrite lookup_insert_ne. }
    apply Hpre.
    assert (Hmac : forall d : gmap string JSON,
               d !! k = Some v ->
               match d !! "mac_address" with
               | Some _ => d
               | None =>
                   match get_primary_mac w self with
                   | Some primary_mac =>
                       <["mac_address" := JStr (mac_address primary_mac)]> d
                   | None => d
                   end
               end !! k = Some v).
    { intros d Hd. destruct (d !! "mac_address") eqn:Hm; [done|].
      destruct (get_primary_mac w self); [|done].
      rewrite lookup_insert_ne; [done|]. intros <-. congruence. }
    apply Hmac. repeat apply lookup_setdefault_Some.
    destruct (decide (power_type self = "virsh"));
      by repeat apply lookup_setdefault_Some.
  - case_decide; by rewrite lookup_insert_eq.
  - intros k Hk.
    assert (Hpre : forall d : gmap string JSON,
               is_Some (d !! k) ->
               is_Some ((if decide (status self = DEPLOYED)
                         then <["boot_mode" := JStr "local"]> d
                         else <["boot_mode" := JStr "pxe"]> d) !! k)).
    { intros d Hd. case_decide; rewrite lookup_insert_is_Some'; by right. }
    apply Hpre.
    assert (Hmac : forall d : gmap string JSON,
               is_Some (d !! k) ->
               is_Some (match d !! "mac_address" with
                        | Some _ => d
                        | None =>
                            match get_primary_mac w self with
                            | Some primary_mac =>
                                <["mac_address" := JStr (mac_address primary_mac)]> d
                            | None => d
                            end
                        end !! k)).
    { intros d Hd. destruct (d !! "mac_address") eqn:Hm; [done|].
      destruct (get_primary_mac w self); [|done].
      rewrite lookup_insert_is_Some'; by right. }
    apply Hmac. unfold defaulted_power_parameters in Hk.
    clear Hpre Hmac.
    repeat (apply elem_of_cons in Hk as [-> | Hk];
            [repeat first [ apply lookup_setdefault_is_Some
                          | apply is_Some_setdefault ];
             destruct (decide (power_type self = "virsh"));
             repeat first [ apply lookup_setdefault_is_Some
                          | apply is_Some_setdefault ] |]).
    by apply elem_of_nil in Hk.
  - intros k [v Hv].
    destruct (decide (k = "boot_mode")) as [|Hb]; [tauto|].
    destruct (decide (k = "mac_address")) as [|Hm]; [tauto|].
    destruct (decide (k ∈ defaulted_power_parameters)) as [|Hd]; [tauto|].
    left.
    assert (Hne : forall k', k' ∈ defaulted_power_parameters -> k' <> k)
      by (intros k' Hk' ->; done).
    unfold defaulted_power_parameters in Hne.
    assert (Hv' : forall d : gmap string JSON,
               (if decide (status self = DEPLOYED)
                then <["boot_mode" := JStr "local"]> d
                else <["boot_mode" := JStr "pxe"]> d) !! k = d !! k).
    { intros d. case_decide; by rewrite lookup_insert_ne. }
    rewrite Hv' in Hv.
    assert (Hmac : forall d : gmap string JSON,
               match d !! "mac_address" with
               | Some _ => d
               | None =>
                   match get_primary_mac w self with
                   | Some primary_mac =>
                       <["mac_address" := JStr (mac_address primary_mac)]> d
                   | None => d
                   end
               end !! k = d !! k).
    { intros d. destruct (d !! "mac_address") eqn:Hm'; [done|].
      destruct (get_primary_mac w self); [|done].
      by rewrite lookup_insert_ne. }
    rewrite Hmac in Hv.
    rewrite !lookup_setdefault_ne in Hv
      by (apply Hne; repeat first [ by left | right ]).
    destruct (decide (power_type self = "virsh"));
      rewrite !lookup_setdefault_ne in Hv
        by (apply Hne; repeat first [ by left | right ]);
      by rewrite Hv.
Qed.

(** ** Who sees which nodes *)

Lemma filter_sublist_mono {A} (P : A -> Prop) `{!forall x, Decision (P x)} l1 l2 :
  l1 `sublist_of` l2 -> filter P l1 `sublist_of` filter P l2.
Proof.
  induction 1 as [|x l1 l2 _ IH|x l1 l2 _ IH]; [done| |].
  - destruct (decide (P x)).
    + rewrite !filter_cons_True by done. by constructor.
    + by rewrite !filter_cons_False by done.
  - destruct (decide (P x)).
    + rewrite filter_cons_True by done. by constructor.
    + by rewrite filter_cons_False by done.
Qed.

Lemma filter_sublist_impl {A} (P Q : A -> Prop)
    `{!forall x, Decision (P x)} `{!forall x, Decision (Q x)} l :
  (forall x, P x -> Q x) -> filter P l `sublist_of` filter Q l.
Proof.
  intros HPQ. induction l as [|x l IH]; [done|].
  destruct (decide (P x)) as [HP|HP].
  - rewrite !filter_cons_True by auto. by constructor.
  - rewrite (filter_cons_False P) by done. destruct (decide (Q x)).
    + rewrite filter_cons_True by done. by constructor.
    + by rewrite filter_cons_False by done.
Qed.

Lemma filter_by_ids_sublist l1 l2 ids :
  l1 `sublist_of` l2 -> filter_by_ids l1 ids `sublist_of` filter_by_ids l2 ids.
Proof. destruct ids; simpl; [apply filter_sublist_mono | done]. Qed.

Lemma elem_of_filter_by_ids n l ids :
  n ∈ filter_by_ids l ids <->
  n ∈ l /\ match ids with Some ids => system_id n ∈ ids | None => True end.
Proof.
  destruct ids; simpl; [rewrite list_elem_of_filter|]; tauto.
Qed.

Lemma elem_of_all_nodes_2 w k n : nodes w !! k = Some n -> n ∈ all_nodes w.
Proof.
  intros Hk. unfold all_nodes. apply list_elem_of_fmap.
  exists (k, n). split; [done|]. by apply elem_of_map_to_list.
Qed.

(** Property X9.  What [get_nodes] lets a user reach.  Nobody sees anything
    without a user; what a user may edit, that user may view; the admin
    permission gives an ordinary user nothing; a superuser reaches every
    node, whatever the permission asked for; and the nodes an ordinary
    user may view but not edit are the unowned ones. *)
Theorem get_nodes_permissions w ids :
  (forall perm, get_nodes w None perm ids = []) /\
  (forall user,
     get_nodes w user PERM_EDIT ids `sublist_of` get_nodes w user PERM_VIEW ids) /\
  (forall u, is_superuser u = false -> get_nodes w (Some u) PERM_ADMIN ids = []) /\
  (forall u perm,
     is_superuser u = true ->
     get_nodes w (Some u) perm ids = filter_by_ids (all_nodes w) ids) /\
  (forall u n,
     is_superuser u = false ->
     n ∈ get_nodes w (Some u) PERM_VIEW ids ->
     (n ∈ get_nodes w (Some u) PERM_EDIT ids <-> owner n = Some u) /\
     (n ∉ get_nodes w (Some u) PERM_EDIT ids <-> owner n = None)).
Proof.
  unfold get_nodes. split_and!.
  - intros perm. by destruct ids.
  - intros [u|]; simpl; [|done]. destruct (is_superuser u); [done|].
    apply filter_by_ids_sublist, filter_sublist_impl. auto.
  - intros u Hu. simpl. rewrite Hu. by destruct ids.
  - intros u perm Hu. simpl. by rewrite Hu.
  - intros u n Hu. simpl. rewrite Hu.
    rewrite !elem_of_filter_by_ids, !list_elem_of_filter.
    intros [[Ho Hall] Hids]. split; [tauto|].
    destruct Ho as [Ho|Ho]; rewrite Ho; split.
    + done.
    + by intros _ [[? _] _].
    + intros Hno. exfalso. apply Hno. tauto.
    + done.
Qed.

(** ** Acquiring a node *)

Section Acquire.
Context (E : Env).

Lemma elem_of_get_available w user n :
  n ∈ get_available_nodes_for_acquisition w user <->
  status n = READY /\ n ∈ get_nodes w user PERM_VIEW None.
Proof.
  unfold get_available_nodes_for_acquisition. cbv zeta.
  by rewrite list_elem_of_filter.
Qed.

Lemma get_nodes_all_nodes w user perm ids n :
  n ∈ get_nodes w user perm ids -> n ∈ all_nodes w.
Proof. intros Hin. eapply elem_of_sublist; [exact Hin | apply get_nodes_sublist]. Qed.

(** Property X10.  Acquiring an available node.  A node that is available to
    a user and has no owner is acquired without error when the table
    allows ready nodes to be allocated and the token, if any, is the
    user's; it is then stored as allocated to the user, the user may edit
    it, no other ordinary user reaches it, and it is available to
    nobody. *)
Theorem acquire_available user token agent n w :
  world_ok w ->
  n ∈ get_available_nodes_for_acquisition w (Some user) ->
  owner n = None ->
  token = None \/ token_user <$> token = Some user ->
  validate_transition E (Some READY) ALLOCATED = Ok tt ->
  exists w',
    acquire E user token agent (n, w) =
      (Ok tt, (set_acquired user token agent n, w')) /\
    nodes w' = <[system_id n := set_acquired user token agent n]> (nodes w) /\
    set_acquired user token agent n ∈ get_nodes w' (Some user) PERM_EDIT None /\
    (forall other perm m,
       other <> user -> is_superuser other = false ->
       m ∈ get_nodes w' (Some other) perm None -> system_id m <> system_id n) /\
    (forall anyone m,
       m ∈ get_available_nodes_for_acquisition w' anyone ->
       system_id m <> system_id n).
Proof.
  intros Hok [Hst Hin]%elem_of_get_available Hown Htok Hv.
  pose proof (elem_of_all_nodes w n Hok (get_nodes_all_nodes _ _ _ _ _ Hin)) as Hn.
  set (n' := set_acquired user token agent n).
  set (w' := set_nodes (<[system_id n := n']> (nodes w)) w).
  assert (Hok' : world_ok w') by exact (world_ok_save n' w Hok).
  assert (Hn' : nodes w' !! system_id n = Some n')
    by (simpl; by rewrite lookup_insert_eq).
  assert (Hrow : forall m, m ∈ all_nodes w' -> system_id m = system_id n -> m = n').
  { intros m Hm Hid. apply (elem_of_all_nodes w' m Hok') in Hm.
    rewrite Hid in Hm. congruence. }
  exists w'. split_and!.
  - unfold acquire, bind, self_node, update_self.
    cbv beta iota zeta delta [fst snd].
    rewrite decide_False by (rewrite Hown; tauto).
    rewrite decide_False by (destruct Htok as [->| ->]; tauto).
    fold n'. rewrite save_spec. unfold get_db_state.
    cbv beta iota zeta delta [fst snd].
    change (system_id n') with (system_id n). rewrite Hn.
    change (status <$> Some n) with (Some (status n)).
    rewrite Hst. change (status n') with ALLOCATED. by rewrite Hv.
  - done.
  - unfold get_nodes. simpl. destruct (is_superuser user).
    + by apply (elem_of_all_nodes_2 w' (system_id n)).
    + apply list_elem_of_filter. split; [done|].
      by apply (elem_of_all_nodes_2 w' (system_id n)).
  - intros other perm m Hne Hsu Hm Hid.
    pose proof (Hrow m (get_nodes_all_nodes _ _ _ _ _ Hm) Hid) as ->.
    unfold get_nodes in Hm. simpl in Hm. rewrite Hsu in Hm.
    destruct perm; simpl in Hm.
    + apply list_elem_of_filter in Hm as [[Ho|Ho] _]; simpl in Ho; congruence.
    + apply list_elem_of_filter in Hm as [Ho _]; simpl in Ho; congruence.
    + by apply elem_of_nil in Hm.
  - intros anyone m [Hready Hm]%elem_of_get_available Hid.
    pose proof (Hrow m (get_nodes_all_nodes _ _ _ _ _ Hm) Hid) as ->.
    done.
Qed.

(** [acquire] asserts before it writes.  On a node that has an
    owner, or with a token of another user, it raises the assertion error
    and leaves the object and the world as they were. *)
Lemma acquire_asserts user token agent n w :
  owner n <> None \/ (token <> None /\ token_user <$> token <> Some user) ->
  acquire E user token agent (n, w) = (Raise AssertionError, (n, w)).
Proof.
  intros Hbad. unfold acquire, bind, self_node. simpl.
  destruct (decide (owner n <> None)); [done|].
  rewrite decide_True; [done|]. tauto.
Qed.
End Acquire.

(** ** The primary hardware address *)

Lemma earliest_None l : earliest l = None <-> l = [].
Proof.
  destruct l as [|m l]; simpl; [done|].
  destruct (earliest l) as [m'|]; [|done]. by case_match.
Qed.

Lemma earliest_Some l m :
  earliest l = Some m ->
  m ∈ l /\ forall m', m' ∈ l -> (created m <= created m')%nat.
Proof.
  revert m. induction l as [|x l IH]; intros m; simpl; [done|].
  destruct (earliest l) as [m'|] eqn:He.
  - destruct (IH m' eq_refl) as [Hin Hmin].
    destruct (Nat.ltb (created m') (created x)) eqn:Hlt; intros [= <-].
    + apply Nat.ltb_lt in Hlt. split; [by right|].
      intros y [->|Hy]%elem_of_cons; [lia | by apply Hmin].
    + apply Nat.ltb_ge in Hlt. split; [by left|].
      intros y [->|Hy]%elem_of_cons; [lia|].
      specialize (Hmin y Hy). lia.
  - apply earliest_None in He as ->. intros [= <-]. split; [by left|].
    by intros y ->%list_elem_of_singleton.
Qed.

(** Property X11.  The primary hardware address is the earliest one.  A node
    without hardware addresses has no primary address; otherwise the
    primary address is one of the node's rows, and none of the node's
    rows was created before it. *)
Theorem get_primary_mac_earliest w self :
  (get_primary_mac w self = None <-> macaddress_set w self = []) /\
  (forall m,
     get_primary_mac w self = Some m ->
     m ∈ macaddresses w /\ mac_node m = system_id self /\
     forall m', m' ∈ macaddresses w -> mac_node m' = system_id self ->
                (created m <= created m')%nat).
Proof.
  unfold get_primary_mac. split; [apply earliest_None|].
  intros m [Hin Hmin]%earliest_Some.
  unfold macaddress_set in *. apply list_elem_of_filter in Hin as [Hnode Hin].
  split_and!; [done | done |].
  intros m' Hm' Hn'. apply Hmin. by apply list_elem_of_filter.
Qed.

(** ** Starting nodes that are not allocated *)

Section Unallocated.
Context (E : Env).

Lemma gen_power_info_start_startable w ns l :
  gen_power_info_start E w ns = Ok l ->
  fst <$> l =
    filter (fun n => power_type n <> "" /\
                     (power_type n = "ether_wake" -> usable_mac (configured_mac w n)))
      ns.
Proof.
  revert l. induction ns as [|n ns IH]; intros l; simpl.
  - by intros [= <-].
  - destruct (decide (power_type n = "")) as [Hpt|Hpt].
    + rewrite get_effective_power_info_unconfigured by done.
      destruct (gen_power_info_start E w ns) as [l'|]; [|done].
      intros [= <-]. simpl. rewrite filter_cons_False by tauto. by apply IH.
    + rewrite get_effective_power_info_configured by done.
      destruct (gen_power_info_start E w ns) as [l'|]; [|done].
      intros [= <-]. simpl. case_decide as Hw; simpl.
      * destruct (mac_is_configured (configured_mac w n)) eqn:Hmac.
        -- apply mac_is_configured_usable in Hmac.
           rewrite filter_cons_True by done. simpl. f_equal. by apply IH.
        -- rewrite filter_cons_False; [by apply IH|].
           intros [_ Hu]. apply mac_is_configured_usable in Hu; [|done].
           congruence.
      * rewrite filter_cons_True by done. simpl. f_equal. by apply IH.
Qed.

(** Property X12.  Starting a batch without allocated nodes.  When none of
    the resolved nodes is allocated, [start_nodes] claims no address and
    writes no row; it still sends the host-map update, with an empty
    mapping, and it dispatches power-on for exactly the resolved nodes
    that can be started: those with a power type which, for wake-on-LAN,
    have a usable hardware address. *)
Theorem start_nodes_unallocated_batch ids user user_data w :
  Forall (fun n => status n <> ALLOCATED) (get_nodes w user PERM_EDIT (Some ids)) ->
  update_host_maps E ∅ = [] ->
  exists reqs,
    effects (snd (start_nodes E ids user user_data w)) =
      effects w ++
      [BulkSetUserData (system_id <$> get_nodes w user PERM_EDIT (Some ids)) user_data;
       UpdateHostMaps ∅;
       ChangeDNSZones
         (list_to_set (nodegroup <$> get_nodes w user PERM_EDIT (Some ids)));
       PowerOnNodes reqs] /\
    (fun r : NodePowerRequest => r.1.1.1) <$> reqs =
      system_id <$>
        filter (fun n => power_type n <> "" /\
                         (power_type n = "ether_wake" ->
                          usable_mac (configured_mac w n)))
          (get_nodes w user PERM_EDIT (Some ids)) /\
    nodes (snd (start_nodes E ids user user_data w)) = nodes w /\
    staticipaddresses (snd (start_nodes E ids user user_data w))
      = staticipaddresses w /\
    (forall e, fst (start_nodes E ids user user_data w) = Raise e <->
               wait_for_power_commands (power_on_nodes E reqs) = Raise e).
Proof.
  intros Hns Hhm.
  rewrite (start_nodes_none_allocated E ids user user_data w Hns). cbv zeta.
  rewrite Hhm. rewrite decide_False by (simpl; lia).
  set (ns := get_nodes w user PERM_EDIT (Some ids)).
  match goal with
  | |- context [gen_power_info_start E ?w' ns] =>
      set (w2 := w');
      destruct (gen_power_info_start_total E w2 ns) as [l Hl]; rewrite Hl
  end.
  pose proof (gen_power_info_start_startable w2 ns l Hl) as Hfst.
  exists (power_request <$> l). split_and!.
  - destruct (wait_for_power_commands _) as [[]|e]; simpl;
      by rewrite <- !app_assoc.
  - rewrite <- (list_fmap_compose power_request).
    transitivity (system_id <$> (fst <$> l)).
    { by rewrite <- list_fmap_compose. }
    by rewrite Hfst.
  - by destruct (wait_for_power_commands _) as [[]|e].
  - by destruct (wait_for_power_commands _) as [[]|e].
  - intros e. destruct (wait_for_power_commands _) as [[]|e']; simpl;
      split; congruence.
Qed.
End Unallocated.

(** ** Aborting, releasing, breaking and expiry *)

Section Aborting.
Context (E : Env).

Lemma stop_nodes_spec ids user mode w :
  stop_nodes E ids user mode w =
    (match wait_for_power_commands
             (power_off_nodes E (nodes_stop_info E w ids user mode)) with
     | Ok _ =>
         Ok (filter
               (fun n => system_id n ∈
                         (fun r => r.1.1.1) <$> nodes_stop_info E w ids user mode)
               (get_nodes w user PERM_EDIT (Some ids)))
     | Raise e => Raise e
     end,
     log_effect (PowerOffNodes (nodes_stop_info E w ids user mode)) w).
Proof.
  unfold stop_nodes, nodes_stop_info, bind, get, modify, lift_result.
  cbv beta iota zeta.
  destruct (gen_power_info_stop_total E w mode (get_nodes w user PERM_EDIT (Some ids)))
    as [l Hl].
  rewrite Hl. by destruct (wait_for_power_commands _) as [[]|e].
Qed.

Lemma nodes_stop_info_nobody ids user mode w :
  get_nodes w user PERM_EDIT (Some ids) = [] ->
  nodes_stop_info E w ids user mode = [].
Proof. intros Hn. unfold nodes_stop_info. by rewrite Hn. Qed.

Lemma power_dispatches_log e w :
  power_dispatches (log_effect e w) =
    power_dispatches w ++ (if is_power_dispatch e then [e] else []).
Proof.
  unfold power_dispatches. simpl. rewrite filter_app. f_equal.
  destruct (is_power_dispatch e) eqn:He.
  - by rewrite filter_cons_True, filter_nil.
  - rewrite filter_cons_False, filter_nil; [done|]. by rewrite He.
Qed.

Lemma abort_after_stop (target : NODE_STATUS) user self w :
  let reqs := nodes_stop_info E w [system_id self] user "hard" in
  (let* _ := in_world (stop_nodes E [system_id self] user "hard") in
   let* _ := update_self (set_status target) in
   save E) (self, w) =
  match wait_for_power_commands (power_off_nodes E reqs) with
  | Raise e => (Raise e, (self, log_effect (PowerOffNodes reqs) w))
  | Ok _ => save E (set_status target self, log_effect (PowerOffNodes reqs) w)
  end.
Proof.
  cbv zeta. unfold bind, in_world, update_self.
  cbv beta iota zeta delta [fst snd]. rewrite stop_nodes_spec.
  by destruct (wait_for_power_commands _) as [[]|e].
Qed.

(** Property X13.  Aborting commissioning.  On a node that is not
    commissioning the call is refused before anything is done.  On a
    commissioning node one power-off batch is sent: when it fails, the
    error is raised and the node stays commissioning, in memory and in
    its row; when it succeeds and the table allows the move, the node is
    stored as new. *)
Theorem abort_commissioning_outcomes user self w :
  (status self <> COMMISSIONING ->
   abort_commissioning E user (self, w) =
     (Raise (NodeStateViolation
               ("Cannot abort commissioning of a non-commissioning node: node " +:+
                system_id self +:+ " is in state " +:+
                NODE_STATUS_CHOICES_DICT E (status self) +:+ ".")),
      (self, w))) /\
  (status self = COMMISSIONING ->
   let reqs := nodes_stop_info E w [system_id self] user "hard" in
     (forall e,
        wait_for_power_commands (power_off_nodes E reqs) = Raise e ->
        abort_commissioning E user (self, w) =
          (Raise e, (self, log_effect (PowerOffNodes reqs) w))) /\
     (wait_for_power_commands (power_off_nodes E reqs) = Ok tt ->
      validate_transition E (get_db_state w self) NEW = Ok tt ->
      abort_commissioning E user (self, w) =
        (Ok tt,
         (set_status NEW self,
          set_nodes (<[system_id self := set_status NEW self]> (nodes w))
            (log_effect (PowerOffNodes reqs) w)))))%type.
Proof.
  split.
  - intros Hst. unfold abort_commissioning. unfold bind at 1.
    unfold self_node. simpl. by rewrite decide_True.
  - intros Hst reqs. pose proof (abort_after_stop NEW user self w) as Hr.
    cbv zeta in Hr. fold reqs in Hr. unfold abort_commissioning. split.
    + intros e He. unfold bind at 1. unfold self_node.
      cbv beta iota zeta delta [fst snd].
      rewrite decide_False by (rewrite Hst; tauto).
      rewrite Hr. by rewrite He.
    + intros Hw Hv. unfold bind at 1. unfold self_node.
      cbv beta iota zeta delta [fst snd].
      rewrite decide_False by (rewrite Hst; tauto).
      rewrite Hr, Hw, save_spec. unfold get_db_state in *. simpl in *.
      by rewrite Hv.
Qed.

(** Property X14.  [abort_operation] aborts disk erasing only.  In any other
    status, commissioning included, it is refused before anything is
    done.  On a node that is erasing its disks one power-off batch is
    sent: when it fails, the error is raised and the node is left as it
    was; when it succeeds and the table allows the move, the node is
    stored as failed disk erasing. *)
Theorem abort_operation_outcomes user self w :
  (status self <> DISK_ERASING ->
   abort_operation E user (self, w) =
     (Raise (NodeStateViolation
               ("Cannot abort in current state: node " +:+ system_id self +:+
                " is in state " +:+ NODE_STATUS_CHOICES_DICT E (status self) +:+ ".")),
      (self, w))) /\
  (status self = DISK_ERASING ->
   let reqs := nodes_stop_info E w [system_id self] user "hard" in
     (forall e,
        wait_for_power_commands (power_off_nodes E reqs) = Raise e ->
        abort_operation E user (self, w) =
          (Raise e, (self, log_effect (PowerOffNodes reqs) w))) /\
     (wait_for_power_commands (power_off_nodes E reqs) = Ok tt ->
      validate_transition E (get_db_state w self) FAILED_DISK_ERASING = Ok tt ->
      abort_operation E user (self, w) =
        (Ok tt,
         (set_status FAILED_DISK_ERASING self,
          set_nodes
            (<[system_id self := set_status FAILED_DISK_ERASING self]> (nodes w))
            (log_effect (PowerOffNodes reqs) w)))))%type.
Proof.
  split.
  - intros Hst. unfold abort_operation. unfold bind at 1.
    unfold self_node. simpl. by rewrite decide_False.
  - intros Hst reqs.
    pose proof (abort_after_stop FAILED_DISK_ERASING user self w) as Hr.
    cbv zeta in Hr. fold reqs in Hr.
    assert (Ha : abort_operation E user (self, w) =
                 match wait_for_power_commands (power_off_nodes E reqs) with
                 | Raise e => (Raise e, (self, log_effect (PowerOffNodes reqs) w))
                 | Ok _ => save E (set_status FAILED_DISK_ERASING self,
                                   log_effect (PowerOffNodes reqs) w)
                 end).
    { unfold abort_operation, bind at 1. unfold self_node.
      cbv beta iota zeta delta [fst snd].
      rewrite decide_True by done.
      unfold abort_disk_erasing, bind at 1. unfold self_node.
      cbv beta iota zeta delta [fst snd].
      rewrite decide_False by (rewrite Hst; tauto). exact Hr. }
    rewrite Ha. split.
    + intros e He. by rewrite He.
    + intros Hw Hv. rewrite Hw, save_spec. unfold get_db_state in *. simpl in *.
      by rewrite Hv.
Qed.

(** Property X15.  Aborting without the right to edit.  [abort_commissioning]
    leaves the permission check to [stop_nodes]: for a user who may not
    edit the node the power-off batch is empty, and the node is stored as
    new all the same. *)
Theorem abort_commissioning_without_edit user self w :
  world_ok w -> nodes w !! system_id self = Some self ->
  ~ may_edit user self ->
  status self = COMMISSIONING ->
  wait_for_power_commands (power_off_nodes E []) = Ok tt ->
  validate_transition E (Some COMMISSIONING) NEW = Ok tt ->
  abort_commissioning E user (self, w) =
    (Ok tt,
     (set_status NEW self,
      set_nodes (<[system_id self := set_status NEW self]> (nodes w))
        (log_effect (PowerOffNodes []) w))).
Proof.
  intros Hok Hn Hedit Hst Hw Hv.
  assert (Hnone : get_nodes w user PERM_EDIT (Some [system_id self]) = []).
  { rewrite (get_nodes_singleton w user _ self Hok Hn). by rewrite decide_False. }
  pose proof (abort_after_stop NEW user self w) as Hr. cbv zeta in Hr.
  rewrite (nodes_stop_info_nobody _ _ _ _ Hnone) in Hr.
  unfold abort_commissioning. unfold bind at 1. unfold self_node.
  cbv beta iota zeta delta [fst snd].
  rewrite decide_False by (rewrite Hst; tauto).
  rewrite Hr, Hw, save_spec. unfold get_db_state. cbn [nodes log_effect fst snd].
  change (system_id (set_status NEW self)) with (system_id self).
  rewrite Hn. cbn [fmap option_fmap option_map]. rewrite Hst.
  change (status (set_status NEW self)) with NEW. by rewrite Hv.
Qed.
End Aborting.

Section Releasing.
Context (E : Env).

Lemma release_tail (ng : string) (n3 : Node) (w3 : World) :
  (let* deallocated_ips := deallocate_by_node in
   let* _ := delete_host_maps E (list_to_set deallocated_ips) in
   update_world (log_effect (ChangeDNSZones {[ ng ]}))) (n3, w3) =
  let ips := own_static_ips w3 n3 in
  let w4 :=
    set_staticipaddresses
      (filter (fun r => r.2 ∉ mac_address <$> macaddress_set w3 n3)
         (staticipaddresses w3)) w3 in
  if decide (0 < size ips) then
    if decide (length (remove_host_maps E (nodegroup n3) ips) ≠ 0) then
      (Raise (MultipleFailures (remove_host_maps E (nodegroup n3) ips)),
       (n3, log_effect (RemoveHostMaps (nodegroup n3) ips) w4))
    else
      (Ok tt,
       (n3, log_effect (ChangeDNSZones {[ ng ]})
              (log_effect (RemoveHostMaps (nodegroup n3) ips) w4)))
  else (Ok tt, (n3, log_effect (ChangeDNSZones {[ ng ]}) w4)).
Proof.
  unfold bind, deallocate_by_node, delete_by_node, delete_host_maps, own_static_ips.
  cbv beta iota zeta delta [fst snd].
  destruct (decide (0 < size _)) as [Hs|Hs].
  - unfold bind, self_node, update_world.
    cbv beta iota zeta delta [fst snd].
    destruct (decide (length _ ≠ 0)); done.
  - done.
Qed.

Lemma validate_transition_same s : validate_transition E (Some s) s = Ok tt.
Proof. unfold validate_transition. by rewrite decide_True. Qed.

Lemma release_spec self w info :
  get_effective_power_info E w self = Ok info ->
  let reqs := nodes_stop_info E w [system_id self] (owner self) "hard" in
  let w1 := log_effect (PowerOffNodes reqs) w in
  let n3 := released (can_be_queried info) self in
  release E (self, w) =
      match wait_for_power_commands (power_off_nodes E reqs) with
      | Raise e => (Raise e, (self, w1))
      | Ok _ =>
          match validate_transition E (get_db_state w self) (status n3) with
          | Raise e =>
              (Raise e,
               (set_netboot_field true
                  (set_token_agent
                     (if decide (power_state self = POWER_OFF)
                      then set_owner None (set_status READY self)
                      else if can_be_queried info then set_status RELEASING self
                           else set_owner None (set_status READY self))), w1))
          | Ok _ =>
              (let* deallocated_ips := deallocate_by_node in
               let* _ := delete_host_maps E (list_to_set deallocated_ips) in
               update_world (log_effect (ChangeDNSZones {[ nodegroup self ]})))
                (n3, set_nodes (<[system_id self := n3]> (nodes w)) w1)
          end
      end.
Proof.
  intros Hinfo.
  pose proof (stop_nodes_spec E [system_id self] (owner self) "hard" w) as Hs.
  set (reqs := nodes_stop_info E w [system_id self] (owner self) "hard") in *.
  cbv zeta.
  unfold release. unfold bind at 1. unfold self_node.
  cbv beta iota zeta delta [fst snd].
  unfold bind at 1. unfold in_world.
  cbv beta iota zeta delta [fst snd]. rewrite Hs.
  destruct (wait_for_power_commands _) as [[]|e]; [|done].
  set (w1 := log_effect (PowerOffNodes reqs) w).
  assert (Hinfo1 : get_effective_power_info E w1 self = Ok info).
  { by rewrite (get_effective_power_info_ext E w1 w). }
  set (node0 := if decide (power_state self = POWER_OFF)
                then set_owner None (set_status READY self)
                else if can_be_queried info then set_status RELEASING self
                     else set_owner None (set_status READY self)).
  assert (Hstep :
    (if decide (power_state self = POWER_OFF)
     then let* _ := update_self (set_status READY) in update_self (set_owner None)
     else
       let* w := self_world in
       let* power_info := lift_result (get_effective_power_info E w self) in
       if can_be_queried power_info
       then update_self (set_status RELEASING)
       else let* _ := update_self (set_status READY) in
            update_self (set_owner None)) (self, w1) = (Ok tt, (node0, w1))).
  { unfold node0, bind, update_self, self_world, lift_result.
    cbv beta iota zeta delta [fst snd].
    destruct (decide (power_state self = POWER_OFF)).
    - cbv beta iota zeta delta [fst snd]. done.
    - cbv beta iota zeta delta [fst snd]. rewrite Hinfo1.
      destruct (can_be_queried info); done. }
  unfold bind at 1. cbv beta. rewrite Hstep. clear Hstep.
  unfold bind at 1. unfold update_self at 1.
  cbv beta iota zeta delta [fst snd].
  unfold bind at 1. unfold set_netboot, bind at 1. unfold update_self at 1.
  cbv beta iota zeta delta [fst snd].
  set (n2 := set_netboot_field true (set_token_agent node0)).
  assert (Hn3 : set_os_fields n2 = released (can_be_queried info) self) by done.
  assert (Hid : system_id n2 = system_id self).
  { unfold n2, node0. by destruct (decide _), (can_be_queried info). }
  assert (Hng : nodegroup (released (can_be_queried info) self) = nodegroup self).
  { rewrite <- Hn3. unfold n2, node0.
    by destruct (decide _), (can_be_queried info). }
  rewrite save_spec.
  assert (Hdb : get_db_state w1 n2 = get_db_state w self).
  { unfold get_db_state. by rewrite Hid. }
  rewrite Hdb.
  assert (Hst : status n2 = status (released (can_be_queried info) self)) by done.
  rewrite Hst.
  destruct (validate_transition E (get_db_state w self) _) as [[]|e]; [|done].
  unfold bind at 1. unfold update_self at 1.
  cbv beta iota zeta delta [fst snd].
  unfold bind at 1. rewrite save_spec. rewrite Hn3, Hid.
  assert (Hdb2 : get_db_state
                   (set_nodes (<[system_id self := n2]> (nodes w1)) w1)
                   (released (can_be_queried info) self)
                 = Some (status (released (can_be_queried info) self))).
  { unfold get_db_state. rewrite <- Hn3 at 1.
    change (system_id (set_os_fields n2)) with (system_id n2). rewrite Hid.
    unfold set_nodes. cbn [nodes]. rewrite lookup_insert_eq.
    change (status <$> Some n2) with (Some (status n2)). by rewrite Hst. }
  rewrite Hdb2, validate_transition_same.
  rewrite <- Hn3 at 2. change (system_id (set_os_fields n2)) with (system_id n2).
  rewrite Hid.
  assert (Hw : set_nodes
                 (<[system_id self := released (can_be_queried info) self]>
                    (nodes (set_nodes (<[system_id self := n2]> (nodes w1)) w1)))
                 (set_nodes (<[system_id self := n2]> (nodes w1)) w1)
               = set_nodes (<[system_id self := released (can_be_queried info) self]>
                              (nodes w)) w1).
  { unfold set_nodes. simpl. by rewrite insert_insert_eq. }
  by rewrite Hw.
Qed.

Lemma system_id_released q self : system_id (released q self) = system_id self.
Proof. unfold released. by destruct (decide _), q. Qed.

Lemma nodegroup_released q self : nodegroup (released q self) = nodegroup self.
Proof. unfold released. by destruct (decide _), q. Qed.

Lemma macaddress_set_released w1 w q self :
  macaddresses w1 = macaddresses w ->
  macaddress_set w1 (released q self) = macaddress_set w self.
Proof. intros Hm. unfold macaddress_set. by rewrite Hm, system_id_released. Qed.

Lemma release_stored self w info :
  get_effective_power_info E w self = Ok info ->
  wait_for_power_commands
    (power_off_nodes E (nodes_stop_info E w [system_id self] (owner self) "hard"))
    = Ok tt ->
  validate_transition E (get_db_state w self)
    (status (released (can_be_queried info) self)) = Ok tt ->
  exists w',
    snd (release E (self, w)) = (released (can_be_queried info) self, w') /\
    nodes w' =
      <[system_id self := released (can_be_queried info) self]> (nodes w) /\
    staticipaddresses w' =
      filter (fun r => r.2 ∉ mac_address <$> macaddress_set w self)
        (staticipaddresses w) /\
    fst (release E (self, w)) =
      if decide (0 < size (own_static_ips w self) /\
                 remove_host_maps E (nodegroup self) (own_static_ips w self) <> [])
      then Raise (MultipleFailures
                    (remove_host_maps E (nodegroup self) (own_static_ips w self)))
      else Ok tt.
Proof.
  intros Hinfo Hw Hv. pose proof (release_spec self w info Hinfo) as Hr.
  cbv zeta in Hr.
  set (reqs := nodes_stop_info E w [system_id self] (owner self) "hard") in *.
  rewrite Hr, Hw, Hv. clear Hr.
  set (n3 := released (can_be_queried info) self).
  set (w3 := set_nodes (<[system_id self := n3]> (nodes w))
               (log_effect (PowerOffNodes reqs) w)).
  pose proof (release_tail (nodegroup self) n3 w3) as Ht. cbv zeta in Ht.
  assert (Hng : nodegroup n3 = nodegroup self) by apply nodegroup_released.
  assert (Hms : macaddress_set w3 n3 = macaddress_set w self)
    by by apply macaddress_set_released.
  assert (Hips : own_static_ips w3 n3 = own_static_ips w self).
  { unfold own_static_ips. by rewrite Hms. }
  rewrite Hng, Hips, Hms in Ht. rewrite Ht. clear Ht.
  destruct (decide (0 < size (own_static_ips w self))) as [Hs|Hs].
  + destruct (decide (length _ ≠ 0)) as [Hf|Hf].
    * eexists. split; [reflexivity|]. split_and!; [done | done |].
      rewrite decide_True; [done|]. split; [done|].
      intros Hnil. by rewrite Hnil in Hf.
    * eexists. split; [reflexivity|]. split_and!; [done | done |].
      rewrite decide_False; [done|]. intros [_ Hne]. apply Hf. intros Hlen.
      apply Hne. by apply nil_length_inv.
  + eexists. split; [reflexivity|]. split_and!; [done | done |].
    rewrite decide_False; [done|]. tauto.
Qed.

(** Property X16.  The outcomes of [release].  One power-off batch is sent
    first, and when it fails the error is raised with the node, its row
    and the address table left as they were.  When it succeeds and the
    table allows the move, the node is stored as released and its static
    addresses are deallocated before the host maps are withdrawn: a
    failed withdrawal is raised as the aggregate of its failures, with
    the node already stored as released. *)
Theorem release_outcomes self w info :
  get_effective_power_info E w self = Ok info ->
  let reqs := nodes_stop_info E w [system_id self] (owner self) "hard" in
    (forall e,
       wait_for_power_commands (power_off_nodes E reqs) = Raise e ->
       release E (self, w) = (Raise e, (self, log_effect (PowerOffNodes reqs) w))) /\
    (wait_for_power_commands (power_off_nodes E reqs) = Ok tt ->
     validate_transition E (get_db_state w self)
       (status (released (can_be_queried info) self)) = Ok tt ->
     exists w',
       snd (release E (self, w)) = (released (can_be_queried info) self, w') /\
       nodes w' =
         <[system_id self := released (can_be_queried info) self]> (nodes w) /\
       staticipaddresses w' =
         filter (fun r => r.2 ∉ mac_address <$> macaddress_set w self)
           (staticipaddresses w) /\
       fst (release E (self, w)) =
         if decide (0 < size (own_static_ips w self) /\
                    remove_host_maps E (nodegroup self) (own_static_ips w self) <> [])
         then Raise (MultipleFailures
                       (remove_host_maps E (nodegroup self) (own_static_ips w self)))
         else Ok tt).
Proof.
  intros Hinfo reqs. split.
  - intros e He. pose proof (release_spec self w info Hinfo) as Hr.
    cbv zeta in Hr. fold reqs in Hr. by rewrite Hr, He.
  - intros Hw Hv. by apply release_stored.
Qed.
End Releasing.

Section NobodyToStop.
Context (E : Env).

(** Property X17.  Releasing a node that has no owner powers nothing off.
    [release] sends its power-off batch on behalf of the owner; without
    an owner the batch is empty, and it is the only power dispatch of the
    call, whatever comes of it. *)
Theorem release_unowned_powers_nothing_off self w :
  owner self = None ->
  power_dispatches (snd (snd (release E (self, w)))) =
    power_dispatches w ++ [PowerOffNodes []].
Proof.
  intros Hown.
  destruct (get_effective_power_info_total E w self) as [info Hinfo].
  pose proof (release_spec E self w info Hinfo) as Hr. cbv zeta in Hr.
  rewrite Hown, (nodes_stop_info_nobody E) in Hr by done.
  rewrite Hr. clear Hr.
  destruct (wait_for_power_commands _) as [[]|e].
  2:{ simpl. by rewrite power_dispatches_log. }
  destruct (validate_transition _ _ _) as [[]|e].
  2:{ simpl. by rewrite power_dispatches_log. }
  rewrite (release_tail E). cbv zeta.
  repeat case_decide; simpl; rewrite ?power_dispatches_log; simpl;
    rewrite ?app_nil_r; unfold power_dispatches; simpl;
    rewrite filter_app; simpl; rewrite filter_cons_True by done; done.
Qed.
End NobodyToStop.

Section Breaking.
Context (E : Env).

Lemma mark_broken_not_releasable description self w :
  status self ∉ RELEASABLE_STATUSES ->
  validate_transition E (get_db_state w self) BROKEN = Ok tt ->
  mark_broken E description (self, w) =
    (Ok tt,
     (set_error_description description (set_owner None (set_status BROKEN self)),
      set_nodes
        (<[system_id self :=
             set_error_description description
               (set_owner None (set_status BROKEN self))]> (nodes w)) w)).
Proof.
  intros Hrel Hv.
  set (broken :=
         set_error_description description (set_owner None (set_status BROKEN self))).
  unfold mark_broken, bind, self_node, update_self.
  cbv beta iota zeta delta [fst snd].
  rewrite decide_False by done. unfold ret.
  cbv beta iota zeta delta [fst snd].
  fold broken. rewrite save_spec.
  assert (Hdb : get_db_state w broken = get_db_state w self) by done.
  assert (Hst : status broken = BROKEN) by done.
  by rewrite Hdb, Hst, Hv.
Qed.

(** Property X18.  [mark_broken] releases first.  A node in a releasable
    status is released before it is marked, so when the power-off batch
    of the release fails, the error is raised and the node is not marked
    broken: it, its row and the address table are as they were.  A node
    in any other status is stored as broken, without owner and with the
    description, when the table allows the move. *)
Theorem mark_broken_outcomes description self w :
  (status self ∈ RELEASABLE_STATUSES ->
   let reqs := nodes_stop_info E w [system_id self] (owner self) "hard" in
     forall e,
       wait_for_power_commands (power_off_nodes E reqs) = Raise e ->
       mark_broken E description (self, w) =
         (Raise e, (self, log_effect (PowerOffNodes reqs) w))) /\
  (status self ∉ RELEASABLE_STATUSES ->
   validate_transition E (get_db_state w self) BROKEN = Ok tt ->
   let broken :=
     set_error_description description (set_owner None (set_status BROKEN self)) in
   mark_broken E description (self, w) =
     (Ok tt, (broken, set_nodes (<[system_id self := broken]> (nodes w)) w))).
Proof.
  split.
  - intros Hrel reqs e He.
    destruct (get_effective_power_info_total E w self) as [info Hinfo].
    pose proof (release_spec E self w info Hinfo) as Hr. cbv zeta in Hr.
    fold reqs in Hr.
    unfold mark_broken. unfold bind at 1. unfold self_node.
    cbv beta iota zeta delta [fst snd].
    rewrite decide_True by done. unfold bind at 1.
    by rewrite Hr, He.
  - intros Hrel Hv broken. by apply mark_broken_not_releasable.
Qed.

(** Property X19.  Broken and fixed again is ready.  [mark_fixed] refuses a
    node that is not broken and leaves it alone.  A node in a status that
    is not releasable, marked broken and then fixed, ends up stored as
    ready, without owner and without error description, whatever its
    status was before. *)
Theorem broken_then_fixed_is_ready description self w :
  (status self <> BROKEN ->
   mark_fixed E (self, w) =
     (Raise (NodeStateViolation "Can't mark a non-broken node as 'Ready'."),
      (self, w))) /\
  (status self ∉ RELEASABLE_STATUSES ->
   validate_transition E (get_db_state w self) BROKEN = Ok tt ->
   validate_transition E (Some BROKEN) READY = Ok tt ->
   let fixed :=
     set_error_description "" (set_owner None (set_status READY self)) in
   (let* _ := mark_broken E description in mark_fixed E) (self, w) =
     (Ok tt, (fixed, set_nodes (<[system_id self := fixed]> (nodes w)) w))).
Proof.
  split.
  - intros Hst. unfold mark_fixed, bind, self_node.
    cbv beta iota zeta delta [fst snd]. by rewrite decide_True.
  - intros Hrel Hv1 Hv2 fixed. unfold bind at 1.
    rewrite (mark_broken_not_releasable description self w Hrel Hv1).
    cbv beta iota zeta.
    unfold mark_fixed, bind, self_node, update_self.
    cbv beta iota zeta delta [fst snd].
    rewrite decide_False by (simpl; tauto).
    rewrite save_spec. unfold get_db_state, set_nodes.
    cbn [nodes system_id set_error_description set_status set_owner status].
    rewrite lookup_insert_eq.
    cbn [fmap option_fmap option_map].
    change (status (set_error_description description
                      (set_owner None (set_status BROKEN self)))) with BROKEN.
    rewrite Hv2. simpl. by rewrite insert_insert_eq.
Qed.
End Breaking.

Section MonitorExpiry.
Context (E : Env) (timedelta_str : nat -> string).

(** Property X20.  A monitor that expires.  On a node in a status with a
    failed counterpart, when the table allows the move, the node is
    stored in that failed status with a description naming the operation
    and the timeout.  On a node in any other status the expiry is
    ignored: nothing is raised and nothing changes, also where
    [mark_failed] itself would refuse the status. *)
Theorem handle_monitor_expired_outcomes context self w :
  (forall failed,
     get_failed_status (status self) = Some failed ->
     validate_transition E (get_db_state w self) failed = Ok tt ->
     let node :=
       set_error_description
         ("Node operation '" +:+ NODE_STATUS_CHOICES_DICT E (status self) +:+
          "' timed out after " +:+ timedelta_str (timeout context) +:+ ".")
         (set_status failed self) in
     handle_monitor_expired E timedelta_str context (self, w) =
       (Ok tt, (node, set_nodes (<[system_id self := node]> (nodes w)) w))) /\
  (get_failed_status (status self) = None ->
   handle_monitor_expired E timedelta_str context (self, w) = (Ok tt, (self, w)) /\
   (is_failed_status (status self) = false ->
    exists msg,
      mark_failed E "" (self, w) = (Raise (NodeStateViolation msg), (self, w)))).
Proof.
  split.
  - intros failed Hf Hv node. unfold handle_monitor_expired.
    unfold bind at 1. unfold self_node.
    cbv beta iota zeta delta [fst snd]. rewrite Hf.
    unfold mark_failed, bind, self_node, update_self.
    cbv beta iota zeta delta [fst snd]. rewrite Hf.
    fold node. rewrite save_spec.
    assert (Hdb : get_db_state w node = get_db_state w self) by done.
    assert (Hst : status node = failed) by done.
    by rewrite Hdb, Hst, Hv.
  - intros Hf. split.
    + unfold handle_monitor_expired, bind, self_node.
      cbv beta iota zeta delta [fst snd]. by rewrite Hf.
    + intros Hnf. eexists. unfold mark_failed, bind, self_node.
      cbv beta iota zeta delta [fst snd]. rewrite Hf, Hnf. reflexivity.
Qed.
End MonitorExpiry.

(** Property X21.  The operating system a node installs.  The default series
    is used only when the node names neither a system nor a series: a
    node that names a system and no series installs the blank series,
    and it is the blank series its license key is looked up for.  The
    node [release] leaves behind names nothing, so it installs the
    defaults, with the registry's key for them, if any. *)
Theorem os_selection (C : OSConfig) self :
  (osystem self <> "" -> distro_series self = "" ->
   get_distro_series C self = "" /\
   (license_key self = "" ->
    get_effective_license_key C self =
      default "" (get_license_key C (osystem self) ""))) /\
  (forall queryable,
     get_osystem C (released queryable self) = default_osystem C /\
     get_distro_series C (released queryable self) = default_distro_series C /\
     get_effective_license_key C (released queryable self) =
       default "" (get_license_key C (default_osystem C) (default_distro_series C))).
Proof.
  split.
  - intros Hos Hds.
    assert (Hd : get_distro_series C self = "").
    { unfold get_distro_series. cbv zeta.
      by rewrite (bool_decide_eq_false_2 _ Hos), Hds. }
    split; [done|]. intros Hk. unfold get_effective_license_key. cbv zeta.
    rewrite Hd, (bool_decide_eq_true_2 _ Hk). unfold get_osystem. cbv zeta.
    rewrite (bool_decide_eq_false_2 _ Hos). by destruct (get_license_key _ _ _).
  - intros q.
    assert (Hf : osystem (released q self) = "" /\
                 distro_series (released q self) = "" /\
                 license_key (released q self) = "").
    { unfold released. by destruct (decide _), q. }
    destruct Hf as (Ho & Hd & Hk).
    assert (H1 : get_osystem C (released q self) = default_osystem C).
    { unfold get_osystem. cbv zeta. by rewrite Ho. }
    assert (H2 : get_distro_series C (released q self) = default_distro_series C).
    { unfold get_distro_series. cbv zeta. by rewrite Ho, Hd. }
    split_and!; [done | done |].
    unfold get_effective_license_key. cbv zeta. rewrite Hk, H1, H2. simpl.
    by destruct (get_license_key _ _ _).
Qed.

(** ** Operations in sequence *)

Section Composition.
Context (E : Env).

Lemma start_commissioning_Ok user self w s' :
  start_commissioning E user (self, w) = (Ok tt, s') ->
  fst s' = set_status COMMISSIONING self.
Proof.
  unfold start_commissioning, bind, try_except, self_node, update_world,
    update_self, in_world, raise, ret.
  cbv beta iota zeta delta [fst snd].
  destruct (save E _) as [[[]|e] [n1 w1]] eqn:Hsave; [|done].
  rewrite save_spec in Hsave.
  destruct (validate_transition _ _ _) as [[]|]; [|done].
  injection Hsave as <- <-.
  destruct (start_nodes E _ _ _ _) as [[l|e] w2]; cbv beta iota zeta delta [fst snd].
  - by intros [= <-].
  - by destruct (save E _) as [[[]|e'] [n3 w3]].
Qed.

(** Property X22.  Accepting twice.  [accept_enlistment] on a node that is
    ready or commissioning returns [None] and changes nothing.  When it
    returns the node, the node was new and is now commissioning, and a
    second call on what the first one left returns [None] and changes
    nothing. *)
Theorem accept_enlistment_idempotent user self w :
  (status self ∈ [READY; COMMISSIONING] ->
   accept_enlistment E user (self, w) = (Ok None, (self, w))) /\
  (forall node s',
     accept_enlistment E user (self, w) = (Ok (Some node), s') ->
     status self = NEW /\ node = set_status COMMISSIONING self /\ fst s' = node /\
     accept_enlistment E user s' = (Ok None, s')).
Proof.
  assert (Haccepted : forall n w', status n ∈ [READY; COMMISSIONING] ->
                        accept_enlistment E user (n, w') = (Ok None, (n, w'))).
  { intros n w' Hst. unfold accept_enlistment, bind, self_node, ret.
    cbv beta iota zeta delta [fst snd]. by rewrite decide_True. }
  split; [apply Haccepted|].
  intros node s' Hacc.
  assert (Hnew : status self = NEW).
  { unfold accept_enlistment, bind, self_node, ret, raise in Hacc.
    cbv beta iota zeta delta [fst snd] in Hacc.
    destruct (decide (status self ∈ [READY; COMMISSIONING])); [done|].
    destruct (decide (status self <> NEW)) as [|Hn]; [done|].
    by destruct (decide (status self = NEW)). }
  rewrite (accept_enlistment_new E user self w Hnew) in Hacc.
  destruct (start_commissioning E user (self, w)) as [[[]|e] s1] eqn:Hs; [|done].
  injection Hacc as <- <-.
  pose proof (start_commissioning_Ok user self w s1 Hs) as Hfst.
  split_and!; [done | done | done |].
  destruct s1 as [n1 w1]. simpl in Hfst. subst n1.
  apply Haccepted. simpl. right. left.
Qed.

(** Property X23.  Commissioning without the right to edit.
    [start_commissioning] leaves the permission check to [start_nodes]:
    for a stored node and a user who may not edit it, when the table
    allows the move, the node is stored as commissioning and the only
    power dispatch is an empty power-on batch; nothing is raised. *)
Theorem start_commissioning_without_edit user self w :
  world_ok w -> nodes w !! system_id self = Some self ->
  ~ may_edit user self ->
  validate_transition E (Some (status self)) COMMISSIONING = Ok tt ->
  update_host_maps E ∅ = [] ->
  wait_for_power_commands (power_on_nodes E []) = Ok tt ->
  exists w',
    start_commissioning E user (self, w) =
      (Ok tt, (set_status COMMISSIONING self, w')) /\
    nodes w' = <[system_id self := set_status COMMISSIONING self]> (nodes w) /\
    power_dispatches w' = power_dispatches w ++ [PowerOnNodes []].
Proof.
  intros Hok Hn Hedit Hv Hhm Hwait.
  set (n1 := set_status COMMISSIONING self).
  set (w0 := log_effect (ClearResults (system_id self)) w).
  set (w1 := set_nodes (<[system_id self := n1]> (nodes w0)) w0).
  assert (Hok1 : world_ok w1) by (apply (world_ok_save n1 w0); done).
  assert (Hn1 : nodes w1 !! system_id self = Some n1).
  { subst w1. simpl. by rewrite lookup_insert_eq. }
  assert (Hnone : get_nodes w1 user PERM_EDIT (Some [system_id self]) = []).
  { rewrite (get_nodes_singleton w1 user (system_id self) n1 Hok1 Hn1).
    rewrite decide_False; [done|]. by destruct user. }
  pose proof (start_nodes_none_allocated E [system_id self] user
                (Some (commissioning_user_data E self)) w1) as Hs.
  cbv zeta in Hs. rewrite Hnone in Hs. specialize (Hs (Forall_nil_2 _)).
  rewrite Hhm in Hs. rewrite decide_False in Hs by (simpl; lia).
  cbn [gen_power_info_start fmap list_fmap] in Hs. rewrite Hwait in Hs.
  eexists. split_and!.
  - unfold start_commissioning, bind, try_except, self_node, update_world,
      update_self, in_world, ret.
    cbv beta iota zeta delta [fst snd].
    fold n1. fold w0. rewrite save_spec.
    assert (Hdb : get_db_state w0 n1 = Some (status self)).
    { unfold get_db_state. change (system_id n1) with (system_id self).
      change (nodes w0) with (nodes w). by rewrite Hn. }
    rewrite Hdb. change (status n1) with COMMISSIONING. rewrite Hv.
    change (system_id n1) with (system_id self). fold w1.
    rewrite Hs. reflexivity.
  - simpl. done.
  - rewrite !power_dispatches_log. cbn [is_power_dispatch].
    rewrite !app_nil_r. f_equal.
    change (power_dispatches w1) with (power_dispatches w0). unfold w0.
    rewrite power_dispatches_log. cbn [is_power_dispatch]. by rewrite app_nil_r.
Qed.

(** Property X24.  A release is completed by the power-off that is observed.
    When [release] has left a node of a queryable power type releasing,
    with its owner, the next [update_power_state] with the state off
    stores it as ready and unowned, the table allowing the move; any
    other observed state leaves it releasing, with its owner. *)
Theorem release_completes_on_power_off self w info p :
  get_effective_power_info E w self = Ok info ->
  power_state self <> POWER_OFF -> can_be_queried info = true ->
  wait_for_power_commands
    (power_off_nodes E (nodes_stop_info E w [system_id self] (owner self) "hard"))
    = Ok tt ->
  validate_transition E (get_db_state w self) RELEASING = Ok tt ->
  validate_transition E (Some RELEASING) READY = Ok tt ->
  (0 < size (own_static_ips w self) ->
   remove_host_maps E (nodegroup self) (own_static_ips w self) = []) ->
  let node :=
    if decide (p = POWER_OFF)
    then set_owner None (set_status READY (set_power_state p (released true self)))
    else set_power_state p (released true self) in
  exists w',
    (let* _ := release E in update_power_state E p) (self, w) = (Ok tt, (node, w')) /\
    nodes w' = <[system_id self := node]> (nodes w) /\
    status node = (if decide (p = POWER_OFF) then READY else RELEASING) /\
    owner node = (if decide (p = POWER_OFF) then None else owner self).
Proof.
  intros Hinfo Hoff Hq Hwait Hv1 Hv2 Hhm node.
  pose proof (release_stored E self w info Hinfo) as Hr. rewrite Hq in Hr.
  assert (Hst : status (released true self) = RELEASING).
  { unfold released. by rewrite decide_False. }
  assert (Hown : owner (released true self) = owner self).
  { unfold released. by rewrite decide_False. }
  rewrite Hst in Hr.
  destruct (Hr Hwait Hv1) as (w1 & Hsnd & Hnodes & _ & Hfst). clear Hr.
  rewrite decide_False in Hfst.
  2:{ intros [Hs Hne]. by apply Hne, Hhm. }
  destruct (release E (self, w)) as [r s1] eqn:Hrel.
  simpl in Hsnd, Hfst. subst r s1.
  assert (Hdb : forall n, system_id n = system_id self ->
                          get_db_state w1 n = Some RELEASING).
  { intros n Hid. unfold get_db_state. rewrite Hid, Hnodes, lookup_insert_eq.
    cbn [fmap option_fmap option_map]. by rewrite Hst. }
  assert (Hid : system_id (released true self) = system_id self)
    by apply system_id_released.
  exists (set_nodes (<[system_id self := node]> (nodes w1)) w1).
  split_and!.
  - unfold bind at 1. rewrite Hrel.
    unfold update_power_state, bind, self_node, update_self, ret.
    cbv beta iota zeta delta [fst snd].
    rewrite Hst. rewrite (bool_decide_eq_true_2 (RELEASING = RELEASING)) by done.
    rewrite andb_true_l. unfold node.
    destruct (decide (p = POWER_OFF)) as [->|Hp].
    + rewrite bool_decide_eq_true_2 by done.
      cbv beta iota zeta delta [fst snd]. rewrite save_spec.
      rewrite Hdb by done.
      change (status (set_owner None
                        (set_status READY
                           (set_power_state POWER_OFF (released true self)))))
        with READY.
      rewrite Hv2.
      change (system_id (set_owner None
                           (set_status READY
                              (set_power_state POWER_OFF (released true self)))))
        with (system_id (released true self)).
      by rewrite Hid.
    + rewrite bool_decide_eq_false_2 by done.
      cbv beta iota zeta delta [fst snd]. rewrite save_spec.
      rewrite Hdb by done.
      change (status (set_power_state p (released true self)))
        with (status (released true self)).
      rewrite Hst, validate_transition_same.
      change (system_id (set_power_state p (released true self)))
        with (system_id (released true self)).
      by rewrite Hid.
  - simpl. by rewrite Hnodes, insert_insert_eq.
  - unfold node. destruct (decide (p = POWER_OFF)); [done|]. exact Hst.
  - unfold node. destruct (decide (p = POWER_OFF)); [done|]. exact Hown.
Qed.
End Composition.

(** ** Power parameter schemas *)

Lemma valid_string_schema v : validate string_schema v = true <-> exists s, v = PyStr s.
Proof.
  destruct v; simpl; split; try done; try (by intros [? ?]); eauto.
Qed.

Lemma valid_choice_pair v :
  validate (mkSchema "array" (Some string_schema) (Some 2) (Some 2) true [] []) v = true
  <-> exists a b, v = PyList [PyStr a; PyStr b] /\ a <> b.
Proof.
  split.
  - destruct v as [| | | |l|]; try done. simpl.
    destruct l as [|x [|y [|z l]]]; simpl; try done;
      try (by rewrite ?andb_false_r).
    destruct x; simpl; try done. destruct y; simpl; try done.
    rewrite !andb_true_r, orb_false_r.
    intros Hne%negb_true_iff%bool_decide_eq_false. eauto.
  - intros (a & b & -> & Hne). simpl. rewrite !andb_true_r, orb_false_r.
    by apply negb_true_iff, bool_decide_eq_false.
Qed.

Lemma valid_choices v :
  validate CHOICE_FIELD_SCHEMA v = true <->
  exists choices,
    v = choices_value choices /\ Forall (fun c => c.1 <> c.2) choices.
Proof.
  unfold CHOICE_FIELD_SCHEMA, choices_value.
  set (pair_schema := mkSchema "array" (Some string_schema) (Some 2) (Some 2) true [] []).
  split.
  - destruct v as [| | | |l|]; try done.
    cbn [validate has_type]. rewrite bool_decide_eq_true_2 by done.
    rewrite !andb_true_r, andb_true_l. fold pair_schema.
    induction l as [|x l IH].
    + intros _. by exists [].
    + cbn [forallb]. intros [Hx Hl]%andb_true_iff.
      apply valid_choice_pair in Hx as (a & b & -> & Hne).
      destruct (IH Hl) as (choices & [= ->] & Hall).
      exists ((a, b) :: choices). split; [done|]. by constructor.
  - intros (choices & -> & Hall).
    cbn [validate has_type]. rewrite bool_decide_eq_true_2 by done.
    rewrite !andb_true_r, andb_true_l. fold pair_schema.
    induction Hall as [|[a b] choices Hne _ IH]; [done|].
    cbn [fmap list_fmap forallb]. rewrite IH, andb_true_r.
    apply valid_choice_pair. by exists a, b.
Qed.

(** Property X25.  The choices [make_json_field] accepts.  It returns a field
    exactly when the choices are left out or are a list of two-item
    lists of strings whose two items differ; a choice whose value and
    label are the same string is refused. *)
Theorem make_json_field_choices name label field_type choices default required :
  (exists field,
     make_json_field name label field_type choices default required = inr field) <->
  choices = PyNone \/
  exists pairs,
    choices = choices_value pairs /\ Forall (fun c => c.1 <> c.2) pairs.
Proof.
  unfold make_json_field. cbv zeta. split.
  - intros [field Hf].
    destruct (validate CHOICE_FIELD_SCHEMA _) eqn:Hv; [|done].
    destruct choices; try (by right; apply valid_choices); by left.
  - intros Hc.
    assert (Hv : validate CHOICE_FIELD_SCHEMA
                   match choices with PyNone => PyList [] | _ => choices end = true).
    { destruct Hc as [-> | (pairs & -> & Hall)]; [done|].
      apply valid_choices. by exists pairs. }
    rewrite Hv. eauto.
Qed.

Lemma valid_boolean_schema v : validate boolean_schema v = true <-> exists b, v = PyBool b.
Proof.
  destruct v; simpl; split; try done; try (by intros [? ?]); eauto.
Qed.

(** Property X26.  When a built field conforms.  A field that
    [make_json_field] returns validates against
    [POWER_TYPE_PARAMETER_FIELD_SCHEMA] exactly when the name and the
    label are strings, [required] is a boolean and the default is a
    string or left out: these arguments are not checked by
    [make_json_field], while the field type and the choices it returns
    always conform. *)
Theorem make_json_field_conforms name label field_type choices default required field :
  make_json_field name label field_type choices default required = inr field ->
  validate POWER_TYPE_PARAMETER_FIELD_SCHEMA field = true <->
  (exists s, name = PyStr s) /\ (exists s, label = PyStr s) /\
  (exists b, required = PyBool b) /\
  (default = PyNone \/ exists s, default = PyStr s).
Proof.
  unfold make_json_field. cbv zeta.
  destruct (validate CHOICE_FIELD_SCHEMA _) eqn:Hv; [|done].
  intros [= <-].
  set (ft := match field_type with
             | PyStr s =>
                 if decide (s ∈ ["string"; "mac_address"; "choice"])
                 then field_type else PyStr "string"
             | _ => PyStr "string"
             end).
  assert (Hft : validate string_schema ft = true).
  { apply valid_string_schema. unfold ft.
    destruct field_type; eauto. case_decide; eauto. }
  set (ch := match choices with PyNone => PyList [] | _ => choices end) in *.
  set (df := match default with PyNone => PyStr "" | _ => default end).
  assert (Hdf : validate string_schema df = true <->
                default = PyNone \/ exists s, default = PyStr s).
  { rewrite valid_string_schema. unfold df.
    destruct default; split; eauto; try (by intros [? ?]);
      try (by intros [? | [? ?]]). }
  rewrite <- Hdf, <- !valid_string_schema, <- valid_boolean_schema.
  unfold POWER_TYPE_PARAMETER_FIELD_SCHEMA.
  cbn [validate has_type forallb dict_get].
  rewrite bool_decide_eq_true_2 by done.
  repeat first [ rewrite decide_True by done | rewrite decide_False by done ].
  rewrite Hft, Hv.
  rewrite !bool_decide_eq_true_2 by eauto.
  rewrite !andb_true_r, !andb_true_l, !andb_true_iff. tauto.
Qed.

(** ** The properties on concrete nodes *)

Lemma acquire_available_witness :
  fst (acquire sample_env alice None "juju" (node_r, world_o)) = Ok tt /\
  fst (snd (acquire sample_env alice None "juju" (node_r, world_o)))
    = set_acquired alice None "juju" node_r /\
  set_acquired alice None "juju" node_r ∈
    get_nodes (snd (snd (acquire sample_env alice None "juju" (node_r, world_o))))
      (Some alice) PERM_EDIT None /\
  Forall (fun m => system_id m <> "node-r")
    (get_available_nodes_for_acquisition
       (snd (snd (acquire sample_env alice None "juju" (node_r, world_o))))
       (Some admin)).
Proof.
  destruct (acquire_available sample_env alice None "juju" node_r world_o)
    as (w' & Heq & Hnodes & Hedit & Hothers & Havail);
    [exact (sample_world_ok _ _) | vm_compute; by left | reflexivity
    | by left | reflexivity |].
  rewrite Heq. cbn [fst snd]. split_and!; [done | done | exact Hedit |].
  apply Forall_forall. intros m Hm. by apply (Havail (Some admin)).
Defined.

Lemma acquire_asserts_witness :
  acquire sample_env admin None "" (node_o, world_o)
    = (Raise AssertionError, (node_o, world_o)) /\
  acquire sample_env admin (Some (mkToken "key" alice)) "" (node_r, world_o)
    = (Raise AssertionError, (node_r, world_o)).
Proof.
  split.
  - apply acquire_asserts. by left.
  - apply acquire_asserts. right. by split.
Defined.

Lemma abort_commissioning_without_edit_witness :
  bool_decide (may_edit (Some alice) node_m) = false /\
  abort_commissioning sample_env (Some alice) (node_m, world_o) =
    (Ok tt,
     (set_status NEW node_m,
      set_nodes (<["node-m" := set_status NEW node_m]> (nodes world_o))
        (log_effect (PowerOffNodes []) world_o))).
Proof.
  assert (Hno : ~ may_edit (Some alice) node_m) by (by intros [?|?]).
  split; [by apply bool_decide_eq_false|].
  apply (abort_commissioning_without_edit sample_env (Some alice) node_m world_o);
    [exact (sample_world_ok _ _) | vm_compute; reflexivity | exact Hno
    | reflexivity | reflexivity | reflexivity].
Defined.

Lemma release_outcomes_witness :
  fst (release failing_gateway_env (node_o, world_o))
    = Raise (MultipleFailures ["host map removal failed"]) /\
  fst (snd (release failing_gateway_env (node_o, world_o))) = released true node_o /\
  nodes (snd (snd (release failing_gateway_env (node_o, world_o)))) !! "node-o"
    = Some (released true node_o) /\
  status (released true node_o) = RELEASING /\
  owner (released true node_o) = Some alice /\
  staticipaddresses (snd (snd (release failing_gateway_env (node_o, world_o)))) = [].
Proof.
  pose proof (release_outcomes failing_gateway_env node_o world_o
                (mkPowerInfo true true true (Some "ipmi")
                   (Some (get_effective_power_parameters world_o node_o)))
                ltac:(vm_compute; reflexivity)) as H.
  cbv zeta in H. destruct H as [_ Hok].
  destruct Hok as (w' & Hsnd & Hnodes & Hips & Hfst);
    [vm_compute; reflexivity | vm_compute; reflexivity |].
  rewrite Hfst, Hsnd. cbn [fst snd]. rewrite Hnodes, Hips.
  split_and!; [vm_compute; reflexivity | reflexivity | apply lookup_insert_eq
              | reflexivity | reflexivity | vm_compute; reflexivity].
Defined.

Lemma release_unowned_powers_nothing_off_witness :
  power_dispatches (snd (snd (release sample_env (node_r, world_o))))
    = [PowerOffNodes []] /\
  status (fst (snd (release sample_env (node_r, world_o)))) = RELEASING.
Proof.
  split.
  - apply (release_unowned_powers_nothing_off sample_env node_r world_o).
    reflexivity.
  - vm_compute. reflexivity.
Defined.

Lemma broken_then_fixed_is_ready_witness :
  status node_c = NEW /\
  fst (snd ((let* _ := mark_broken sample_env "no disks" in mark_fixed sample_env)
              (node_c, world_abc)))
    = set_error_description "" (set_owner None (set_status READY node_c)).
Proof.
  split; [reflexivity|].
  rewrite (proj2 (broken_then_fixed_is_ready sample_env "no disks" node_c world_abc));
    [reflexivity | | vm_compute; reflexivity | reflexivity].
  intros Hin. vm_compute in Hin. by repeat (apply elem_of_cons in Hin as [?|Hin]; [done|]);
    apply elem_of_nil in Hin.
Defined.

Lemma handle_monitor_expired_outcomes_witness :
  handle_monitor_expired sample_env (fun _ => "0:40:00")
    (mkMonitorContext DEPLOYING get_deployment_time) (node_d, world_d) =
    (Ok tt,
     (set_error_description "Node operation 'Deploying' timed out after 0:40:00."
        (set_status FAILED_DEPLOYMENT node_d),
      set_nodes
        (<["node-d" :=
             set_error_description
               "Node operation 'Deploying' timed out after 0:40:00."
               (set_status FAILED_DEPLOYMENT node_d)]> (nodes world_d)) world_d)) /\
  handle_monitor_expired sample_env (fun _ => "0:40:00")
    (mkMonitorContext DEPLOYING get_deployment_time) (node_r, world_abc) =
    (Ok tt, (node_r, world_abc)).
Proof.
  split.
  - apply (proj1 (handle_monitor_expired_outcomes sample_env (fun _ => "0:40:00")
                    (mkMonitorContext DEPLOYING get_deployment_time) node_d world_d)
             FAILED_DEPLOYMENT); reflexivity.
  - apply (proj2 (handle_monitor_expired_outcomes sample_env (fun _ => "0:40:00")
                    (mkMonitorContext DEPLOYING get_deployment_time) node_r world_abc)).
    reflexivity.
Defined.

Lemma start_nodes_unallocated_batch_witness :
  get_nodes world_w (Some admin) PERM_EDIT (Some ["node-w"; "node-d"])
    = [node_w; node_d] /\
  fst (start_nodes sample_env ["node-w"; "node-d"] (Some admin) None world_w)
    = Ok [node_d] /\
  exists reqs,
    power_dispatches
      (snd (start_nodes sample_env ["node-w"; "node-d"] (Some admin) None world_w))
      = [PowerOnNodes reqs] /\
    (fun r : NodePowerRequest => r.1.1.1) <$> reqs = ["node-d"].
Proof.
  destruct (start_nodes_unallocated_batch sample_env ["node-w"; "node-d"]
              (Some admin) None world_w)
    as (reqs & Heff & Hids & _); [vm_compute | reflexivity |].
  { repeat constructor; discriminate. }
  split; [vm_compute; reflexivity|]. split; [vm_compute; reflexivity|].
  exists reqs. split.
  - unfold power_dispatches. rewrite Heff. vm_compute. reflexivity.
  - etrans; [exact Hids | vm_compute; reflexivity].
Defined.

Lemma make_json_field_conforms_witness :
  validate POWER_TYPE_PARAMETER_FIELD_SCHEMA
    (PyDict [("name", PyStr "power_address"); ("label", PyStr "Power address");
             ("required", PyBool true); ("field_type", PyStr "string");
             ("choices", PyList []); ("default", PyStr "")]) = true /\
  (exists field,
     make_json_field (PyStr "power_address") PyNone (PyStr "text") PyNone PyNone
       (PyBool true) = inr field /\
     validate POWER_TYPE_PARAMETER_FIELD_SCHEMA field = false).
Proof.
  split.
  - apply (make_json_field_conforms (PyStr "power_address") (PyStr "Power address")
             (PyStr "text") PyNone PyNone (PyBool true)); [reflexivity|].
    split_and!; eauto.
  - eexists. split; [reflexivity|]. reflexivity.
Defined.

Lemma abort_commissioning_outcomes_witness :
  fst (abort_commissioning silent_gateway_env (Some admin) (node_m, world_o))
    = Raise (MultipleFailures ["timed out"]) /\
  fst (snd (abort_commissioning silent_gateway_env (Some admin) (node_m, world_o)))
    = node_m /\
  nodes (snd (snd (abort_commissioning silent_gateway_env (Some admin)
                     (node_m, world_o)))) = nodes world_o.
Proof.
  pose proof (proj2 (abort_commissioning_outcomes silent_gateway_env (Some admin)
                       node_m world_o) eq_refl) as H.
  cbv zeta in H. destruct H as [Hfail _].
  rewrite (Hfail (MultipleFailures ["timed out"])) by (vm_compute; reflexivity).
  by split_and!.
Defined.

Lemma abort_operation_outcomes_witness :
  abort_operation sample_env (Some admin) (node_m, world_o) =
    (Raise (NodeStateViolation
              "Cannot abort in current state: node node-m is in state Commissioning."),
     (node_m, world_o)).
Proof.
  apply (proj1 (abort_operation_outcomes sample_env (Some admin) node_m world_o)).
  discriminate.
Defined.

Lemma mark_broken_outcomes_witness :
  status node_o ∈ RELEASABLE_STATUSES /\
  fst (mark_broken silent_gateway_env "no disks" (node_o, world_o))
    = Raise (MultipleFailures ["timed out"]) /\
  fst (snd (mark_broken silent_gateway_env "no disks" (node_o, world_o))) = node_o /\
  nodes (snd (snd (mark_broken silent_gateway_env "no disks" (node_o, world_o))))
    = nodes world_o.
Proof.
  assert (Hrel : status node_o ∈ RELEASABLE_STATUSES).
  { unfold RELEASABLE_STATUSES. simpl. do 4 right. left. }
  split; [exact Hrel|].
  pose proof (proj1 (mark_broken_outcomes silent_gateway_env "no disks"
                       node_o world_o) Hrel) as H.
  cbv zeta in H.
  rewrite (H (MultipleFailures ["timed out"])) by (vm_compute; reflexivity).
  by split_and!.
Defined.

Lemma accept_enlistment_idempotent_witness :
  fst (accept_enlistment sample_env (Some admin) (node_c, world_abc))
    = Ok (Some (set_status COMMISSIONING node_c)) /\
  accept_enlistment sample_env (Some admin)
    (snd (accept_enlistment sample_env (Some admin) (node_c, world_abc)))
    = (Ok None, snd (accept_enlistment sample_env (Some admin) (node_c, world_abc))).
Proof.
  assert (Hfst : fst (accept_enlistment sample_env (Some admin) (node_c, world_abc))
                 = Ok (Some (set_status COMMISSIONING node_c)))
    by (vm_compute; reflexivity).
  destruct (accept_enlistment sample_env (Some admin) (node_c, world_abc))
    as [r s'] eqn:Hacc.
  cbn [fst snd] in *. subst r.
  destruct (proj2 (accept_enlistment_idempotent sample_env (Some admin)
                     node_c world_abc) _ _ Hacc) as (_ & _ & _ & Hagain).
  split; [reflexivity | exact Hagain].
Defined.

Lemma start_commissioning_without_edit_witness :
  bool_decide (may_edit (Some alice) node_c) = false /\
  fst (start_commissioning sample_env (Some alice) (node_c, world_abc)) = Ok tt /\
  nodes (snd (snd (start_commissioning sample_env (Some alice) (node_c, world_abc))))
    !! "node-c" = Some (set_status COMMISSIONING node_c) /\
  power_dispatches
    (snd (snd (start_commissioning sample_env (Some alice) (node_c, world_abc))))
    = [PowerOnNodes []].
Proof.
  assert (Hno : ~ may_edit (Some alice) node_c) by (by intros [?|?]).
  split; [by apply bool_decide_eq_false|].
  destruct (start_commissioning_without_edit sample_env (Some alice) node_c world_abc)
    as (w' & Heq & Hnodes & Hpd);
    [exact (sample_world_ok _ _) | vm_compute; reflexivity | exact Hno
    | reflexivity | reflexivity | reflexivity |].
  rewrite Heq. cbn [fst snd]. rewrite Hnodes, Hpd.
  split_and!; [done | apply lookup_insert_eq | done].
Defined.

Lemma release_completes_on_power_off_witness :
  fst ((let* _ := release sample_env in update_power_state sample_env POWER_OFF)
         (node_o, world_o)) = Ok tt /\
  status (fst (snd ((let* _ := release sample_env in
                     update_power_state sample_env POWER_OFF) (node_o, world_o))))
    = READY /\
  owner (fst (snd ((let* _ := release sample_env in
                    update_power_state sample_env POWER_OFF) (node_o, world_o))))
    = None /\
  status (fst (snd (release sample_env (node_o, world_o)))) = RELEASING.
Proof.
  pose proof (release_completes_on_power_off sample_env node_o world_o
                (mkPowerInfo true true true (Some "ipmi")
                   (Some (get_effective_power_parameters world_o node_o)))
                POWER_OFF
                ltac:(vm_compute; reflexivity) ltac:(discriminate)
                ltac:(reflexivity) ltac:(vm_compute; reflexivity)
                ltac:(vm_compute; reflexivity) ltac:(reflexivity)
                ltac:(intros _; reflexivity)) as H.
  cbv zeta in H. destruct H as (w' & Heq & _ & Hst & Hown).
  rewrite Heq. cbn [fst snd]. rewrite Hst, Hown.
  split_and!; [done | done | done | vm_compute; reflexivity].
Defined.
